(** * A shallow embedding of the calculator engine (engine.h, engine.cpp, calc.cpp)

    The development follows the source top-down: floating-point values,
    tokens, expression trees, the tokenizer, the precedence-climbing parser,
    the [calculate] entry point and the command-line driver.

    Modelling conventions.
    - [double] is IEEE 754 binary64, given by the Standard Library's executable
      specification [SpecFloat] (precision 53, infinities at exponent 1024,
      round to nearest even, a single NaN).
    - C++ [int] indices and offsets are [Z].  They are bounded by the length
      of the formula, so no wrap-around occurs for formulas shorter than
      [2^31 - 1] characters.
    - A thrown [parse_exception] or [broken_parser_exception] is a constructor
      of [outcome]; reading [tokens[i]] outside the vector is undefined
      behaviour in C++ and is the constructor [OutOfRange].
    - The mutually recursive parser functions are defined with a recursion
      budget; [Parser.enough] is shown to suffice for every call, and the
      budget-free functions are the ones the theorems speak about. *)

From Stdlib Require Import ZArith String Ascii List Bool Lia.
From Stdlib Require Import Floats.FloatClass Floats.SpecFloat.
Import ListNotations.

Local Open Scope Z_scope.

(** ** Outcomes of a call *)

Inductive outcome (A : Type) : Type :=
| Ok (a : A)
| ParseError (start_position : Z) (message : string)   (* throw parse_exception *)
| BrokenParser (message : string)                      (* throw broken_parser_exception *)
| OutOfRange                                           (* tokens[i] outside the vector *)
| OutOfFuel.                                           (* recursion budget exhausted *)

Arguments Ok {A} a.
Arguments ParseError {A} start_position message.
Arguments BrokenParser {A} message.
Arguments OutOfRange {A}.
Arguments OutOfFuel {A}.

Definition bind {A B : Type} (r : outcome A) (k : A -> outcome B) : outcome B :=
  match r with
  | Ok a => k a
  | ParseError p m => ParseError p m
  | BrokenParser m => BrokenParser m
  | OutOfRange => OutOfRange
  | OutOfFuel => OutOfFuel
  end.

Notation "x <- r ;; k" := (bind r (fun x => k))
  (at level 61, r at next level, right associativity).

(** ** IEEE 754 binary64 *)

Definition double : Type := spec_float.

Module Double.

Definition prec : Z := 53.
Definition emax : Z := 1024.

Definition add : double -> double -> double := SFadd prec emax.
Definition sub : double -> double -> double := SFsub prec emax.
Definition mul : double -> double -> double := SFmul prec emax.
Definition div : double -> double -> double := SFdiv prec emax.
Definition opp : double -> double := SFopp.

(** Conversion of an integer constant, exact for the small constants used
    in the source and in its tests. *)
Definition of_Z (z : Z) : double := binary_normalize prec emax z 0 false.

(** The quotient [n / d] of two positive integers, rounded once. *)
Definition of_ratio (n d : positive) : double :=
  SFdiv prec emax (S754_finite false n 0) (S754_finite false d 0).

(** [std::isnormal]: neither zero, subnormal, infinite nor NaN. *)
Definition isnormal (x : double) : bool :=
  match SFclassify prec x with
  | PNormal | NNormal => true
  | _ => false
  end.

Definition is_nan (x : double) : bool :=
  match x with S754_nan => true | _ => false end.

Definition is_infinite (x : double) : bool :=
  match x with S754_infinity _ => true | _ => false end.

Definition is_zero (x : double) : bool :=
  match x with S754_zero _ => true | _ => false end.

Definition is_subnormal (x : double) : bool :=
  match SFclassify prec x with
  | PSubn | NSubn => true
  | _ => false
  end.

Definition valid (x : double) : bool := valid_binary prec emax x.

End Double.

(** ** Tokens *)

Module token_type.
Inductive t : Set :=
| number
| opening_parenthesis
| closing_parenthesis
| multiply
| divide
| plus
| minus.

Definition eqb (a b : t) : bool :=
  match a, b with
  | number, number
  | opening_parenthesis, opening_parenthesis
  | closing_parenthesis, closing_parenthesis
  | multiply, multiply
  | divide, divide
  | plus, plus
  | minus, minus => true
  | _, _ => false
  end.
End token_type.

Module _operator.
Inductive t : Set :=
| multiply
| divide
| plus
| minus.
End _operator.

Record token : Type := mk_token {
  type : token_type.t;
  start_position : Z;
  _value : double
}.

(** [token(type, start_position)] with the default [value = 0]. *)
Definition mk_symbol (ty : token_type.t) (pos : Z) : token :=
  mk_token ty pos (S754_zero false).

Definition value (t : token) : outcome double :=
  match type t with
  | token_type.number => Ok (_value t)
  | _ => BrokenParser "Unsupported operation"
  end.

Module priority.
Inductive t : Set :=
| lowest   (* expression root *)
| first    (* "+", "-" *)
| second.  (* "*", "/" *)

Definition rank (p : t) : Z :=
  match p with lowest => 0 | first => 1 | second => 2 end.

Definition leb (a b : t) : bool := rank a <=? rank b.
End priority.

(** ** Expression trees *)

Inductive expression : Type :=
| add (left right : expression)
| subtract (left right : expression)
| multiply (left right : expression)
| divide (left right : expression)
| parentheses (content : expression)
| number (value : double)
| negative (content : expression).

Definition minus_one : double := Double.of_Z (-1).

Fixpoint calc (e : expression) : double :=
  match e with
  | add l r => Double.add (calc l) (calc r)
  | subtract l r => Double.sub (calc l) (calc r)
  | multiply l r => Double.mul (calc l) (calc r)
  | divide l r => Double.div (calc l) (calc r)
  | parentheses c => calc c
  | number v => v
  | negative c => Double.mul minus_one (calc c)
  end.

Fixpoint consumed_tokens (e : expression) : Z :=
  match e with
  | add l r | subtract l r | multiply l r | divide l r =>
      consumed_tokens l + consumed_tokens r + 1
  | parentheses c => consumed_tokens c + 2
  | number _ => 1
  | negative c => consumed_tokens c + 1
  end.

(** ** Numeric literals *)

Module Lexer.

Definition is_digit (symbol : ascii) : bool :=
  let n := N_of_ascii symbol in
  (N_of_ascii "0" <=? n)%N && (n <=? N_of_ascii "9")%N.

(** The test [symbol >= '0' && symbol <= '9' || symbol == '.'] of [tokenize]. *)
Definition is_numeric (symbol : ascii) : bool :=
  is_digit symbol || Ascii.eqb symbol ".".

Definition digit_value (symbol : ascii) : Z :=
  Z.of_N (N_of_ascii symbol) - Z.of_N (N_of_ascii "0").

(** Longest prefix of decimal digits, and what follows it. *)
Fixpoint span_digits (s : list ascii) : list ascii * list ascii :=
  match s with
  | c :: s' =>
      if is_digit c then
        let (ds, rest) := span_digits s' in (c :: ds, rest)
      else ([], s)
  | [] => ([], [])
  end.

Definition decimal_value (ds : list ascii) : Z :=
  fold_left (fun acc c => 10 * acc + digit_value c) ds 0.

Fixpoint pow10 (k : nat) : positive :=
  match k with
  | O => 1
  | S k' => 10 * pow10 k'
  end.

(** The decimal [m * 10^(-k)] rounded to the nearest double. *)
Definition decimal_to_double (m : Z) (k : nat) : double :=
  match m with
  | Zpos p => Double.of_ratio p (pow10 k)
  | _ => S754_zero false
  end.

(** [std::strtod] on the text of a literal buffer: the value of the longest
    prefix of the form digits, optional ["."], digits (with at least one
    digit), and the number of characters of that prefix.  When there is no
    such prefix no conversion is performed: the value is zero and nothing is
    consumed.  The buffer only ever holds digits and ["."], so signs,
    exponents, hexadecimal forms and white space need no treatment; any
    other character ends the number.  The conversion is the correctly
    rounded one, with overflow to infinity. *)
Definition strtod (number : list ascii) : double * Z :=
  let (int_part, rest) := span_digits number in
  let (frac_part, dot) :=
    match rest with
    | c :: rest' =>
        if Ascii.eqb c "." then (fst (span_digits rest'), 1) else ([], 0)
    | [] => ([], 0)
    end in
  match int_part, frac_part with
  | [], [] => (S754_zero false, 0)
  | _, _ =>
      (decimal_to_double (decimal_value (int_part ++ frac_part)) (length frac_part),
       Z.of_nat (length int_part) + dot + Z.of_nat (length frac_part))
  end.

(** [parser::parse_number].  [std::strtod] throws nothing, so the handler
    for [std::logic_error] is never entered. *)
Definition parse_number (number : list ascii) (number_start : Z) : outcome double :=
  let (value, end_) := strtod number in
  if negb (end_ =? Z.of_nat (length number)) || negb (Double.isnormal value)
  then ParseError number_start "Number too long"
  else Ok value.

(** The [switch (symbol)] at the end of the loop body of [tokenize]. *)
Definition symbol_token (symbol : ascii) (i : Z) (tokens : list token)
  : outcome (list token) :=
  if Ascii.eqb symbol " " then Ok tokens
  else if Ascii.eqb symbol "(" then
    Ok (tokens ++ [mk_symbol token_type.opening_parenthesis i])
  else if Ascii.eqb symbol ")" then
    Ok (tokens ++ [mk_symbol token_type.closing_parenthesis i])
  else if Ascii.eqb symbol "+" then Ok (tokens ++ [mk_symbol token_type.plus i])
  else if Ascii.eqb symbol "-" then Ok (tokens ++ [mk_symbol token_type.minus i])
  else if Ascii.eqb symbol "*" then Ok (tokens ++ [mk_symbol token_type.multiply i])
  else if Ascii.eqb symbol "/" then Ok (tokens ++ [mk_symbol token_type.divide i])
  else ParseError i "Unexpected symbol".

(** The [for] loop of [tokenize], from index [i] on; [formula] is what is
    left of the formula from that index, so [i == formula.size() - 1] is
    "nothing follows [symbol]". *)
Fixpoint tokenize_from (formula : list ascii) (i : Z) (tokens : list token)
    (number_token : list ascii) (number_start : Z) : outcome (list token) :=
  match formula with
  | [] => Ok tokens
  | symbol :: rest =>
      if is_numeric symbol then
        let number_start :=
          match number_token with [] => i | _ => number_start end in
        let number_token := number_token ++ [symbol] in
        match rest with
        | [] =>
            value <- parse_number number_token number_start ;;
            tokenize_from rest (i + 1)
              (tokens ++ [mk_token token_type.number number_start value])
              number_token number_start
        | _ => tokenize_from rest (i + 1) tokens number_token number_start
        end
      else
        match number_token with
        | [] =>
            tokens <- symbol_token symbol i tokens ;;
            tokenize_from rest (i + 1) tokens [] number_start
        | _ =>
            value <- parse_number number_token number_start ;;
            tokens <- symbol_token symbol i
              (tokens ++ [mk_token token_type.number number_start value]) ;;
            tokenize_from rest (i + 1) tokens [] number_start
        end
  end.

Definition tokenize (formula : string) : outcome (list token) :=
  tokenize_from (list_ascii_of_string formula) 0 [] [] 0.

End Lexer.

(** ** The parser *)

Module Parser.

Definition get_priority (op : _operator.t) : priority.t :=
  match op with
  | _operator.minus | _operator.plus => priority.first
  | _operator.multiply | _operator.divide => priority.second
  end.

Definition parse_operator (t : token) : outcome _operator.t :=
  match type t with
  | token_type.plus => Ok _operator.plus
  | token_type.minus => Ok _operator.minus
  | token_type.multiply => Ok _operator.multiply
  | token_type.divide => Ok _operator.divide
  | _ => ParseError (start_position t) "Unexpected token: operator needed"
  end.

Definition create_two_operand_expression
    (left : expression) (op : _operator.t) (right : expression) : expression :=
  match op with
  | _operator.multiply => multiply left right
  | _operator.divide => divide left right
  | _operator.plus => add left right
  | _operator.minus => subtract left right
  end.

(** [tokens.size()] *)
Definition size (tokens : list token) : Z := Z.of_nat (length tokens).

Section WithTokens.

Variable tokens : list token.

(** [tokens[i]] *)
Definition tokens_at (i : Z) : outcome token :=
  if i <? 0 then OutOfRange
  else match nth_error tokens (Z.to_nat i) with
       | Some t => Ok t
       | None => OutOfRange
       end.

(** The [for] loop of [find_closing_parenthesis]; [steps] is the number
    of indices from [i] to [end] that are left to visit. *)
Fixpoint find_closing_from (steps : nat) (i depth : Z) : outcome Z :=
  match steps with
  | O => Ok (-1)
  | S steps' =>
      t <- tokens_at i ;;
      match type t with
      | token_type.closing_parenthesis =>
          if depth =? 0 then Ok i
          else if depth >? 0 then find_closing_from steps' (i + 1) (depth - 1)
          else BrokenParser "Missed closing parenthesis"
      | token_type.opening_parenthesis =>
          find_closing_from steps' (i + 1) (depth + 1)
      | _ => find_closing_from steps' (i + 1) depth
      end
  end.

Definition find_closing_parenthesis (start end_ : Z) : outcome Z :=
  find_closing_from (Z.to_nat (end_ - start + 1)) start 0.

(** The four mutually recursive pieces of the descent: [parse_range], its
    [while] loop, [parse_operand] and [parse_parentheses].  Each call and
    each loop iteration spends one unit of [fuel]. *)
Fixpoint parse_range_fuel (fuel : nat) (start end_ : Z)
    (parent_priority : priority.t) {struct fuel} : outcome expression :=
  match fuel with
  | O => OutOfFuel
  | S fuel' =>
      let available_tokens := end_ - start + 1 in
      result <- parse_operand_fuel fuel' start end_ ;;
      parse_range_loop_fuel fuel' start end_ parent_priority
        available_tokens result (consumed_tokens result)
  end

with parse_range_loop_fuel (fuel : nat) (start end_ : Z)
    (parent_priority : priority.t) (available_tokens : Z)
    (result : expression) (consumed : Z) {struct fuel} : outcome expression :=
  match fuel with
  | O => OutOfFuel
  | S fuel' =>
      if available_tokens >? consumed then
        let next_operator_index := start + consumed_tokens result in
        t <- tokens_at next_operator_index ;;
        next_operator <- parse_operator t ;;
        let consumed := consumed + 1 in
        let operator_priority := get_priority next_operator in
        if priority.leb operator_priority parent_priority then Ok result
        else
          next_operand <-
            parse_range_fuel fuel' (start + consumed) end_ operator_priority ;;
          let result :=
            create_two_operand_expression result next_operator next_operand in
          parse_range_loop_fuel fuel' start end_ parent_priority
            available_tokens result (consumed_tokens result)
      else Ok result
  end

with parse_operand_fuel (fuel : nat) (start end_ : Z) {struct fuel}
    : outcome expression :=
  match fuel with
  | O => OutOfFuel
  | S fuel' =>
      first_token <- tokens_at start ;;
      match type first_token with
      | token_type.opening_parenthesis =>
          parse_parentheses_fuel fuel' start end_
      | token_type.minus =>
          if start =? end_ then
            ParseError (start_position first_token) "Orphan minus"
          else
            content <- parse_operand_fuel fuel' (start + 1) end_ ;;
            Ok (negative content)
      | token_type.number =>
          v <- value first_token ;;
          Ok (number v)
      | _ => ParseError (start_position first_token) "Unexpected token"
      end
  end

with parse_parentheses_fuel (fuel : nat) (start end_ : Z) {struct fuel}
    : outcome expression :=
  match fuel with
  | O => OutOfFuel
  | S fuel' =>
      closing_parenthesis_index <- find_closing_parenthesis (start + 1) end_ ;;
      if closing_parenthesis_index =? -1 then
        t <- tokens_at start ;;
        ParseError (start_position t) "Unclosed parenthesis"
      else if closing_parenthesis_index =? start + 1 then
        t <- tokens_at start ;;
        ParseError (start_position t) "Empty parentheses"
      else
        content <-
          parse_range_fuel fuel' (start + 1) (closing_parenthesis_index - 1)
            priority.lowest ;;
        Ok (parentheses content)
  end.

(** A budget that no call exhausts (see [fuel_sufficient]). *)
Definition enough : nat := 3 * length tokens + 3.

Definition parse_range (start end_ : Z) (parent_priority : priority.t)
  : outcome expression :=
  parse_range_fuel enough start end_ parent_priority.

Definition parse_range_loop (start end_ : Z) (parent_priority : priority.t)
    (available_tokens : Z) (result : expression) (consumed : Z)
  : outcome expression :=
  parse_range_loop_fuel enough start end_ parent_priority
    available_tokens result consumed.

Definition parse_operand (start end_ : Z) : outcome expression :=
  parse_operand_fuel enough start end_.

Definition parse_parentheses (start end_ : Z) : outcome expression :=
  parse_parentheses_fuel enough start end_.

(** The body of [parser::parse] once [tokens] is assigned. *)
Definition parse_tokens : outcome expression :=
  match tokens with
  | [] => ParseError 0 "Empty input"
  | _ => parse_range 0 (size tokens - 1) priority.lowest
  end.

End WithTokens.

(** [parser::parse] for a parser constructed on [formula]. *)
Definition parse (formula : string) : outcome expression :=
  tokens <- Lexer.tokenize formula ;;
  parse_tokens tokens.

End Parser.

(** ** The library entry point and the command-line driver *)

Definition calculate (formula : string) : outcome double :=
  expression <- Parser.parse formula ;;
  Ok (calc expression).

Module CLI.

Inductive exit_status : Set :=
| EXIT_SUCCESS
| EXIT_FAILURE
| Terminated.   (* no status: an exception other than parse_exception
                   leaves main, or the behaviour is undefined *)

(** What a run of [main] leaves behind: the value written to standard
    output (if any), the lines written to standard error, and the status. *)
Record run : Type := mk_run {
  stdout : list double;
  stderr : list string;
  status : exit_status
}.

(** [std::string(n, ' ')] *)
Definition spaces (n : Z) : string :=
  string_of_list_ascii (repeat " "%char (Z.to_nat n)).

Definition quote : string := String (ascii_of_nat 34) EmptyString.

(** [main], with [formula] the line read from standard input. *)
Definition main (formula : string) : run :=
  match calculate formula with
  | Ok result => mk_run [result] [] EXIT_SUCCESS
  | ParseError start_position message =>
      mk_run []
        [ "Invalid input:"%string;
          (quote ++ formula ++ quote)%string;
          (spaces (start_position + 1) ++ "^")%string;
          message ]
        EXIT_FAILURE
  | _ => mk_run [] [] Terminated
  end.

End CLI.

(** * Auxiliary notions used by the statements *)

(** [le_res r r']: [r'] is [r], unless [r] ran out of budget. *)
Definition le_res {A : Type} (r r' : outcome A) : Prop :=
  r = OutOfFuel \/ r = r'.

(** Number of tokens from index [i] to the end of the vector. *)
Definition remaining (tokens : list token) (i : Z) : Z :=
  if i <? 0 then 0 else Z.max 0 (Parser.size tokens - i).

(** A literal whose value, [10^(-311)], lies below the smallest normal double. *)
Definition tiny_literal : list ascii :=
  ("0" :: "." :: repeat "0" 310 ++ ["1"])%char.


(** ** Matching parentheses, declaratively *)

Definition depth_step (t : token) : Z :=
  match type t with
  | token_type.opening_parenthesis => 1
  | token_type.closing_parenthesis => -1
  | _ => 0
  end.

(** The [n] tokens from index [start] on. *)
Definition slice (tokens : list token) (start n : Z) : list token :=
  firstn (Z.to_nat n) (skipn (Z.to_nat start) tokens).

(** Opening minus closing parentheses in a run of tokens. *)
Definition nesting (l : list token) : Z :=
  fold_right (fun t d => depth_step t + d) 0 l.

Definition closing_at (tokens : list token) (i : Z) : Prop :=
  exists t, Parser.tokens_at tokens i = Ok t /\
            type t = token_type.closing_parenthesis.

(** [i] closes the parenthesis opened just before index [s]: it is the first
    closing parenthesis from [s] on that is met at nesting depth zero. *)
Definition matching_close (tokens : list token) (s i : Z) : Prop :=
  s <= i /\ closing_at tokens i /\
  nesting (slice tokens s (i - s)) = 0 /\
  forall j, s <= j < i -> closing_at tokens j ->
            0 < nesting (slice tokens s (j - s)).

(** The two tokens of ["()"]. *)
Definition paren_example : list token :=
  [mk_symbol token_type.opening_parenthesis 0;
   mk_symbol token_type.closing_parenthesis 1].


(** ** The tokens an expression was built from *)

(** What the parser reads of a token: its type, and its value when it is a
    number. *)
Definition erase (t : token) : token_type.t * option double :=
  (type t,
   match type t with
   | token_type.number => Some (_value t)
   | _ => None
   end).

Definition symbol (ty : token_type.t) : token_type.t * option double :=
  (ty, None).

(** The token sequence that an expression tree spells, left to right. *)
Fixpoint yield (e : expression) : list (token_type.t * option double) :=
  match e with
  | add l r => yield l ++ symbol token_type.plus :: yield r
  | subtract l r => yield l ++ symbol token_type.minus :: yield r
  | multiply l r => yield l ++ symbol token_type.multiply :: yield r
  | divide l r => yield l ++ symbol token_type.divide :: yield r
  | parentheses c =>
      symbol token_type.opening_parenthesis :: yield c
        ++ [symbol token_type.closing_parenthesis]
  | number v => [(token_type.number, Some v)]
  | negative c => symbol token_type.minus :: yield c
  end.

(** The expression [e] is spelled by the [consumed_tokens e] tokens that
    start at index [start]. *)
Definition spells (tokens : list token) (start : Z) (e : expression) : Prop :=
  0 <= start /\
  map erase (slice tokens start (consumed_tokens e)) = yield e.

(** The token after index [end_], if there is one, is a closing parenthesis:
    this holds of every range that [parse] hands to [parse_range]. *)
Definition delimited (tokens : list token) (end_ : Z) : Prop :=
  forall t, Parser.tokens_at tokens (end_ + 1) = Ok t ->
            type t = token_type.closing_parenthesis.

(** The three tokens of ["(5)"]. *)
Definition wrapped_five : list token :=
  [mk_symbol token_type.opening_parenthesis 0;
   mk_token token_type.number 1 (Double.of_Z 5);
   mk_symbol token_type.closing_parenthesis 2].

(** ** Flat formulas: numeric literals joined by binary operators *)

Definition operator_symbol (op : _operator.t) : ascii :=
  match op with
  | _operator.multiply => "*"
  | _operator.divide => "/"
  | _operator.plus => "+"
  | _operator.minus => "-"
  end.

Definition operator_token_type (op : _operator.t) : token_type.t :=
  match op with
  | _operator.multiply => token_type.multiply
  | _operator.divide => token_type.divide
  | _operator.plus => token_type.plus
  | _operator.minus => token_type.minus
  end.

Definition is_multiplicative (op : _operator.t) : bool :=
  match op with
  | _operator.multiply | _operator.divide => true
  | _operator.plus | _operator.minus => false
  end.

(** One "operator literal" step of a flat formula, with the spaces written
    around the operator. *)
Record joined : Type := mk_joined {
  spaces_before : nat;
  joiner : _operator.t;
  spaces_after : nat;
  literal : list ascii
}.

Definition blanks (n : nat) : list ascii := repeat " "%char n.

Definition render_joined (j : joined) : list ascii :=
  blanks (spaces_before j) ++ operator_symbol (joiner j)
    :: blanks (spaces_after j) ++ literal j.

Definition flat_formula (lead : nat) (first : list ascii) (rest : list joined)
    (trail : nat) : string :=
  string_of_list_ascii
    (blanks lead ++ first ++ concat (map render_joined rest) ++ blanks trail).

(** A literal that [tokenize] accepts: digits and dots, read to the end by
    [strtod], with a normal value. *)
Definition well_formed_literal (l : list ascii) : bool :=
  forallb Lexer.is_numeric l
  && (snd (Lexer.strtod l) =? Z.of_nat (length l))
  && Double.isnormal (fst (Lexer.strtod l)).

Definition literal_value (l : list ascii) : double := fst (Lexer.strtod l).

Definition joined_value (j : joined) : _operator.t * double :=
  (joiner j, literal_value (literal j)).

(** The reading of a flat formula by the usual rules.  First every run of
    operands joined by [*] and [/] is folded from the left into one term:
    [terms current rest] returns the term that starts with [current] and the
    remaining terms, each with the [+] or [-] in front of it.  Then the terms
    are folded from the left with their [+] and [-]. *)
Fixpoint terms (current : expression) (rest : list (_operator.t * double))
  : expression * list (_operator.t * expression) :=
  match rest with
  | [] => (current, [])
  | (op, v) :: rest' =>
      if is_multiplicative op then
        terms (Parser.create_two_operand_expression current op (number v)) rest'
      else
        let (t, ts) := terms (number v) rest' in (current, (op, t) :: ts)
  end.

Definition fold_terms (first : expression) (ts : list (_operator.t * expression))
  : expression :=
  fold_left
    (fun acc ot => Parser.create_two_operand_expression acc (fst ot) (snd ot))
    ts first.

Definition by_precedence (first : double) (rest : list (_operator.t * double))
  : expression :=
  let (t, ts) := terms (number first) rest in fold_terms t ts.

(** What is left of [rest] after the term that starts before it. *)
Fixpoint after_term (rest : list (_operator.t * double))
  : list (_operator.t * double) :=
  match rest with
  | [] => []
  | (op, v) :: rest' => if is_multiplicative op then after_term rest' else rest
  end.

(** The tokens of the "operator literal" steps of a flat formula. *)
Definition flat_tokens (rest : list (_operator.t * double))
  : list (token_type.t * option double) :=
  concat (map (fun ov => [symbol (operator_token_type (fst ov));
                          (token_type.number, Some (snd ov))]) rest).

(** From index [k] on, the tokens are those of [rest]. *)
Definition suffix_spells (tokens : list token) (k : Z)
    (rest : list (_operator.t * double)) : Prop :=
  0 <= k /\ map erase (skipn (Z.to_nat k) tokens) = flat_tokens rest.

(** [tokens.size() - 1], the last index of the vector. *)
Definition last_index (tokens : list token) : Z := Parser.size tokens - 1.

(** ** Where errors point *)

(** The offsets carried by an outcome of [tokenize] lie in [0, bound). *)
Definition positions_below (bound : Z) (r : outcome (list token)) : Prop :=
  match r with
  | Ok tokens => Forall (fun t => 0 <= start_position t < bound) tokens
  | ParseError position _ => 0 <= position < bound
  | _ => False
  end.

(** [position] is the offset of one of the tokens. *)
Definition at_a_token (tokens : list token) (position : Z) : Prop :=
  exists t, In t tokens /\ start_position t = position.

(** ** The evaluator, as the specification words it *)

(** As [calc], except that a negation is the IEEE negation of its operand
    rather than a product with [-1]. *)
Fixpoint evaluate (e : expression) : double :=
  match e with
  | add l r => Double.add (evaluate l) (evaluate r)
  | subtract l r => Double.sub (evaluate l) (evaluate r)
  | multiply l r => Double.mul (evaluate l) (evaluate r)
  | divide l r => Double.div (evaluate l) (evaluate r)
  | parentheses c => evaluate c
  | number v => v
  | negative c => Double.opp (evaluate c)
  end.

(** The values of the number leaves of an expression. *)
Fixpoint leaves (e : expression) : list double :=
  match e with
  | add l r | subtract l r | multiply l r | divide l r => leaves l ++ leaves r
  | parentheses c | negative c => leaves c
  | number v => [v]
  end.

(** ** Outcomes that the parser can and cannot produce *)

Definition is_operator (ty : token_type.t) : bool :=
  match ty with
  | token_type.plus | token_type.minus
  | token_type.multiply | token_type.divide => true
  | _ => false
  end.

(** The last token of the vector is one of [+ - * /]. *)
Definition ends_with_operator (tokens : list token) : bool :=
  match rev tokens with
  | t :: _ => is_operator (type t)
  | [] => false
  end.

(** The range [start..end_] lies inside the vector; it may be empty only
    when a token follows it. *)
Definition in_vector (tokens : list token) (start end_ : Z) : Prop :=
  0 <= start < Parser.size tokens /\ start <= end_ + 1 /\
  end_ < Parser.size tokens.

(** The range does not end the vector with an operator. *)
Definition operand_follows (tokens : list token) (end_ : Z) : Prop :=
  end_ + 1 < Parser.size tokens \/
  forall t, Parser.tokens_at tokens end_ = Ok t -> is_operator (type t) = false.

(** The messages of the [parse_exception]s thrown in engine.cpp. *)
Definition messages : list string :=
  [ "Empty input"; "Number too long"; "Unexpected symbol";
    "Unexpected token: operator needed"; "Orphan minus"; "Unexpected token";
    "Unclosed parenthesis"; "Empty parentheses" ]%string.

(** ** The shape of parsed expressions *)

(** How tightly the root of an expression binds: [+] and [-] like
    [priority.first], [*] and [/] like [priority.second], and an operand (a
    number, a negation, a parenthesized expression) tighter than both. *)
Definition level (e : expression) : Z :=
  match e with
  | add _ _ | subtract _ _ => 1
  | multiply _ _ | divide _ _ => 2
  | parentheses _ | number _ | negative _ => 3
  end.

(** An expression in which every binary node binds no tighter than its left
    operand and less tightly than its right operand, and every negation
    applies to an operand. *)
Fixpoint well_nested (e : expression) : bool :=
  match e with
  | add l r | subtract l r | multiply l r | divide l r =>
      well_nested l && well_nested r
      && (level e <=? level l) && (level e <? level r)
  | parentheses c => well_nested c
  | number _ => true
  | negative c => well_nested c && (level c =? 3)
  end.

(** After the tokens of [r], which start at [start], the range [start..end_]
    is used up, or an operator that binds no tighter than rank [k] follows. *)
Definition stops_at (tokens : list token) (start end_ : Z) (k : Z)
    (r : expression) : Prop :=
  end_ - start + 1 <= consumed_tokens r \/
  exists t op,
    Parser.tokens_at tokens (start + consumed_tokens r) = Ok t /\
    Parser.parse_operator t = Ok op /\
    priority.rank (Parser.get_priority op) <= k.

(** [parse_operand] returns the operand [e] wherever the tokens spell it. *)
Definition operand_rebuilt (tokens : list token) (e : expression) : Prop :=
  forall s end_,
    well_nested e = true -> level e = 3 -> spells tokens s e ->
    s + consumed_tokens e <= end_ + 1 ->
    Parser.parse_operand tokens s end_ = Ok e.

(** [parse_range] reaches the head of its loop with [e] as the result
    wherever the tokens spell [e]. *)
Definition loop_reached (tokens : list token) (e : expression) : Prop :=
  forall s end_ p,
    well_nested e = true -> priority.rank p < level e -> spells tokens s e ->
    s + consumed_tokens e <= end_ + 1 ->
    level e = 3 \/ stops_at tokens s end_ (level e) e ->
    Parser.parse_range tokens s end_ p
    = Parser.parse_range_loop tokens s end_ p (end_ - s + 1) e (consumed_tokens e).

(** ** Tokens moved along the formula *)

(** The token [t], [d] characters further. *)
Definition shift_token (d : Z) (t : token) : token :=
  mk_token (type t) (start_position t + d) (_value t).

(** The outcome of tokenizing a piece of text, seen from a formula in which
    the piece starts [d] characters in and the tokens [before] precede it. *)
Definition shift_outcome (d : Z) (before : list token)
    (r : outcome (list token)) : outcome (list token) :=
  match r with
  | Ok tokens => Ok (before ++ map (shift_token d) tokens)
  | ParseError position message => ParseError (position + d) message
  | BrokenParser message => BrokenParser message
  | OutOfRange => OutOfRange
  | OutOfFuel => OutOfFuel
  end.

(** [tokenize] on a list of characters. *)
Definition tokenize_characters (formula : list ascii) : outcome (list token) :=
  Lexer.tokenize (string_of_list_ascii formula).

(** The characters that [tokenize] accepts outside of numbers. *)
Definition is_symbol (c : ascii) : bool :=
  match Lexer.symbol_token c 0 [] with
  | Ok _ => true
  | _ => false
  end.

(** What the tokens of a formula are, leaving their offsets aside. *)
Definition symbol_kind (c : ascii) : list (token_type.t * option double) :=
  match Lexer.symbol_token c 0 [] with
  | Ok tokens => map erase tokens
  | _ => []
  end.

Definition kinds (formula : list ascii)
  : option (list (token_type.t * option double)) :=
  match tokenize_characters formula with
  | Ok tokens => Some (map erase tokens)
  | _ => None
  end.

(** ** Tokens and the characters they come from *)

(** The character [c] may begin a token of type [ty]. *)
Definition begins (c : ascii) (ty : token_type.t) : bool :=
  match ty with
  | token_type.number => Lexer.is_numeric c
  | token_type.opening_parenthesis => Ascii.eqb c "("
  | token_type.closing_parenthesis => Ascii.eqb c ")"
  | token_type.plus => Ascii.eqb c "+"
  | token_type.minus => Ascii.eqb c "-"
  | token_type.multiply => Ascii.eqb c "*"
  | token_type.divide => Ascii.eqb c "/"
  end.

(** The offset of [t] is the index of a character of [formula] that begins a
    token of its type. *)
Definition in_place (formula : list ascii) (t : token) : Prop :=
  0 <= start_position t /\
  exists c, nth_error formula (Z.to_nat (start_position t)) = Some c /\
            begins c (type t) = true.

(** The offsets of the tokens increase strictly. *)
Fixpoint ascending (bound : Z) (tokens : list token) : Prop :=
  match tokens with
  | [] => True
  | t :: rest => bound < start_position t /\ ascending (start_position t) rest
  end.

(** The character of [formula] at offset [position], if there is one. *)
Definition character_at (formula : list ascii) (position : Z) : option ascii :=
  if position <? 0 then None else nth_error formula (Z.to_nat position).

(** What an error of the loop of [tokenize] tells. *)
Definition failure_explained (formula : list ascii) (i : Z)
    (nt : list ascii) (ns : Z) (r : outcome (list token)) : Prop :=
  match r with
  | Ok _ => True
  | ParseError p m =>
      (m = "Number too long"%string /\
       ((nt <> [] /\ p = ns) \/
        (i <= p /\ exists c, nth_error formula (Z.to_nat (p - i)) = Some c /\
                             Lexer.is_numeric c = true)))
      \/ (m = "Unexpected symbol"%string /\ i <= p /\
          exists c, nth_error formula (Z.to_nat (p - i)) = Some c /\
                    Lexer.is_numeric c = false /\ is_symbol c = false)
  | _ => False
  end.


(** The tokens are in place, in order, and before [bound]. *)
Definition placed (full : list ascii) (bound : Z) (tokens : list token) : Prop :=
  Forall (in_place full) tokens /\ ascending (-1) tokens /\
  Forall (fun t => start_position t < bound) tokens.


(** The tokens that may begin an operand. *)
Definition begins_operand (ty : token_type.t) : bool :=
  match ty with
  | token_type.number | token_type.minus | token_type.opening_parenthesis => true
  | _ => false
  end.
(** * Properties *)

(** ** The recursion budget *)

Lemma le_res_refl {A : Type} (r : outcome A) : le_res r r.
Proof. now right. Qed.

Lemma le_res_trans {A : Type} (r1 r2 r3 : outcome A) :
  le_res r1 r2 -> le_res r2 r3 -> le_res r1 r3.
Proof. intros [-> | ->] H; [now left | exact H]. Qed.

Lemma le_res_bind {A B : Type} (r r' : outcome A) (k k' : A -> outcome B) :
  le_res r r' -> (forall a, le_res (k a) (k' a)) -> le_res (bind r k) (bind r' k').
Proof.
  intros [-> | ->] Hk; [now left|].
  destruct r'; simpl; auto using le_res_refl.
Qed.

Lemma le_res_defined {A : Type} (r r' : outcome A) :
  le_res r r' -> r <> OutOfFuel -> r' = r.
Proof. intros [-> | ->]; congruence. Qed.

Lemma bind_defined {A B : Type} (r : outcome A) (k : A -> outcome B) :
  r <> OutOfFuel -> (forall a, r = Ok a -> k a <> OutOfFuel) ->
  bind r k <> OutOfFuel.
Proof. destruct r; simpl; auto; congruence. Qed.

Lemma bind_ext_Ok {A B : Type} (r : outcome A) (k k' : A -> outcome B) :
  (forall a, r = Ok a -> k a = k' a) -> bind r k = bind r k'.
Proof. destruct r; simpl; auto. Qed.

Lemma bind_ext {A B : Type} (r : outcome A) (k k' : A -> outcome B) :
  (forall a, k a = k' a) -> bind r k = bind r k'.
Proof. intros H. apply bind_ext_Ok. auto. Qed.

Lemma bind_assoc {A B C : Type} (r : outcome A) (k : A -> outcome B)
    (k' : B -> outcome C) :
  bind (bind r k) k' = bind r (fun a => bind (k a) k').
Proof. now destruct r. Qed.

Lemma bind_Ok {A B : Type} (r : outcome A) (k : A -> outcome B) (b : B) :
  bind r k = Ok b -> exists a, r = Ok a /\ k a = Ok b.
Proof. destruct r; simpl; try discriminate. eauto. Qed.

Lemma consumed_tokens_pos e : 1 <= consumed_tokens e.
Proof. induction e; simpl; lia. Qed.

Lemma consumed_tokens_create l op r :
  consumed_tokens (Parser.create_two_operand_expression l op r)
  = consumed_tokens l + consumed_tokens r + 1.
Proof. now destruct op. Qed.

Section Fuel.

Import Parser.
Variable tokens : list token.

Lemma remaining_bounds i : 0 <= remaining tokens i <= size tokens.
Proof. unfold remaining, size. destruct (Z.ltb_spec i 0); lia. Qed.

Lemma tokens_at_Ok i t :
  tokens_at tokens i = Ok t ->
  0 <= i < size tokens /\ nth_error tokens (Z.to_nat i) = Some t.
Proof.
  unfold tokens_at, size. destruct (Z.ltb_spec i 0); [discriminate|].
  destruct (nth_error tokens (Z.to_nat i)) eqn:E; [|discriminate].
  intros [= ->]. assert (Z.to_nat i < length tokens)%nat
    by (apply nth_error_Some; congruence). split; [lia | reflexivity].
Qed.

Lemma tokens_at_remaining i t :
  tokens_at tokens i = Ok t ->
  0 <= i /\ remaining tokens i = size tokens - i /\ 1 <= remaining tokens i.
Proof.
  intros H. apply tokens_at_Ok in H. destruct H as [H _].
  unfold remaining. destruct (Z.ltb_spec i 0); lia.
Qed.

Lemma remaining_antitone i j :
  0 <= i <= j -> remaining tokens j <= remaining tokens i.
Proof.
  unfold remaining. intros H.
  destruct (Z.ltb_spec i 0), (Z.ltb_spec j 0); lia.
Qed.

Lemma tokens_at_defined i : tokens_at tokens i <> OutOfFuel.
Proof.
  unfold tokens_at. destruct (_ <? 0); [discriminate|].
  destruct (nth_error _ _); discriminate.
Qed.

Lemma find_closing_from_defined n i d :
  find_closing_from tokens n i d <> OutOfFuel.
Proof.
  revert i d. induction n as [|n IHn]; intros i d; simpl; [discriminate|].
  apply bind_defined.
  { apply tokens_at_defined. }
  intros t _. destruct (type t); auto.
  destruct (d =? 0); [discriminate|].
  destruct (d >? 0); [auto | discriminate].
Qed.

Lemma fuel_step_monotone (fuel : nat) :
  (forall s e p, le_res (parse_range_fuel tokens fuel s e p)
                        (parse_range_fuel tokens (S fuel) s e p)) /\
  (forall s e p a r c, le_res (parse_range_loop_fuel tokens fuel s e p a r c)
                              (parse_range_loop_fuel tokens (S fuel) s e p a r c)) /\
  (forall s e, le_res (parse_operand_fuel tokens fuel s e)
                      (parse_operand_fuel tokens (S fuel) s e)) /\
  (forall s e, le_res (parse_parentheses_fuel tokens fuel s e)
                      (parse_parentheses_fuel tokens (S fuel) s e)).
Proof.
  induction fuel as [|fuel (IHr & IHl & IHo & IHp)].
  - repeat split; intros; now left.
  - repeat split; intros.
    + change (le_res
        (result <- parse_operand_fuel tokens fuel s e ;;
         parse_range_loop_fuel tokens fuel s e p (e - s + 1) result
           (consumed_tokens result))
        (result <- parse_operand_fuel tokens (S fuel) s e ;;
         parse_range_loop_fuel tokens (S fuel) s e p (e - s + 1) result
           (consumed_tokens result))).
      apply le_res_bind; auto.
    + cbn [parse_range_loop_fuel].
      destruct (a >? c); [|apply le_res_refl].
      apply le_res_bind; [apply le_res_refl|]; intros t.
      apply le_res_bind; [apply le_res_refl|]; intros op.
      destruct (priority.leb _ _); [apply le_res_refl|].
      apply le_res_bind; auto.
    + cbn [parse_operand_fuel].
      apply le_res_bind; [apply le_res_refl|]; intros t.
      destruct (type t); auto using le_res_refl.
      destruct (s =? e); [apply le_res_refl|].
      apply le_res_bind; auto using le_res_refl.
    + cbn [parse_parentheses_fuel].
      apply le_res_bind; [apply le_res_refl|]; intros i.
      destruct (i =? -1); [apply le_res_refl|].
      destruct (i =? s + 1); [apply le_res_refl|].
      apply le_res_bind; auto using le_res_refl.
Qed.

Lemma fuel_monotone (fuel k : nat) :
  (forall s e p, le_res (parse_range_fuel tokens fuel s e p)
                        (parse_range_fuel tokens (k + fuel) s e p)) /\
  (forall s e p a r c, le_res (parse_range_loop_fuel tokens fuel s e p a r c)
                              (parse_range_loop_fuel tokens (k + fuel) s e p a r c)) /\
  (forall s e, le_res (parse_operand_fuel tokens fuel s e)
                      (parse_operand_fuel tokens (k + fuel) s e)) /\
  (forall s e, le_res (parse_parentheses_fuel tokens fuel s e)
                      (parse_parentheses_fuel tokens (k + fuel) s e)).
Proof.
  induction k as [|k (IHr & IHl & IHo & IHp)]; simpl.
  - repeat split; intros; apply le_res_refl.
  - destruct (fuel_step_monotone (k + fuel)) as (Sr & Sl & So & Sp).
    repeat split; intros; eapply le_res_trans; eauto.
Qed.

(** A budget of three units per remaining token is never exhausted. *)
Lemma fuel_sufficient (fuel : nat) :
  (forall s e p, 3 * remaining tokens s + 2 <= Z.of_nat fuel ->
     parse_range_fuel tokens fuel s e p <> OutOfFuel) /\
  (forall s e p a r,
     3 * remaining tokens (s + consumed_tokens r) + 1 <= Z.of_nat fuel ->
     parse_range_loop_fuel tokens fuel s e p a r (consumed_tokens r) <> OutOfFuel) /\
  (forall s e, 3 * remaining tokens s + 1 <= Z.of_nat fuel ->
     parse_operand_fuel tokens fuel s e <> OutOfFuel) /\
  (forall s e, 3 * remaining tokens (s + 1) + 3 <= Z.of_nat fuel ->
     parse_parentheses_fuel tokens fuel s e <> OutOfFuel).
Proof.
  induction fuel as [|fuel (IHr & IHl & IHo & IHp)].
  - repeat split; intros;
      match goal with H : _ <= Z.of_nat 0 |- _ =>
        pose proof (remaining_bounds s); pose proof (remaining_bounds (s + 1));
        try pose proof (remaining_bounds (s + consumed_tokens r)); lia
      end.
  - repeat split; intros.
    + cbn [parse_range_fuel]. apply bind_defined.
      * apply IHo. lia.
      * intros r Hr. apply IHl.
        destruct (Z.ltb_spec s 0).
        -- destruct fuel; [discriminate|]. cbn [parse_operand_fuel] in Hr.
           unfold tokens_at in Hr.
           destruct (Z.ltb_spec s 0); [discriminate | lia].
        -- pose proof (consumed_tokens_pos r).
           pose proof (remaining_antitone s (s + consumed_tokens r)).
           destruct fuel; [discriminate|]. cbn [parse_operand_fuel] in Hr.
           apply bind_Ok in Hr. destruct Hr as (t & Ht & _).
           apply tokens_at_remaining in Ht.
           pose proof (remaining_antitone (s + 1) (s + consumed_tokens r)).
           assert (remaining tokens (s + 1) = remaining tokens s - 1).
           { unfold remaining in *.
             destruct (Z.ltb_spec s 0), (Z.ltb_spec (s + 1) 0); lia. }
           lia.
    + cbn [parse_range_loop_fuel].
      destruct (a >? consumed_tokens r); [|discriminate].
      apply bind_defined.
      { apply tokens_at_defined. }
      intros t Ht. apply tokens_at_remaining in Ht.
      assert (Hnext : remaining tokens (s + (consumed_tokens r + 1))
                      = remaining tokens (s + consumed_tokens r) - 1).
      { unfold remaining in *.
        destruct (Z.ltb_spec (s + consumed_tokens r) 0),
          (Z.ltb_spec (s + (consumed_tokens r + 1)) 0); lia. }
      apply bind_defined.
      { unfold parse_operator. destruct (type t); discriminate. }
      intros op _. destruct (priority.leb _ _); [discriminate|].
      apply bind_defined.
      * apply IHr. lia.
      * intros r' _. apply IHl. rewrite consumed_tokens_create.
        pose proof (consumed_tokens_pos r').
        pose proof (remaining_antitone (s + (consumed_tokens r + 1))
                      (s + (consumed_tokens r + consumed_tokens r' + 1))).
        lia.
    + cbn [parse_operand_fuel]. apply bind_defined.
      { apply tokens_at_defined. }
      intros t Ht. apply tokens_at_remaining in Ht.
      assert (remaining tokens (s + 1) = remaining tokens s - 1).
      { unfold remaining in *.
        destruct (Z.ltb_spec s 0), (Z.ltb_spec (s + 1) 0); lia. }
      destruct (type t) eqn:Ety; try discriminate.
      * unfold value. rewrite Ety. discriminate.
      * apply IHp. lia.
      * destruct (s =? e); [discriminate|].
        apply bind_defined; [apply IHo; lia | discriminate].
    + cbn [parse_parentheses_fuel]. apply bind_defined.
      { apply find_closing_from_defined. }
      intros i _. destruct (i =? -1).
      { apply bind_defined; [apply tokens_at_defined | discriminate]. }
      destruct (i =? s + 1).
      { apply bind_defined; [apply tokens_at_defined | discriminate]. }
      apply bind_defined; [apply IHr; lia | discriminate].
Qed.

Lemma enough_spec : Z.of_nat (enough tokens) = 3 * size tokens + 3.
Proof. unfold enough, size. lia. Qed.

Lemma enough_pred :
  exists f, enough tokens = S f /\ Z.of_nat f = 3 * size tokens + 2.
Proof. exists (3 * length tokens + 2)%nat. unfold enough, size. lia. Qed.

Ltac either_order f1 f2 :=
  let k := fresh "k" in
  let E := fresh "E" in
  destruct (Nat.le_ge_cases f1 f2);
  [ assert (E : exists k, f2 = (k + f1)%nat) by (exists (f2 - f1)%nat; lia)
  | assert (E : exists k, f1 = (k + f2)%nat) by (exists (f1 - f2)%nat; lia) ];
  destruct E as [k ->].

Lemma parse_range_fuel_stable f1 f2 s e p :
  3 * remaining tokens s + 2 <= Z.of_nat f1 ->
  3 * remaining tokens s + 2 <= Z.of_nat f2 ->
  parse_range_fuel tokens f1 s e p = parse_range_fuel tokens f2 s e p.
Proof.
  intros H1 H2. either_order f1 f2.
  - symmetry. eapply le_res_defined; [apply fuel_monotone | now apply fuel_sufficient].
  - eapply le_res_defined; [apply fuel_monotone | now apply fuel_sufficient].
Qed.

Lemma parse_range_loop_fuel_stable f1 f2 s e p a r :
  3 * remaining tokens (s + consumed_tokens r) + 1 <= Z.of_nat f1 ->
  3 * remaining tokens (s + consumed_tokens r) + 1 <= Z.of_nat f2 ->
  parse_range_loop_fuel tokens f1 s e p a r (consumed_tokens r)
  = parse_range_loop_fuel tokens f2 s e p a r (consumed_tokens r).
Proof.
  intros H1 H2. either_order f1 f2.
  - symmetry. eapply le_res_defined; [apply fuel_monotone | now apply fuel_sufficient].
  - eapply le_res_defined; [apply fuel_monotone | now apply fuel_sufficient].
Qed.

Lemma parse_operand_fuel_stable f1 f2 s e :
  3 * remaining tokens s + 1 <= Z.of_nat f1 ->
  3 * remaining tokens s + 1 <= Z.of_nat f2 ->
  parse_operand_fuel tokens f1 s e = parse_operand_fuel tokens f2 s e.
Proof.
  intros H1 H2. either_order f1 f2.
  - symmetry. eapply le_res_defined; [apply fuel_monotone | now apply fuel_sufficient].
  - eapply le_res_defined; [apply fuel_monotone | now apply fuel_sufficient].
Qed.

Lemma parse_parentheses_fuel_stable f1 f2 s e :
  3 * remaining tokens (s + 1) + 3 <= Z.of_nat f1 ->
  3 * remaining tokens (s + 1) + 3 <= Z.of_nat f2 ->
  parse_parentheses_fuel tokens f1 s e = parse_parentheses_fuel tokens f2 s e.
Proof.
  intros H1 H2. either_order f1 f2.
  - symmetry. eapply le_res_defined; [apply fuel_monotone | now apply fuel_sufficient].
  - eapply le_res_defined; [apply fuel_monotone | now apply fuel_sufficient].
Qed.

(** The budget-free functions always return. *)
Lemma parse_range_defined s e p : parse_range tokens s e p <> OutOfFuel.
Proof.
  apply fuel_sufficient. pose proof (remaining_bounds s).
  pose proof enough_spec. lia.
Qed.

Lemma parse_operand_defined s e : parse_operand tokens s e <> OutOfFuel.
Proof.
  apply fuel_sufficient. pose proof (remaining_bounds s).
  pose proof enough_spec. lia.
Qed.

(** *** The budget-free functions satisfy the equations of the source *)

Lemma parse_range_eq s e p :
  parse_range tokens s e p =
  (result <- parse_operand tokens s e ;;
   parse_range_loop tokens s e p (e - s + 1) result (consumed_tokens result)).
Proof.
  unfold parse_range, parse_operand, parse_range_loop.
  pose proof enough_spec as HE. destruct enough_pred as (f & Ef & Hf).
  rewrite Ef at 1.
  cbn [parse_range_fuel].
  rewrite (parse_operand_fuel_stable f (enough tokens))
    by (pose proof (remaining_bounds s); lia).
  apply bind_ext. intros r.
  apply parse_range_loop_fuel_stable;
    pose proof (remaining_bounds (s + consumed_tokens r)); lia.
Qed.

Lemma parse_range_loop_eq s e p a r :
  parse_range_loop tokens s e p a r (consumed_tokens r) =
  if a >? consumed_tokens r then
    t <- tokens_at tokens (s + consumed_tokens r) ;;
    next_operator <- parse_operator t ;;
    if priority.leb (get_priority next_operator) p then Ok r
    else
      next_operand <-
        parse_range tokens (s + (consumed_tokens r + 1)) e
          (get_priority next_operator) ;;
      parse_range_loop tokens s e p a
        (create_two_operand_expression r next_operator next_operand)
        (consumed_tokens
           (create_two_operand_expression r next_operator next_operand))
  else Ok r.
Proof.
  unfold parse_range, parse_range_loop.
  pose proof enough_spec as HE. destruct enough_pred as (f & Ef & Hf).
  rewrite Ef at 1.
  cbn [parse_range_loop_fuel].
  destruct (a >? consumed_tokens r); [|reflexivity].
  apply bind_ext; intros t. apply bind_ext; intros op.
  destruct (priority.leb _ _); [reflexivity|].
  rewrite (parse_range_fuel_stable f (enough tokens))
    by (pose proof (remaining_bounds (s + (consumed_tokens r + 1))); lia).
  apply bind_ext; intros r'.
  apply parse_range_loop_fuel_stable;
    match goal with |- 3 * remaining tokens ?i + _ <= _ =>
      pose proof (remaining_bounds i); lia end.
Qed.

Lemma parse_operand_eq s e :
  parse_operand tokens s e =
  (first_token <- tokens_at tokens s ;;
   match type first_token with
   | token_type.opening_parenthesis => parse_parentheses tokens s e
   | token_type.minus =>
       if s =? e then ParseError (start_position first_token) "Orphan minus"
       else content <- parse_operand tokens (s + 1) e ;; Ok (negative content)
   | token_type.number => v <- value first_token ;; Ok (number v)
   | _ => ParseError (start_position first_token) "Unexpected token"
   end).
Proof.
  unfold parse_operand, parse_parentheses.
  pose proof enough_spec as HE. destruct enough_pred as (f & Ef & Hf).
  rewrite Ef at 1.
  cbn [parse_operand_fuel].
  apply bind_ext_Ok; intros t Ht. apply tokens_at_remaining in Ht.
  assert (remaining tokens (s + 1) = remaining tokens s - 1).
  { unfold remaining in *.
    destruct (Z.ltb_spec s 0), (Z.ltb_spec (s + 1) 0); lia. }
  pose proof (remaining_bounds s).
  destruct (type t); try reflexivity.
  - apply parse_parentheses_fuel_stable; lia.
  - destruct (s =? e); [reflexivity|].
    now rewrite (parse_operand_fuel_stable f (enough tokens)) by lia.
Qed.

Lemma parse_parentheses_eq s e :
  parse_parentheses tokens s e =
  (closing_parenthesis_index <- find_closing_parenthesis tokens (s + 1) e ;;
   if closing_parenthesis_index =? -1 then
     t <- tokens_at tokens s ;;
     ParseError (start_position t) "Unclosed parenthesis"
   else if closing_parenthesis_index =? s + 1 then
     t <- tokens_at tokens s ;;
     ParseError (start_position t) "Empty parentheses"
   else
     content <-
       parse_range tokens (s + 1) (closing_parenthesis_index - 1)
         priority.lowest ;;
     Ok (parentheses content)).
Proof.
  unfold parse_range, parse_parentheses.
  pose proof enough_spec as HE. destruct enough_pred as (f & Ef & Hf).
  rewrite Ef at 1.
  cbn [parse_parentheses_fuel].
  apply bind_ext; intros i.
  destruct (i =? -1); [reflexivity|]. destruct (i =? s + 1); [reflexivity|].
  now rewrite (parse_range_fuel_stable f (enough tokens))
    by (pose proof (remaining_bounds (s + 1)); lia).
Qed.

End Fuel.

(** ** The tokenizer *)

Section LexerFacts.

Import Lexer.

(** While the literal buffer is empty, the remembered start offset is dead. *)
Lemma tokenize_from_number_start formula : forall i tokens ns ns',
  tokenize_from formula i tokens [] ns = tokenize_from formula i tokens [] ns'.
Proof.
  induction formula as [|c rest IH]; intros i tokens ns ns'; [reflexivity|].
  cbn [tokenize_from]. destruct (is_numeric c); [reflexivity|].
  apply bind_ext. intros tokens'. apply IH.
Qed.

Lemma tokenize_from_numeric_run buf : forall rest i tokens nt ns,
  buf <> [] ->
  forallb is_numeric buf = true ->
  is_numeric (hd " "%char rest) = false ->
  tokenize_from (buf ++ rest) i tokens nt ns =
  let ns' := match nt with [] => i | _ => ns end in
  (value <- parse_number (nt ++ buf) ns' ;;
   tokenize_from rest (i + Z.of_nat (length buf))
     (tokens ++ [mk_token token_type.number ns' value]) [] ns').
Proof.
  induction buf as [|c buf IH]; intros rest i tokens nt ns Hne Hall Hrest;
    [congruence|].
  cbn [forallb] in Hall. apply andb_true_iff in Hall. destruct Hall as [Hc Hall].
  cbn [app tokenize_from]. rewrite Hc.
  destruct buf as [|c' buf].
  - cbn [app length]. destruct rest as [|r rest].
    + apply bind_ext. intros v. reflexivity.
    + cbn [hd] in Hrest. 
      assert (Hnt : nt ++ [c] <> []) by (destruct nt; discriminate).
      cbn [tokenize_from]. rewrite Hrest.
      destruct (nt ++ [c]) as [|x l] eqn:E; [congruence|]. rewrite <- E.
      cbn zeta.
      replace (i + Z.of_nat 1) with (i + 1) by lia.
      reflexivity.
  - cbn [app]. change (c' :: buf ++ rest) with ((c' :: buf) ++ rest).
    rewrite IH by (assumption || discriminate).
    assert (Hnt : nt ++ [c] <> []) by (destruct nt; discriminate).
    destruct (nt ++ [c]) as [|x l] eqn:E; [congruence|]. rewrite <- E.
    cbn zeta. rewrite <- app_assoc. cbn [app].
    replace (i + 1 + Z.of_nat (length (c' :: buf)))
      with (i + Z.of_nat (length (c :: c' :: buf))) by (cbn [length]; lia).
    reflexivity.
Qed.

Lemma tokenize_from_prefix pre : forall more i tokens nt ns ns',
  is_numeric (last pre " "%char) = false ->
  (pre = [] -> nt = []) ->
  tokenize_from (pre ++ more) i tokens nt ns =
  (tokens' <- tokenize_from pre i tokens nt ns ;;
   tokenize_from more (i + Z.of_nat (length pre)) tokens' [] ns').
Proof.
  induction pre as [|c pre IH]; intros more i tokens nt ns ns' Hlast Hnt.
  - rewrite (Hnt eq_refl). cbn [app tokenize_from bind length].
    replace (i + Z.of_nat 0) with i by lia. apply tokenize_from_number_start.
  - assert (Hlast' : is_numeric (last pre " "%char) = false).
    { destruct pre; [reflexivity | exact Hlast]. }
    replace (i + Z.of_nat (length (c :: pre)))
      with (i + 1 + Z.of_nat (length pre)) by (cbn [length]; lia).
    cbn [app tokenize_from]. destruct (is_numeric c) eqn:Hc.
    + destruct pre as [|c' pre]; [cbn [last] in Hlast; congruence|].
      cbn [app]. change (c' :: pre ++ more) with ((c' :: pre) ++ more).
      apply IH; [assumption | discriminate].
    + destruct nt as [|n nt].
      * rewrite bind_assoc. apply bind_ext. intros tokens'.
        apply IH; [assumption | reflexivity].
      * rewrite bind_assoc. apply bind_ext. intros v.
        rewrite bind_assoc. apply bind_ext. intros tokens'.
        apply IH; [assumption | reflexivity].
Qed.

Lemma list_ascii_of_string_of_list l :
  list_ascii_of_string (string_of_list_ascii l) = l.
Proof. apply list_ascii_of_string_of_list_ascii. Qed.

Lemma parse_number_spec number number_start :
  parse_number number number_start =
  if (snd (strtod number) =? Z.of_nat (length number))
     && Double.isnormal (fst (strtod number))
  then Ok (fst (strtod number))
  else ParseError number_start "Number too long".
Proof.
  unfold parse_number. destruct (strtod number) as [v n]. cbn [fst snd].
  destruct (n =? _), (Double.isnormal v); reflexivity.
Qed.

Lemma isnormal_false_iff v :
  Double.isnormal v = false <->
  Double.is_zero v || Double.is_subnormal v || Double.is_infinite v
    || Double.is_nan v = true.
Proof.
  unfold Double.isnormal, Double.is_subnormal, SFclassify.
  destruct v as [[]|[]| |[] m e];
    try destruct (Z.pos (digits2_pos m) =? Double.prec);
    cbv [Double.is_zero Double.is_infinite Double.is_nan orb];
    split; intros H; try reflexivity; discriminate H.
Qed.

Lemma tokenize_closes_buffer pre c buf rest tokens :
  tokenize (string_of_list_ascii pre) = Ok tokens ->
  is_numeric (last pre " "%char) = false ->
  forallb is_numeric (c :: buf) = true ->
  is_numeric (hd " "%char rest) = false ->
  tokenize (string_of_list_ascii (pre ++ (c :: buf) ++ rest)) =
  (value <- parse_number (c :: buf) (Z.of_nat (length pre)) ;;
   tokenize_from rest (Z.of_nat (length pre) + Z.of_nat (length (c :: buf)))
     (tokens ++ [mk_token token_type.number (Z.of_nat (length pre)) value]) [] 0).
Proof.
  unfold tokenize. rewrite !list_ascii_of_string_of_list.
  intros Hpre Hlast Hall Hrest.
  rewrite (tokenize_from_prefix pre _ 0 [] [] 0 0) by auto.
  rewrite Hpre. cbn [bind].
  rewrite tokenize_from_numeric_run by (assumption || discriminate).
  cbn zeta. cbn [app Z.add]. apply bind_ext. intros v.
  apply tokenize_from_number_start.
Qed.

Lemma tokenize_from_spaces l : forall i ns,
  forallb (Ascii.eqb " ") l = true -> tokenize_from l i [] [] ns = Ok [].
Proof.
  induction l as [|c l IH]; intros i ns H; [reflexivity|].
  cbn [forallb] in H. apply andb_true_iff in H. destruct H as [Hc H].
  apply Ascii.eqb_eq in Hc. subst c. cbn. now apply IH.
Qed.

Lemma digit_cases d :
  is_digit d = true ->
  In d ["0"; "1"; "2"; "3"; "4"; "5"; "6"; "7"; "8"; "9"]%char.
Proof.
  destruct d as [[] [] [] [] [] [] [] []]; cbv [is_digit]; cbn;
    intros H; try discriminate H; tauto.
Qed.

End LexerFacts.

(** ** Matching parentheses *)

Section Matching.
Import Parser.
Variable tokens : list token.

Lemma nesting_app l l' : nesting (l ++ l') = nesting l + nesting l'.
Proof. induction l as [|t l IH]; cbn [app nesting fold_right]; [reflexivity|].
  fold (nesting (l ++ l')). fold (nesting l). lia. Qed.

Lemma firstn_S_nth_error {A : Type} (l : list A) n x :
  nth_error l n = Some x -> firstn (S n) l = firstn n l ++ [x].
Proof.
  revert l. induction n as [|n IH]; intros [|y l] H; try discriminate.
  - now injection H as ->.
  - cbn [nth_error] in H.
    change (y :: firstn (S n) l = y :: firstn n l ++ [x]).
    now rewrite (IH l H).
Qed.

Lemma nth_error_skipn {A : Type} (l : list A) a b :
  nth_error (skipn a l) b = nth_error l (a + b).
Proof.
  revert l. induction a as [|a IH]; intros l; [reflexivity|].
  destruct l as [|x l]; [now destruct b|]. cbn [skipn Nat.add nth_error]. apply IH.
Qed.

Lemma slice_snoc s n t :
  0 <= s -> 0 <= n -> tokens_at tokens (s + n) = Ok t ->
  slice tokens s (n + 1) = slice tokens s n ++ [t].
Proof.
  intros Hs Hn Ht. apply tokens_at_Ok in Ht. destruct Ht as [_ Ht].
  unfold slice. replace (Z.to_nat (n + 1)) with (S (Z.to_nat n)) by lia.
  apply firstn_S_nth_error. rewrite nth_error_skipn.
  now replace (Z.to_nat s + Z.to_nat n)%nat with (Z.to_nat (s + n)) by lia.
Qed.

Lemma nesting_snoc s n t :
  0 <= s -> 0 <= n -> tokens_at tokens (s + n) = Ok t ->
  nesting (slice tokens s (n + 1)) = nesting (slice tokens s n) + depth_step t.
Proof.
  intros. rewrite (slice_snoc s n t) by assumption. rewrite nesting_app.
  cbn [nesting fold_right]. lia.
Qed.

Lemma tokens_at_in_range i :
  0 <= i < size tokens -> exists t, tokens_at tokens i = Ok t.
Proof.
  intros H. unfold tokens_at, size in *. destruct (Z.ltb_spec i 0); [lia|].
  destruct (nth_error tokens (Z.to_nat i)) eqn:E; [eauto|].
  apply nth_error_None in E. lia.
Qed.

(** The loop of [find_closing_parenthesis] under its invariant: [depth] is
    the nesting of the tokens already visited, and no visited closing
    parenthesis was met at depth zero. *)
Lemma find_closing_from_spec s steps : forall i depth,
  0 <= s <= i ->
  i + Z.of_nat steps <= size tokens ->
  depth = nesting (slice tokens s (i - s)) ->
  0 <= depth ->
  (forall j, s <= j < i -> closing_at tokens j ->
             0 < nesting (slice tokens s (j - s))) ->
  exists r, find_closing_from tokens steps i depth = Ok r /\
    ((r = -1 /\ forall j, s <= j < i + Z.of_nat steps -> closing_at tokens j ->
                          0 < nesting (slice tokens s (j - s)))
     \/ (i <= r < i + Z.of_nat steps /\ matching_close tokens s r)).
Proof.
  induction steps as [|steps IH]; intros i depth Hs Hsz Hd Hpos Hprev.
  - exists (-1). split; [reflexivity|]. left. split; [reflexivity|].
    intros j Hj. apply Hprev. lia.
  - cbn [find_closing_from].
    destruct (tokens_at_in_range i) as [t Ht]; [lia|]. rewrite Ht. cbn [bind].
    assert (Hnext : nesting (slice tokens s (i + 1 - s)) = depth + depth_step t).
    { replace (i + 1 - s) with ((i - s) + 1) by lia. subst depth.
      apply nesting_snoc; try lia. now replace (s + (i - s)) with i by lia. }
    assert (Hstep :
      forall d', d' = depth + depth_step t -> 0 <= d' ->
        (type t = token_type.closing_parenthesis -> 0 < depth) ->
        exists r, find_closing_from tokens steps (i + 1) d' = Ok r /\
          ((r = -1 /\ forall j, s <= j < i + Z.of_nat (S steps) ->
              closing_at tokens j -> 0 < nesting (slice tokens s (j - s)))
           \/ (i <= r < i + Z.of_nat (S steps) /\ matching_close tokens s r))).
    { intros d' Hd' Hd'pos Hclose.
      destruct (IH (i + 1) d') as (r & Hr & Hcases); try lia.
      - intros j Hj Hcj. destruct (Z.eq_dec j i) as [->|]; [|apply Hprev; auto; lia].
        destruct Hcj as (t' & Ht' & Hty). rewrite Ht in Ht'. injection Ht' as <-.
        specialize (Hclose Hty). lia.
      - exists r. split; [exact Hr|]. destruct Hcases as [[-> H]|[H1 H2]].
        + left. split; [reflexivity|]. intros j Hj. apply H. lia.
        + right. split; [lia | exact H2]. }
    unfold depth_step in Hstep, Hnext.
    destruct (type t) eqn:Ety; try (apply Hstep; [lia | lia | discriminate]).
    destruct (Z.eqb_spec depth 0) as [Hz|Hnz].
    + exists i. split; [reflexivity|]. right. split; [lia|].
      repeat split; try lia; eauto. exists t. auto.
    + destruct (Z.gtb_spec depth 0); [|lia].
      replace (depth - 1) with (depth + -1) by lia. apply Hstep; try lia.
Qed.

Lemma find_closing_parenthesis_spec s e :
  0 <= s -> e < size tokens ->
  exists r, find_closing_parenthesis tokens s e = Ok r /\
    ((r = -1 /\ forall j, s <= j <= e -> ~ matching_close tokens s j)
     \/ (s <= r <= e /\ matching_close tokens s r)).
Proof.
  intros Hs He. unfold find_closing_parenthesis.
  destruct (Z.le_gt_cases (e - s + 1) 0) as [Hempty|Hne].
  { replace (Z.to_nat (e - s + 1)) with O by lia. exists (-1).
    split; [reflexivity|]. left. split; [reflexivity|]. intros j Hj. lia. }
  destruct (find_closing_from_spec s (Z.to_nat (e - s + 1)) s 0)
    as (r & Hr & Hcases); try lia.
  - replace (s - s) with 0 by lia. reflexivity.
  - exists r. split; [exact Hr|]. destruct Hcases as [[-> H]|[H1 H2]].
    + left. split; [reflexivity|]. intros j Hj (_ & Hc & Hn & _).
      apply H in Hc; lia.
    + right. split; [lia | exact H2].
Qed.

Lemma matching_close_unique s i j :
  matching_close tokens s i -> matching_close tokens s j -> i = j.
Proof.
  intros (Hi & Hci & Hni & Hmi) (Hj & Hcj & Hnj & Hmj).
  destruct (Z.lt_trichotomy i j) as [H|[H|H]]; [|exact H|].
  - specialize (Hmj i (conj Hi H) Hci). lia.
  - specialize (Hmi j (conj Hj H) Hcj). lia.
Qed.

End Matching.

(** ** Token consumption *)

Section Consumption.
Import Parser.
Variable tokens : list token.

Lemma yield_length e : Z.of_nat (length (yield e)) = consumed_tokens e.
Proof.
  induction e; cbn [yield consumed_tokens length];
    rewrite ?length_app; cbn [length]; lia.
Qed.

Lemma slice_split s a b :
  0 <= s -> 0 <= a -> 0 <= b ->
  slice tokens s (a + b) = slice tokens s a ++ slice tokens (s + a) b.
Proof.
  intros Hs Ha Hb. unfold slice.
  replace (Z.to_nat (a + b)) with (Z.to_nat a + Z.to_nat b)%nat by lia.
  replace (Z.to_nat (s + a)) with (Z.to_nat a + Z.to_nat s)%nat by lia.
  rewrite <- skipn_skipn. generalize (skipn (Z.to_nat s) tokens). intros l.
  rewrite <- (firstn_skipn (Z.to_nat a) l) at 1.
  rewrite firstn_app.
  destruct (Nat.le_gt_cases (Z.to_nat a) (length l)) as [Hle|Hgt].
  - rewrite length_firstn, Nat.min_l by exact Hle.
    replace (Z.to_nat a + Z.to_nat b - Z.to_nat a)%nat with (Z.to_nat b) by lia.
    f_equal. rewrite firstn_firstn. f_equal. lia.
  - rewrite (skipn_all2 l) by lia. rewrite !firstn_nil, !app_nil_r.
    rewrite firstn_firstn. f_equal. lia.
Qed.

Lemma slice_one s t : tokens_at tokens s = Ok t -> slice tokens s 1 = [t].
Proof.
  intros H. apply tokens_at_Ok in H. destruct H as [Hs H].
  unfold slice. change (Z.to_nat 1) with 1%nat.
  rewrite <- (firstn_skipn (Z.to_nat s) tokens) in H.
  assert (Hlen : length (firstn (Z.to_nat s) tokens) = Z.to_nat s).
  { rewrite length_firstn. unfold size in Hs. lia. }
  rewrite nth_error_app2 in H by lia. rewrite Hlen, Nat.sub_diag in H.
  destruct (skipn (Z.to_nat s) tokens); [discriminate|].
  now injection H as ->.
Qed.

Lemma spells_number s t :
  tokens_at tokens s = Ok t -> type t = token_type.number ->
  spells tokens s (number (_value t)).
Proof.
  intros Ht Hty. split; [apply tokens_at_Ok in Ht; lia|].
  cbn [consumed_tokens yield]. rewrite (slice_one s t Ht).
  cbn [map]. unfold erase. now rewrite Hty.
Qed.

Lemma spells_cons s t c ty :
  tokens_at tokens s = Ok t -> type t = ty -> ty <> token_type.number ->
  spells tokens (s + 1) c ->
  0 <= s /\
  map erase (slice tokens s (1 + consumed_tokens c)) = symbol ty :: yield c.
Proof.
  intros Ht Hty Hne [_ Hc]. pose proof (consumed_tokens_pos c).
  assert (0 <= s) by (apply tokens_at_Ok in Ht; lia). split; [assumption|].
  rewrite slice_split by lia. rewrite (slice_one s t Ht).
  cbn [app map]. rewrite Hc. f_equal. unfold erase, symbol. rewrite Hty.
  now destruct ty.
Qed.

Lemma spells_negative s t c :
  tokens_at tokens s = Ok t -> type t = token_type.minus ->
  spells tokens (s + 1) c -> spells tokens s (negative c).
Proof.
  intros Ht Hty Hc. unfold spells. cbn [consumed_tokens yield].
  replace (consumed_tokens c + 1) with (1 + consumed_tokens c) by lia.
  now apply (spells_cons s t c).
Qed.

Lemma spells_parentheses s t c t' :
  tokens_at tokens s = Ok t -> type t = token_type.opening_parenthesis ->
  spells tokens (s + 1) c ->
  tokens_at tokens (s + 1 + consumed_tokens c) = Ok t' ->
  type t' = token_type.closing_parenthesis ->
  spells tokens s (parentheses c).
Proof.
  intros Ht Hty Hc Ht' Hty'. pose proof (consumed_tokens_pos c).
  destruct (spells_cons s t c _ Ht Hty ltac:(discriminate) Hc) as [Hs Hsc].
  split; [assumption|]. cbn [consumed_tokens yield].
  replace (consumed_tokens c + 2) with ((1 + consumed_tokens c) + 1) by lia.
  rewrite slice_split by lia. rewrite map_app, Hsc.
  replace (s + (1 + consumed_tokens c)) with (s + 1 + consumed_tokens c) by lia.
  rewrite (slice_one _ t' Ht'). cbn [map app]. unfold erase, symbol.
  now rewrite Hty'.
Qed.

Lemma spells_binary s l t op r :
  spells tokens s l ->
  tokens_at tokens (s + consumed_tokens l) = Ok t ->
  parse_operator t = Ok op ->
  spells tokens (s + (consumed_tokens l + 1)) r ->
  spells tokens s (create_two_operand_expression l op r).
Proof.
  intros [Hs Hl] Ht Hop Hr.
  pose proof (consumed_tokens_pos l). pose proof (consumed_tokens_pos r).
  split; [assumption|]. rewrite consumed_tokens_create.
  replace (consumed_tokens l + consumed_tokens r + 1)
    with (consumed_tokens l + (1 + consumed_tokens r)) by lia.
  rewrite slice_split by lia. rewrite map_app, Hl.
  replace (s + (consumed_tokens l + 1)) with (s + consumed_tokens l + 1) in Hr by lia.
  unfold parse_operator in Hop.
  destruct (type t) eqn:Hty; try discriminate; injection Hop as <-;
    cbn [create_two_operand_expression yield]; f_equal;
    eapply spells_cons; eauto; discriminate.
Qed.


Lemma find_closing_from_found steps : forall i d r,
  find_closing_from tokens steps i d = Ok r ->
  r = -1 \/ (i <= r < i + Z.of_nat steps /\ closing_at tokens r).
Proof.
  induction steps as [|steps IH]; intros i d r H; cbn [find_closing_from] in H.
  - injection H as <-. now left.
  - apply bind_Ok in H. destruct H as (t & Ht & H).
    assert (Hnext : forall d', find_closing_from tokens steps (i + 1) d' = Ok r ->
              r = -1 \/ (i <= r < i + Z.of_nat (S steps) /\ closing_at tokens r)).
    { intros d' H'. apply IH in H'. destruct H' as [->|[? ?]]; [now left|].
      right. split; [lia | assumption]. }
    destruct (type t) eqn:Hty; eauto.
    destruct (d =? 0).
    + injection H as <-. right. split; [lia|]. exists t. auto.
    + destruct (d >? 0); [eauto | discriminate].
Qed.

Lemma find_closing_parenthesis_found s e r :
  find_closing_parenthesis tokens s e = Ok r ->
  r = -1 \/ (s <= r <= e /\ closing_at tokens r).
Proof.
  unfold find_closing_parenthesis. intros H.
  apply find_closing_from_found in H. destruct H as [->|[H1 H2]]; [now left|].
  right. split; [lia | assumption].
Qed.

Lemma priority_above_lowest op : priority.leb (get_priority op) priority.lowest = false.
Proof. now destruct op. Qed.

(** A parse never consumes more than its range, when the range is
    delimited. *)
Lemma consumed_within_range (fuel : nat) :
  (forall s e p r, s <= e + 1 -> delimited tokens e ->
     parse_range_fuel tokens fuel s e p = Ok r ->
     consumed_tokens r <= e - s + 1) /\
  (forall s e p r0 r, delimited tokens e ->
     consumed_tokens r0 <= e - s + 1 ->
     parse_range_loop_fuel tokens fuel s e p (e - s + 1) r0 (consumed_tokens r0)
       = Ok r ->
     consumed_tokens r <= e - s + 1) /\
  (forall s e r, s <= e + 1 -> delimited tokens e ->
     parse_operand_fuel tokens fuel s e = Ok r ->
     consumed_tokens r <= e - s + 1) /\
  (forall s e r, delimited tokens e ->
     parse_parentheses_fuel tokens fuel s e = Ok r ->
     consumed_tokens r <= e - s + 1).
Proof.
  induction fuel as [|fuel (IHr & IHl & IHo & IHp)].
  - repeat split; intros; discriminate.
  - repeat split.
    + intros s e p r Hs Hd H. cbn [parse_range_fuel] in H.
      apply bind_Ok in H. destruct H as (r0 & H0 & H). eauto.
    + intros s e p r0 r Hd H0 H. cbn [parse_range_loop_fuel] in H.
      destruct (Z.gtb_spec (e - s + 1) (consumed_tokens r0)) as [Hgt|Hle];
        [|injection H as <-; assumption].
      apply bind_Ok in H. destruct H as (t & Ht & H).
      apply bind_Ok in H. destruct H as (op & Hop & H).
      destruct (priority.leb _ _); [injection H as <-; assumption|].
      apply bind_Ok in H. destruct H as (r' & Hr' & H).
      apply IHl in H; [assumption | assumption |].
      rewrite consumed_tokens_create.
      apply IHr in Hr'; [lia | lia | assumption].
    + intros s e r Hs Hd H. cbn [parse_operand_fuel] in H.
      apply bind_Ok in H. destruct H as (t & Ht & H).
      assert (Hlt : s <= e).
      { destruct (Z.eq_dec s (e + 1)) as [->|]; [|lia].
        apply Hd in Ht. rewrite Ht in H. discriminate. }
      destruct (type t) eqn:Hty; try discriminate.
      * apply bind_Ok in H. destruct H as (v & _ & H). injection H as <-.
        cbn [consumed_tokens]. lia.
      * pose proof (IHp _ _ _ Hd H). lia.
      * destruct (Z.eqb_spec s e); [discriminate|].
        apply bind_Ok in H. destruct H as (c & Hc & H). injection H as <-.
        apply IHo in Hc; [|lia|assumption]. cbn [consumed_tokens]. lia.
    + intros s e r Hd H. cbn [parse_parentheses_fuel] in H.
      apply bind_Ok in H. destruct H as (i & Hi & H).
      destruct (Z.eqb_spec i (-1)).
      { destruct (tokens_at tokens s); discriminate. }
      destruct (Z.eqb_spec i (s + 1)).
      { destruct (tokens_at tokens s); discriminate. }
      apply bind_Ok in H. destruct H as (c & Hc & H). injection H as <-.
      apply find_closing_parenthesis_found in Hi.
      destruct Hi as [?|[Hrange (t & Ht & Hty)]]; [contradiction|].
      apply IHr in Hc.
      * cbn [consumed_tokens]. lia.
      * lia.
      * intros t' Ht'. replace (i - 1 + 1) with i in Ht' by lia. congruence.
Qed.

(** At the lowest priority the loop only stops when the range is used up. *)
Lemma lowest_uses_range (fuel : nat) : forall s e a r0 r,
  parse_range_loop_fuel tokens fuel s e priority.lowest a r0 (consumed_tokens r0)
    = Ok r ->
  a <= consumed_tokens r.
Proof.
  induction fuel as [|fuel IH]; intros s e a r0 r H; [discriminate|].
  cbn [parse_range_loop_fuel] in H.
  destruct (Z.gtb_spec a (consumed_tokens r0)) as [Hgt|Hle];
    [|injection H as <-; assumption].
  apply bind_Ok in H. destruct H as (t & Ht & H).
  apply bind_Ok in H. destruct H as (op & Hop & H).
  rewrite priority_above_lowest in H.
  apply bind_Ok in H. destruct H as (r' & Hr' & H). eauto.
Qed.

Lemma lowest_range_exact fuel s e r :
  s <= e + 1 -> delimited tokens e ->
  parse_range_fuel tokens fuel s e priority.lowest = Ok r ->
  consumed_tokens r = e - s + 1.
Proof.
  intros Hs Hd H. apply Z.le_antisymm.
  - exact (proj1 (consumed_within_range fuel) s e _ r Hs Hd H).
  - destruct fuel; [discriminate|]. cbn [parse_range_fuel] in H.
    apply bind_Ok in H. destruct H as (r0 & _ & H).
    eapply lowest_uses_range; eauto.
Qed.

(** Every parsed expression is spelled by the tokens it reports as
    consumed. *)
Lemma parse_spells (fuel : nat) :
  (forall s e p r,
     parse_range_fuel tokens fuel s e p = Ok r -> spells tokens s r) /\
  (forall s e p a r0 r, spells tokens s r0 ->
     parse_range_loop_fuel tokens fuel s e p a r0 (consumed_tokens r0) = Ok r ->
     spells tokens s r) /\
  (forall s e r,
     parse_operand_fuel tokens fuel s e = Ok r -> spells tokens s r) /\
  (forall s e t r,
     tokens_at tokens s = Ok t -> type t = token_type.opening_parenthesis ->
     parse_parentheses_fuel tokens fuel s e = Ok r -> spells tokens s r).
Proof.
  induction fuel as [|fuel (IHr & IHl & IHo & IHp)].
  - split; [|split; [|split]]; intros; discriminate.
  - split; [|split; [|split]].
    + intros s e p r H. cbn [parse_range_fuel] in H.
      apply bind_Ok in H. destruct H as (r0 & H0 & H). eauto.
    + intros s e p a r0 r H0 H. cbn [parse_range_loop_fuel] in H.
      destruct (a >? consumed_tokens r0); [|injection H as <-; assumption].
      apply bind_Ok in H. destruct H as (t & Ht & H).
      apply bind_Ok in H. destruct H as (op & Hop & H).
      destruct (priority.leb _ _); [injection H as <-; assumption|].
      apply bind_Ok in H. destruct H as (r' & Hr' & H).
      apply IHl in H; [assumption|].
      eapply spells_binary; eauto.
    + intros s e r H. cbn [parse_operand_fuel] in H.
      apply bind_Ok in H. destruct H as (t & Ht & H).
      destruct (type t) eqn:Hty; try discriminate.
      * unfold value in H. rewrite Hty in H. cbn [bind] in H.
        injection H as <-. now apply spells_number.
      * eauto.
      * destruct (s =? e); [discriminate|].
        apply bind_Ok in H. destruct H as (c & Hc & H). injection H as <-.
        eapply spells_negative; eauto.
    + intros s e t r Ht Hty H. cbn [parse_parentheses_fuel] in H.
      apply bind_Ok in H. destruct H as (i & Hi & H).
      destruct (Z.eqb_spec i (-1)).
      { rewrite Ht in H. discriminate. }
      destruct (Z.eqb_spec i (s + 1)).
      { rewrite Ht in H. discriminate. }
      apply bind_Ok in H. destruct H as (c & Hc & H). injection H as <-.
      apply find_closing_parenthesis_found in Hi.
      destruct Hi as [?|[Hrange (t' & Ht' & Hty')]]; [contradiction|].
      assert (Hex : consumed_tokens c = i - 1 - (s + 1) + 1).
      { eapply lowest_range_exact; eauto; [lia|].
        intros t'' Ht''. replace (i - 1 + 1) with i in Ht'' by lia. congruence. }
      eapply spells_parentheses; eauto.
      now replace (s + 1 + consumed_tokens c) with i by lia.
Qed.

Lemma spells_in_range s r :
  spells tokens s r -> 0 <= s /\ s + consumed_tokens r <= size tokens.
Proof.
  intros [Hs H]. split; [assumption|].
  apply (f_equal (@length _)) in H. rewrite length_map in H.
  pose proof (yield_length r). pose proof (consumed_tokens_pos r).
  unfold slice in H. rewrite length_firstn, length_skipn in H.
  unfold size. lia.
Qed.

Lemma delimited_last : delimited tokens (size tokens - 1).
Proof.
  intros t Ht. apply tokens_at_Ok in Ht. lia.
Qed.

Lemma slice_all : slice tokens 0 (size tokens) = tokens.
Proof.
  unfold slice, size. cbn [Z.to_nat skipn]. rewrite Nat2Z.id. apply firstn_all.
Qed.

Lemma parse_tokens_spells r :
  parse_tokens tokens = Ok r ->
  consumed_tokens r = size tokens /\ map erase tokens = yield r.
Proof.
  unfold parse_tokens. destruct tokens as [|t0 l] eqn:E; [discriminate|].
  rewrite <- E. unfold parse_range. intros H.
  assert (Hc : consumed_tokens r = size tokens).
  { apply lowest_range_exact in H;
      [lia | unfold size; lia | apply delimited_last]. }
  split; [exact Hc|].
  apply (proj1 (parse_spells _)) in H. destruct H as [_ H].
  now rewrite Hc, slice_all in H.
Qed.

End Consumption.

(** ** Precedence climbing on flat formulas *)

Section Climbing.
Import Parser.
Variable tokens : list token.

Lemma skipn_cons_nth_error {A : Type} (l : list A) n x tl :
  skipn n l = x :: tl -> nth_error l n = Some x /\ skipn (S n) l = tl.
Proof.
  revert l. induction n as [|n IH]; intros l H.
  - cbn [skipn] in H. subst l. now split.
  - destruct l as [|y l]; [discriminate|]. cbn [skipn] in H.
    apply IH in H. exact H.
Qed.

Lemma tokens_at_skipn k t tl :
  0 <= k -> skipn (Z.to_nat k) tokens = t :: tl ->
  tokens_at tokens k = Ok t /\ skipn (Z.to_nat (k + 1)) tokens = tl.
Proof.
  intros Hk H. apply skipn_cons_nth_error in H. destruct H as [H1 H2].
  unfold tokens_at. destruct (Z.ltb_spec k 0); [lia|]. rewrite H1.
  split; [reflexivity|]. now replace (Z.to_nat (k + 1)) with (S (Z.to_nat k)) by lia.
Qed.

Lemma suffix_spells_nil k : suffix_spells tokens k [] -> size tokens <= k.
Proof.
  intros [Hk H]. cbn in H. apply map_eq_nil in H.
  apply (f_equal (@length _)) in H. rewrite length_skipn in H.
  unfold size. cbn [length] in H. lia.
Qed.

Lemma suffix_spells_cons k op v rest :
  suffix_spells tokens k ((op, v) :: rest) ->
  exists t_op t_num,
    tokens_at tokens k = Ok t_op /\ parse_operator t_op = Ok op /\
    tokens_at tokens (k + 1) = Ok t_num /\
    type t_num = token_type.number /\ _value t_num = v /\
    suffix_spells tokens (k + 2) rest.
Proof.
  intros [Hk H]. cbn [flat_tokens map concat app fst snd] in H.
  destruct (skipn (Z.to_nat k) tokens) as [|t_op l] eqn:E1; [discriminate|].
  destruct l as [|t_num l]; [discriminate|].
  cbn [map] in H. injection H as Hop _ Hnum Hv Hrest.
  apply tokens_at_skipn in E1; [|assumption]. destruct E1 as [Ht1 E2].
  apply tokens_at_skipn in E2; [|lia]. destruct E2 as [Ht2 E3].
  exists t_op, t_num. rewrite Hnum in Hv. injection Hv as Hv.
  repeat split; try assumption.
  - unfold parse_operator. rewrite Hop. now destruct op.
  - lia.
  - replace (k + 2) with (k + 1 + 1) by lia. rewrite E3. exact Hrest.
Qed.

Lemma parse_operand_number s e t :
  tokens_at tokens s = Ok t -> type t = token_type.number ->
  parse_operand tokens s e = Ok (number (_value t)).
Proof.
  intros Ht Hty. rewrite parse_operand_eq, Ht. cbn [bind]. rewrite Hty.
  unfold value. now rewrite Hty.
Qed.

(** Below a [*] or [/] the right operand is the next number alone. *)
Lemma parse_range_second s t rest :
  tokens_at tokens s = Ok t -> type t = token_type.number ->
  suffix_spells tokens (s + 1) rest ->
  parse_range tokens s (last_index tokens) priority.second = Ok (number (_value t)).
Proof.
  intros Ht Hty Hrest. rewrite parse_range_eq.
  rewrite (parse_operand_number s _ t Ht Hty). cbn [bind].
  rewrite parse_range_loop_eq. cbn [consumed_tokens]. unfold last_index.
  destruct rest as [|[op v] rest].
  - apply suffix_spells_nil in Hrest.
    destruct (Z.gtb_spec (size tokens - 1 - s + 1) 1); [lia | reflexivity].
  - apply suffix_spells_cons in Hrest.
    destruct Hrest as (t_op & t_num & H1 & H2 & _).
    destruct (_ >? _); [|reflexivity].
    rewrite H1. cbn [bind]. rewrite H2. cbn [bind]. now destruct op.
Qed.

(** Below a [+] or [-] the loop folds the following [*] and [/] from the
    left and stops in front of the next [+] or [-]. *)
Lemma parse_range_loop_first rest : forall s current,
  suffix_spells tokens (s + consumed_tokens current) rest ->
  parse_range_loop tokens s (last_index tokens) priority.first (last_index tokens - s + 1)
    current (consumed_tokens current)
  = Ok (fst (terms current rest)) /\
  suffix_spells tokens (s + consumed_tokens (fst (terms current rest)))
    (after_term rest).
Proof.
  induction rest as [|[op v] rest IH]; intros s current Hrest.
  - split; [|exact Hrest]. rewrite parse_range_loop_eq. unfold last_index.
    apply suffix_spells_nil in Hrest.
    destruct (Z.gtb_spec (size tokens - 1 - s + 1) (consumed_tokens current));
      [lia | reflexivity].
  - rewrite parse_range_loop_eq.
    pose proof Hrest as Hrest0. apply suffix_spells_cons in Hrest.
    destruct Hrest as (t_op & t_num & H1 & H2 & H3 & H4 & H5 & H6).
    apply tokens_at_Ok in H1 as Hin. unfold last_index at 1.
    destruct (Z.gtb_spec (size tokens - 1 - s + 1) (consumed_tokens current));
      [|lia].
    rewrite H1. cbn [bind]. rewrite H2. cbn [bind].
    cbn [terms after_term]. destruct (is_multiplicative op) eqn:Hm.
    + replace (priority.leb (get_priority op) priority.first) with false
        by (now destruct op).
      replace (get_priority op) with priority.second by (now destruct op).
      replace (s + (consumed_tokens current + 1))
        with (s + consumed_tokens current + 1) by lia.
      rewrite (parse_range_second _ t_num rest H3 H4)
        by (now replace (s + consumed_tokens current + 1 + 1)
              with (s + consumed_tokens current + 2) by lia).
      cbn [bind]. rewrite H5. apply IH.
      rewrite consumed_tokens_create. cbn [consumed_tokens].
      now replace (s + (consumed_tokens current + 1 + 1))
        with (s + consumed_tokens current + 2) by lia.
    + replace (priority.leb (get_priority op) priority.first) with true
        by (now destruct op).
      destruct (terms (number v) rest). cbn [fst]. now split.
Qed.

Lemma parse_range_first s t rest :
  tokens_at tokens s = Ok t -> type t = token_type.number ->
  suffix_spells tokens (s + 1) rest ->
  parse_range tokens s (last_index tokens) priority.first
  = Ok (fst (terms (number (_value t)) rest)) /\
  suffix_spells tokens
    (s + consumed_tokens (fst (terms (number (_value t)) rest)))
    (after_term rest).
Proof.
  intros Ht Hty Hrest. rewrite parse_range_eq.
  rewrite (parse_operand_number s _ t Ht Hty). cbn [bind].
  now apply parse_range_loop_first.
Qed.

Lemma terms_after_term rest : forall x y,
  terms x (after_term rest) = (x, snd (terms y rest)).
Proof.
  induction rest as [|[op v] rest IH]; intros x y; [reflexivity|].
  cbn [after_term terms]. destruct (is_multiplicative op) eqn:Hm.
  - apply IH.
  - cbn [terms]. rewrite Hm. now destruct (terms (number v) rest).
Qed.

Lemma after_term_length rest : (length (after_term rest) <= length rest)%nat.
Proof.
  induction rest as [|[op v] rest IH]; cbn [after_term length]; [lia|].
  destruct (is_multiplicative op); cbn [length]; lia.
Qed.

(** At the root the loop folds terms from the left. *)
Lemma parse_range_loop_lowest n : forall rest s current,
  (length rest <= n)%nat ->
  suffix_spells tokens (s + consumed_tokens current) rest ->
  parse_range_loop tokens s (last_index tokens) priority.lowest (last_index tokens - s + 1)
    current (consumed_tokens current)
  = Ok (let (t, ts) := terms current rest in fold_terms t ts).
Proof.
  induction n as [|n IH]; intros rest s current Hlen Hrest.
  - destruct rest; [|cbn [length] in Hlen; lia].
    rewrite parse_range_loop_eq. unfold last_index.
    apply suffix_spells_nil in Hrest.
    destruct (Z.gtb_spec (size tokens - 1 - s + 1) (consumed_tokens current));
      [lia | reflexivity].
  - destruct rest as [|[op v] rest].
    { apply IH; [cbn [length]; lia | assumption]. }
    cbn [length] in Hlen. rewrite parse_range_loop_eq.
    apply suffix_spells_cons in Hrest.
    destruct Hrest as (t_op & t_num & H1 & H2 & H3 & H4 & H5 & H6).
    apply tokens_at_Ok in H1 as Hin. unfold last_index at 1.
    destruct (Z.gtb_spec (size tokens - 1 - s + 1) (consumed_tokens current));
      [|lia].
    rewrite H1. cbn [bind]. rewrite H2. cbn [bind].
    rewrite priority_above_lowest.
    replace (s + (consumed_tokens current + 1))
      with (s + consumed_tokens current + 1) by lia.
    assert (H6' : suffix_spells tokens (s + consumed_tokens current + 1 + 1) rest)
      by (now replace (s + consumed_tokens current + 1 + 1)
            with (s + consumed_tokens current + 2) by lia).
    cbn [terms]. destruct (is_multiplicative op) eqn:Hm.
    + replace (get_priority op) with priority.second by (now destruct op).
      rewrite (parse_range_second _ t_num rest H3 H4 H6').
      cbn [bind]. rewrite H5. apply IH; [lia|].
      rewrite consumed_tokens_create. cbn [consumed_tokens].
      now replace (s + (consumed_tokens current + 1 + 1))
        with (s + consumed_tokens current + 2) by lia.
    + replace (get_priority op) with priority.first by (now destruct op).
      destruct (parse_range_first _ t_num rest H3 H4 H6') as [Hr Hafter].
      rewrite Hr. cbn [bind]. rewrite H5 in *.
      rewrite (IH (after_term rest)).
      * rewrite (terms_after_term rest _ (number v)).
        destruct (terms (number v) rest) as [t ts]. reflexivity.
      * pose proof (after_term_length rest). lia.
      * rewrite consumed_tokens_create.
        now replace (s + (consumed_tokens current
                          + consumed_tokens (fst (terms (number v) rest)) + 1))
          with (s + consumed_tokens current + 1
                + consumed_tokens (fst (terms (number v) rest))) by lia.
Qed.

(** A token vector that spells a flat formula parses to its reading by
    precedence. *)
Lemma parse_tokens_flat v rest :
  map erase tokens = (token_type.number, Some v) :: flat_tokens rest ->
  parse_tokens tokens = Ok (by_precedence v rest).
Proof.
  intros H. unfold parse_tokens. destruct tokens as [|t l] eqn:E; [discriminate|].
  rewrite <- E. fold (last_index tokens).
  cbn [map] in H. injection H as Hty Hv Hrest.
  rewrite Hty in Hv. injection Hv as <-.
  assert (Ht : tokens_at tokens 0 = Ok t) by (now rewrite E).
  rewrite parse_range_eq, (parse_operand_number 0 _ t Ht Hty). cbn [bind].
  apply (parse_range_loop_lowest (length rest) rest 0 (number (_value t)));
    [lia|].
  split; [cbn; lia|]. rewrite E. exact Hrest.
Qed.

End Climbing.

(** ** Tokenizing flat formulas *)

Section FlatLexing.
Import Lexer.

Lemma tokenize_from_blanks n : forall more i tokens ns,
  tokenize_from (blanks n ++ more) i tokens [] ns
  = tokenize_from more (i + Z.of_nat n) tokens [] ns.
Proof.
  induction n as [|n IH]; intros more i tokens ns.
  - cbn [blanks repeat app]. now replace (i + Z.of_nat 0) with i by lia.
  - change (tokenize_from (blanks (S n) ++ more) i tokens [] ns)
      with (tokenize_from (blanks n ++ more) (i + 1) tokens [] ns).
    rewrite IH. f_equal. lia.
Qed.

Lemma tokenize_from_operator op more i tokens ns :
  tokenize_from (operator_symbol op :: more) i tokens [] ns
  = tokenize_from more (i + 1)
      (tokens ++ [mk_symbol (operator_token_type op) i]) [] ns.
Proof. now destruct op. Qed.

Lemma well_formed_literal_inv l :
  well_formed_literal l = true ->
  l <> [] /\ forallb is_numeric l = true /\
  forall start, parse_number l start = Ok (literal_value l).
Proof.
  unfold well_formed_literal. intros H.
  apply andb_true_iff in H. destruct H as [H Hn].
  apply andb_true_iff in H. destruct H as [Hall Hend].
  split; [|split; [exact Hall|]].
  - intros ->. discriminate Hn.
  - intros start. rewrite parse_number_spec, Hend, Hn. reflexivity.
Qed.

Lemma tokenize_from_literal l more i tokens ns :
  well_formed_literal l = true ->
  is_numeric (hd " "%char more) = false ->
  tokenize_from (l ++ more) i tokens [] ns
  = tokenize_from more (i + Z.of_nat (length l))
      (tokens ++ [mk_token token_type.number i (literal_value l)]) [] i.
Proof.
  intros Hl Hmore. apply well_formed_literal_inv in Hl.
  destruct Hl as (Hne & Hall & Hp).
  rewrite tokenize_from_numeric_run by assumption.
  cbn zeta. cbn [app]. rewrite Hp. reflexivity.
Qed.

Lemma hd_render_joined j more : is_numeric (hd " "%char (render_joined j ++ more)) = false.
Proof.
  unfold render_joined. destruct (spaces_before j); cbn; [|reflexivity].
  now destruct (joiner j).
Qed.

Lemma hd_blanks n : is_numeric (hd " "%char (blanks n)) = false.
Proof. now destruct n. Qed.

Lemma hd_flat_rest rest trail :
  is_numeric (hd " "%char (concat (map render_joined rest) ++ blanks trail)) = false.
Proof.
  destruct rest as [|j rest]; cbn [map concat app]; [apply hd_blanks|].
  rewrite <- app_assoc. apply hd_render_joined.
Qed.

Lemma tokenize_from_flat_rest trail rest : forall i tokens ns,
  forallb (fun j => well_formed_literal (literal j)) rest = true ->
  exists new,
    tokenize_from (concat (map render_joined rest) ++ blanks trail) i tokens [] ns
    = Ok (tokens ++ new) /\
    map erase new = flat_tokens (map joined_value rest).
Proof.
  induction rest as [|j rest IH]; intros i tokens ns Hall.
  - exists []. cbn [map concat app]. split; [|reflexivity].
    rewrite <- (app_nil_r (blanks trail)), tokenize_from_blanks.
    cbn [tokenize_from]. now rewrite app_nil_r.
  - cbn [forallb] in Hall. apply andb_true_iff in Hall. destruct Hall as [Hj Hall].
    cbn [map concat]. unfold render_joined at 1.
    rewrite <- !app_assoc. rewrite tokenize_from_blanks.
    cbn [app]. rewrite tokenize_from_operator.
    rewrite <- !app_assoc. rewrite tokenize_from_blanks.
    rewrite tokenize_from_literal by (assumption || apply hd_flat_rest).
    destruct (IH (i + Z.of_nat (spaces_before j) + 1 + Z.of_nat (spaces_after j)
                  + Z.of_nat (length (literal j)))
                ((tokens ++ [mk_symbol (operator_token_type (joiner j))
                               (i + Z.of_nat (spaces_before j))])
                 ++ [mk_token token_type.number
                       (i + Z.of_nat (spaces_before j) + 1 + Z.of_nat (spaces_after j))
                       (literal_value (literal j))])
                (i + Z.of_nat (spaces_before j) + 1 + Z.of_nat (spaces_after j))
                Hall) as (new & Hnew & Herase).
    rewrite Hnew. eexists. rewrite <- !app_assoc. split; [reflexivity|].
    cbn [app map]. rewrite Herase. unfold erase at 1 2. cbn [type _value].
    unfold flat_tokens. cbn [map concat app joined_value fst snd].
    unfold symbol. now destruct (joiner j).
Qed.

Lemma tokenize_flat_formula lead first rest trail :
  well_formed_literal first = true ->
  forallb (fun j => well_formed_literal (literal j)) rest = true ->
  exists tokens,
    tokenize (flat_formula lead first rest trail) = Ok tokens /\
    map erase tokens
    = (token_type.number, Some (literal_value first))
        :: flat_tokens (map joined_value rest).
Proof.
  intros Hfirst Hrest. unfold tokenize, flat_formula.
  rewrite list_ascii_of_string_of_list, tokenize_from_blanks.
  rewrite tokenize_from_literal by (assumption || apply hd_flat_rest).
  destruct (tokenize_from_flat_rest trail rest
              (0 + Z.of_nat lead + Z.of_nat (length first))
              ([] ++ [mk_token token_type.number (0 + Z.of_nat lead)
                        (literal_value first)])
              (0 + Z.of_nat lead) Hrest) as (new & Hnew & Herase).
  rewrite Hnew. eexists. split; [reflexivity|].
  cbn [app map]. now rewrite Herase.
Qed.

End FlatLexing.


(** ** Floating-point facts used by the evaluator *)

Lemma mul_minus_one_finite s m e :
  bounded Double.prec Double.emax m e = true ->
  Double.mul minus_one (S754_finite s m e) = S754_finite (negb s) m e.
Proof.
  unfold bounded, canonical_mantissa. intros H.
  apply andb_true_iff in H. destruct H as [Hc Hb].
  apply Z.eqb_eq in Hc.
  unfold Double.mul, minus_one, Double.of_Z. 
  change (binary_normalize Double.prec Double.emax (-1) 0 false)
    with (S754_finite true 4503599627370496 (-52)).
  cbn [SFmul xorb]. cbn [Pos.mul].
  unfold binary_round_aux.
  match goal with |- context [shr_fexp _ _ (Z.pos ?big) ?e' loc_Exact] =>
    assert (E1 : shr_fexp Double.prec Double.emax (Z.pos big) e' loc_Exact
                 = ({| shr_m := Z.pos m; shr_r := false; shr_s := false |}, e))
  end.
  { unfold shr_fexp. cbn [Zdigits2 digits2_pos]. rewrite !Pos2Z.inj_succ.
    match goal with |- context [fexp _ _ ?x] =>
      replace x with (Z.pos (digits2_pos m) + e) by lia end.
    rewrite Hc. replace (e - (-52 + e)) with 52 by lia.
    cbn [shr shr_record_of_loc iter_pos shr_1 orb]. f_equal. lia. }
  rewrite E1.
  cbn [shr_m loc_of_shr_record round_nearest_even shr_record_of_loc Zdigits2].
  unfold shr_fexp. cbn [Zdigits2].
  rewrite Hc, Z.sub_diag. cbn [shr shr_m shr_record_of_loc].
  rewrite Hb. now destruct s.
Qed.

Lemma mul_minus_one_opp x :
  Double.valid x = true -> Double.mul minus_one x = Double.opp x.
Proof.
  destruct x as [s|s| |s m e]; try reflexivity.
  intros H. now apply mul_minus_one_finite.
Qed.

Lemma div_by_zero x z :
  Double.is_zero z = true ->
  Double.is_infinite (Double.div x z) || Double.is_nan (Double.div x z) = true.
Proof. destruct z; try discriminate. intros _. now destruct x. Qed.

(** ** Error offsets *)

Section ErrorOffsets.
Import Lexer Parser.

Lemma Forall_below_weaken (b b' : Z) (tokens : list token) :
  b <= b' ->
  Forall (fun t => 0 <= start_position t < b) tokens ->
  Forall (fun t => 0 <= start_position t < b') tokens.
Proof.
  intros Hb H. eapply Forall_impl; [|exact H]. cbn. intros t Ht. lia.
Qed.

Lemma Forall_below_snoc (b : Z) (tokens : list token) t :
  Forall (fun t => 0 <= start_position t < b) tokens ->
  0 <= start_position t < b ->
  Forall (fun t => 0 <= start_position t < b) (tokens ++ [t]).
Proof. intros H Ht. apply Forall_app. split; [exact H | now constructor]. Qed.

Lemma symbol_token_positions c i tokens :
  0 <= i ->
  Forall (fun t => 0 <= start_position t < i) tokens ->
  positions_below (i + 1) (symbol_token c i tokens).
Proof.
  intros Hi H. unfold symbol_token.
  repeat (match goal with |- context [if ?b then _ else _] => destruct b end;
          [cbn [positions_below];
           first [ apply Forall_below_snoc;
                   [apply (Forall_below_weaken i); [lia | exact H] | cbn; lia]
                 | apply (Forall_below_weaken i); [lia | exact H] ]|]).
  cbn. lia.
Qed.

Lemma parse_number_outcome number start :
  (exists v, parse_number number start = Ok v) \/
  parse_number number start = ParseError start "Number too long".
Proof.
  rewrite parse_number_spec. destruct (_ && _); eauto.
Qed.

Lemma tokenize_from_positions formula : forall i tokens nt ns,
  0 <= i ->
  Forall (fun t => 0 <= start_position t < i) tokens ->
  (nt <> [] -> 0 <= ns < i) ->
  positions_below (i + Z.of_nat (length formula))
    (tokenize_from formula i tokens nt ns).
Proof.
  induction formula as [|c rest IH]; intros i tokens nt ns Hi Htok Hns.
  - cbn [tokenize_from positions_below length].
    apply (Forall_below_weaken i); [lia | exact Htok].
  - replace (i + Z.of_nat (length (c :: rest)))
      with (i + 1 + Z.of_nat (length rest)) by (cbn [length]; lia).
    cbn [tokenize_from]. destruct (is_numeric c).
    + assert (Hns' : 0 <= match nt with [] => i | _ :: _ => ns end < i + 1).
      { destruct nt; [lia|]. assert (0 <= ns < i) by (apply Hns; discriminate). lia. }
      destruct rest as [|c' rest].
      * destruct (parse_number_outcome (nt ++ [c])
                    match nt with [] => i | _ :: _ => ns end) as [[v ->]| ->];
          cbn [bind tokenize_from positions_below length].
        -- apply Forall_below_snoc; [|cbn; lia].
           apply (Forall_below_weaken i); [lia | exact Htok].
        -- lia.
      * apply IH; [lia | apply (Forall_below_weaken i); [lia | exact Htok] |].
        intros _. lia.
    + assert (Hstep : forall tokens0,
                Forall (fun t => 0 <= start_position t < i) tokens0 ->
                positions_below (i + 1 + Z.of_nat (length rest))
                  (tokens1 <- symbol_token c i tokens0 ;;
                   tokenize_from rest (i + 1) tokens1 [] ns)).
      { intros tokens0 H0. pose proof (symbol_token_positions c i tokens0 Hi H0) as Hs.
        destruct (symbol_token c i tokens0); cbn [bind positions_below] in *;
          try contradiction; [|lia].
        apply IH; [lia | exact Hs | congruence]. }
      destruct nt as [|n nt]; [now apply Hstep|].
      assert (0 <= ns < i) by (apply Hns; discriminate).
      destruct (parse_number_outcome (n :: nt) ns) as [[v ->]| ->];
        cbn [bind positions_below]; [|lia].
      apply Hstep. apply Forall_below_snoc; [exact Htok | cbn; lia].
Qed.

Lemma tokenize_positions formula :
  positions_below (Z.of_nat (String.length formula)) (tokenize formula).
Proof.
  unfold tokenize.
  replace (String.length formula)
    with (List.length (list_ascii_of_string formula)).
  - apply (tokenize_from_positions _ 0 [] [] 0); [lia | constructor | congruence].
  - induction formula as [|c s IH]; cbn; [reflexivity | now rewrite IH].
Qed.

Variable tokens : list token.

Lemma tokens_at_In i t : tokens_at tokens i = Ok t -> In t tokens.
Proof. intros H. apply tokens_at_Ok in H. eapply nth_error_In, H. Qed.

Lemma find_closing_from_no_error steps : forall i d position message,
  find_closing_from tokens steps i d <> ParseError position message.
Proof.
  induction steps as [|steps IH]; intros i d position message;
    cbn [find_closing_from]; [discriminate|].
  unfold tokens_at. destruct (i <? 0); [discriminate|].
  destruct (nth_error tokens (Z.to_nat i)) as [t|]; [|discriminate].
  cbn [bind]. destruct (type t); auto.
  destruct (d =? 0); [discriminate|]. destruct (d >? 0); [auto | discriminate].
Qed.

(** Every error raised by the parser carries the offset of a token. *)
Lemma parse_error_at_a_token (fuel : nat) :
  (forall s e p position message,
     parse_range_fuel tokens fuel s e p = ParseError position message ->
     at_a_token tokens position) /\
  (forall s e p a r c position message,
     parse_range_loop_fuel tokens fuel s e p a r c = ParseError position message ->
     at_a_token tokens position) /\
  (forall s e position message,
     parse_operand_fuel tokens fuel s e = ParseError position message ->
     at_a_token tokens position) /\
  (forall s e position message,
     parse_parentheses_fuel tokens fuel s e = ParseError position message ->
     at_a_token tokens position).
Proof.
  induction fuel as [|fuel (IHr & IHl & IHo & IHp)].
  - split; [|split; [|split]]; intros; discriminate.
  - split; [|split; [|split]].
    + intros s e p position message H. cbn [parse_range_fuel] in H.
      destruct (parse_operand_fuel tokens fuel s e) eqn:E; cbn [bind] in H;
        try discriminate; [eauto|].
      injection H as <- <-. eauto.
    + intros s e p a r c position message H. cbn [parse_range_loop_fuel] in H.
      destruct (a >? c); [|discriminate].
      destruct (tokens_at tokens (s + consumed_tokens r)) as [t| | | |] eqn:Et;
        cbn [bind] in H; try discriminate.
      2:{ unfold tokens_at in Et. destruct (_ <? 0); [discriminate|].
          destruct (nth_error _ _); discriminate. }
      apply tokens_at_In in Et.
      unfold parse_operator in H.
      destruct (type t); cbn [bind] in H;
        try (injection H as <- <-; exists t; now split);
        (destruct (priority.leb _ _); [discriminate|];
         match type of H with
         | bind ?x _ = _ => destruct x eqn:E; cbn [bind] in H; try discriminate;
                            [eauto | injection H as <- <-; eauto]
         end).
    + intros s e position message H. cbn [parse_operand_fuel] in H.
      destruct (tokens_at tokens s) as [t| | | |] eqn:Et;
        cbn [bind] in H; try discriminate.
      2:{ unfold tokens_at in Et. destruct (_ <? 0); [discriminate|].
          destruct (nth_error _ _); discriminate. }
      apply tokens_at_In in Et.
      destruct (type t) eqn:Hty;
        try (injection H as <- <-; exists t; now split).
      * unfold value in H. rewrite Hty in H. discriminate.
      * eauto.
      * destruct (s =? e); [injection H as <- <-; exists t; now split|].
        destruct (parse_operand_fuel tokens fuel (s + 1) e) eqn:E;
          cbn [bind] in H; try discriminate. injection H as <- <-. eauto.
    + intros s e position message H. cbn [parse_parentheses_fuel] in H.
      destruct (find_closing_parenthesis tokens (s + 1) e) as [i| | | |] eqn:Ei;
        cbn [bind] in H; try discriminate.
      2:{ exfalso. eapply find_closing_from_no_error. exact Ei. }
      assert (Hat : forall m,
                (t <- tokens_at tokens s ;; ParseError (start_position t) m)
                = (ParseError position message : outcome expression) ->
                at_a_token tokens position).
      { intros m Hm. destruct (tokens_at tokens s) as [t| | | |] eqn:Et;
          cbn [bind] in Hm; try discriminate.
        - injection Hm as <- <-. exists t. split; [eapply tokens_at_In|]; eauto.
        - unfold tokens_at in Et. destruct (_ <? 0); [discriminate|].
          destruct (nth_error _ _); discriminate. }
      destruct (i =? -1); [eauto|]. destruct (i =? s + 1); [eauto|].
      destruct (parse_range_fuel tokens fuel (s + 1) (i - 1) priority.lowest)
        eqn:E; cbn [bind] in H; try discriminate. injection H as <- <-. eauto.
Qed.

End ErrorOffsets.

(** ** Operands in parentheses *)

Section Parenthesized.
Import Parser.

Lemma parse_operand_parenthesis tokens start end_ t :
  tokens_at tokens start = Ok t ->
  type t = token_type.opening_parenthesis ->
  end_ < size tokens ->
  ((forall j, start + 1 <= j <= end_ -> ~ matching_close tokens (start + 1) j) ->
   parse_operand tokens start end_
     = ParseError (start_position t) "Unclosed parenthesis" /\
   forall p, parse_range tokens start end_ p
     = ParseError (start_position t) "Unclosed parenthesis") /\
  (start + 1 <= end_ -> matching_close tokens (start + 1) (start + 1) ->
   parse_operand tokens start end_
     = ParseError (start_position t) "Empty parentheses" /\
   forall p, parse_range tokens start end_ p
     = ParseError (start_position t) "Empty parentheses") /\
  (forall i, start + 1 < i <= end_ -> matching_close tokens (start + 1) i ->
   parse_operand tokens start end_
     = (content <- parse_range tokens (start + 1) (i - 1) priority.lowest ;;
        Ok (parentheses content)) /\
   forall content, calc (parentheses content) = calc content).
Proof.
  intros Ht Hty He.
  assert (Hrange : forall pos msg,
            parse_operand tokens start end_ = ParseError pos msg ->
            parse_operand tokens start end_ = ParseError pos msg /\
            forall p, parse_range tokens start end_ p = ParseError pos msg).
  { intros pos msg H. split; [exact H|].
    intros p. rewrite parse_range_eq, H. reflexivity. }
  assert (Hop : parse_operand tokens start end_ =
    (closing_parenthesis_index <-
       find_closing_parenthesis tokens (start + 1) end_ ;;
     if closing_parenthesis_index =? -1 then
       ParseError (start_position t) "Unclosed parenthesis"
     else if closing_parenthesis_index =? start + 1 then
       ParseError (start_position t) "Empty parentheses"
     else
       content <-
         parse_range tokens (start + 1) (closing_parenthesis_index - 1)
           priority.lowest ;;
       Ok (parentheses content))).
  { rewrite parse_operand_eq, Ht. cbn [bind]. rewrite Hty.
    rewrite parse_parentheses_eq, Ht. reflexivity. }
  apply tokens_at_Ok in Ht as Hstart.
  destruct (find_closing_parenthesis_spec tokens (start + 1) end_)
    as (r & Hr & Hcases); [lia | lia |].
  rewrite Hr in Hop. cbn [bind] in Hop.
  split; [|split].
  - intros Hnone. apply Hrange. destruct Hcases as [[-> _]|[Hin Hm]].
    + exact Hop.
    + destruct (Hnone r Hin Hm).
  - intros Hle Hm. apply Hrange. destruct Hcases as [[-> Hnone]|[Hin Hm']].
    + destruct (Hnone (start + 1)); [lia | exact Hm].
    + rewrite (matching_close_unique tokens _ _ _ Hm' Hm) in Hop.
      destruct (Z.eqb_spec (start + 1) (-1)); [lia|].
      now rewrite Z.eqb_refl in Hop.
  - intros i Hi Hm. split; [|reflexivity].
    destruct Hcases as [[-> Hnone]|[Hin Hm']].
    + destruct (Hnone i); [lia | exact Hm].
    + rewrite (matching_close_unique tokens _ _ _ Hm' Hm) in Hop.
      destruct (Z.eqb_spec i (-1)); [lia|].
      destruct (Z.eqb_spec i (start + 1)); [lia|]. exact Hop.
Qed.

End Parenthesized.


(** ** The command-line driver *)

Section DriverFacts.
Import Lexer Parser.

Lemma calculate_error_offset formula position message :
  calculate formula = ParseError position message ->
  0 <= position /\
  (position < Z.of_nat (String.length formula) \/ formula = EmptyString).
Proof.
  unfold calculate, parse. intros H.
  pose proof (tokenize_positions formula) as Hpos.
  destruct (tokenize formula) as [tokens|p m| | |]; cbn [bind] in H;
    try discriminate; cbn [positions_below] in Hpos.
  - destruct (parse_tokens tokens) as [e|p m| | |] eqn:E; cbn [bind] in H;
      try discriminate. injection H as -> ->.
    unfold parse_tokens in E. destruct tokens as [|t0 l] eqn:Et.
    + injection E as <- <-. split; [lia|].
      destruct formula; [now right | left; cbn [String.length]; lia].
    + rewrite <- Et in *. unfold parse_range in E.
      apply (proj1 (parse_error_at_a_token tokens _)) in E.
      destruct E as (t & Hin & <-).
      rewrite Forall_forall in Hpos. specialize (Hpos t Hin). split; [lia|].
      left. lia.
  - injection H as -> ->. split; [lia | left; lia].
Qed.

Lemma length_spaces n : String.length (CLI.spaces n) = Z.to_nat n.
Proof.
  unfold CLI.spaces. generalize (Z.to_nat n). intros k.
  induction k as [|k IH]; cbn; [reflexivity | now rewrite IH].
Qed.

Lemma get_in_range s : forall n,
  (n < String.length s)%nat -> exists c, String.get n s = Some c.
Proof.
  induction s as [|a s IH]; intros n H; cbn [String.length] in H; [lia|].
  destruct n as [|n]; cbn [String.get]; [eauto|]. apply IH. lia.
Qed.

Lemma get_quoted formula n :
  (n < String.length formula)%nat ->
  String.get (n + 1) (CLI.quote ++ formula ++ CLI.quote)%string
  = String.get n formula.
Proof.
  intros H. rewrite (append_correct1 formula CLI.quote n H).
  exact (eq_sym (append_correct2 CLI.quote (formula ++ CLI.quote)%string n)).
Qed.

Lemma get_caret k :
  String.get (Z.to_nat k) (CLI.spaces k ++ "^")%string = Some "^"%char.
Proof.
  pose proof (append_correct2 (CLI.spaces k) "^" 0) as H.
  rewrite length_spaces in H. cbn [Nat.add] in H. now rewrite <- H.
Qed.
End DriverFacts.


(** ** Rounding produces canonical doubles *)

Section Rounding.

Lemma fexp_spec x : fexp Double.prec Double.emax x = Z.max (x - 53) (-1074).
Proof. reflexivity. Qed.

Lemma digits2_pos_bounds p :
  2 ^ (Z.pos (digits2_pos p) - 1) <= Z.pos p < 2 ^ Z.pos (digits2_pos p).
Proof.
  induction p as [p IH|p IH|]; cbn [digits2_pos]; [| |cbn; lia];
    rewrite Pos2Z.inj_succ;
    replace (Z.succ (Z.pos (digits2_pos p)) - 1)
      with (Z.succ (Z.pos (digits2_pos p) - 1)) by lia;
    rewrite !Z.pow_succ_r by lia; lia.
Qed.

Lemma Zdigits2_bounds m :
  0 < m -> 0 < Zdigits2 m /\ 2 ^ (Zdigits2 m - 1) <= m < 2 ^ Zdigits2 m.
Proof.
  destruct m as [|p|p]; try lia. intros _. cbn [Zdigits2].
  split; [lia | apply digits2_pos_bounds].
Qed.

Lemma Zdigits2_unique m d :
  0 < d -> 2 ^ (d - 1) <= m < 2 ^ d -> Zdigits2 m = d.
Proof.
  intros Hd Hm. assert (0 < m) by (pose proof (Z.pow_pos_nonneg 2 (d - 1)); lia).
  destruct (Zdigits2_bounds m) as [Hpos Hb]; [assumption|].
  destruct (Z.lt_trichotomy (Zdigits2 m) d) as [Hlt|[Heq|Hgt]]; [|exact Heq|].
  - assert (2 ^ Zdigits2 m <= 2 ^ (d - 1)) by (apply Z.pow_le_mono_r; lia). lia.
  - assert (2 ^ d <= 2 ^ (Zdigits2 m - 1)) by (apply Z.pow_le_mono_r; lia). lia.
Qed.

Lemma Zdigits2_nonneg m : 0 <= Zdigits2 m.
Proof. destruct m; cbn; lia. Qed.

(** *** Shifting right *)

Lemma iter_pos_nat {A : Type} (f : A -> A) n : forall x,
  iter_pos f n x = Nat.iter (Pos.to_nat n) f x.
Proof.
  induction n as [n IH|n IH|]; intros x; cbn [iter_pos].
  - rewrite !IH, Pos2Nat.inj_xI.
    replace (S (2 * Pos.to_nat n))%nat
      with (Pos.to_nat n + (Pos.to_nat n + 1))%nat by lia.
    now rewrite !Nat.iter_add.
  - rewrite !IH, Pos2Nat.inj_xO.
    replace (2 * Pos.to_nat n)%nat with (Pos.to_nat n + Pos.to_nat n)%nat by lia.
    now rewrite Nat.iter_add.
  - reflexivity.
Qed.

Lemma shr_1_m mrs : 0 <= shr_m mrs -> shr_m (shr_1 mrs) = shr_m mrs / 2.
Proof.
  destruct mrs as [m r s]. cbn [shr_m]. intros Hm.
  rewrite <- Z.div2_div. destruct m as [|[p|p|]|p]; try reflexivity; lia.
Qed.

Lemma iter_shr_1_m k : forall mrs,
  0 <= shr_m mrs ->
  shr_m (Nat.iter k shr_1 mrs) = shr_m mrs / 2 ^ Z.of_nat k.
Proof.
  induction k as [|k IH]; intros mrs Hm.
  - cbn. now rewrite Z.div_1_r.
  - rewrite Nat.iter_succ. rewrite shr_1_m; rewrite IH by assumption.
    + rewrite Z.div_div by (try apply Z.pow_pos_nonneg; lia).
      now rewrite Nat2Z.inj_succ, Z.pow_succ_r, Z.mul_comm by lia.
    + apply Z.div_pos; [assumption | apply Z.pow_pos_nonneg; lia].
Qed.

Lemma shr_m_spec mrs e n :
  0 <= shr_m mrs ->
  shr mrs e n =
  (fst (shr mrs e n), if 0 <? n then e + n else e) /\
  shr_m (fst (shr mrs e n)) = if 0 <? n then shr_m mrs / 2 ^ n else shr_m mrs.
Proof.
  intros Hm. destruct n as [|p|p]; cbn [shr fst Z.ltb Z.compare]; try now split.
  split; [reflexivity|]. rewrite iter_pos_nat, iter_shr_1_m by assumption.
  now rewrite positive_nat_Z.
Qed.


Lemma Zdigits2_le m m' : 0 <= m <= m' -> Zdigits2 m <= Zdigits2 m'.
Proof.
  intros H. destruct (Z.eq_dec m 0) as [->|Hm]; [apply Zdigits2_nonneg|].
  destruct (Zdigits2_bounds m) as [_ Hb]; [lia|].
  destruct (Zdigits2_bounds m') as [_ Hb']; [lia|].
  destruct (Z.le_gt_cases (Zdigits2 m) (Zdigits2 m')) as [|Hgt]; [assumption|].
  assert (2 ^ Zdigits2 m' <= 2 ^ (Zdigits2 m - 1)) by (apply Z.pow_le_mono_r; lia).
  lia.
Qed.

Lemma Zdigits2_shift m n :
  0 < m -> 0 <= n < Zdigits2 m ->
  0 < m / 2 ^ n /\ Zdigits2 (m / 2 ^ n) = Zdigits2 m - n.
Proof.
  intros Hm Hn. destruct (Zdigits2_bounds m Hm) as [_ [Hlo Hhi]].
  assert (Hp : 0 < 2 ^ n) by (apply Z.pow_pos_nonneg; lia).
  assert (Hlo' : 2 ^ (Zdigits2 m - n - 1) <= m / 2 ^ n).
  { apply Z.div_le_lower_bound; [assumption|].
    rewrite <- Z.pow_add_r by lia.
    now replace (n + (Zdigits2 m - n - 1)) with (Zdigits2 m - 1) by lia. }
  assert (Hhi' : m / 2 ^ n < 2 ^ (Zdigits2 m - n)).
  { apply Z.div_lt_upper_bound; [assumption|].
    rewrite <- Z.pow_add_r by lia.
    now replace (n + (Zdigits2 m - n)) with (Zdigits2 m) by lia. }
  assert (0 < 2 ^ (Zdigits2 m - n - 1)) by (apply Z.pow_pos_nonneg; lia).
  split; [lia|]. apply Zdigits2_unique; [lia|]. split; assumption.
Qed.

Lemma Zdigits2_shift_out m n : 0 <= m -> Zdigits2 m <= n -> m / 2 ^ n = 0.
Proof.
  intros Hm Hn. destruct (Z.eq_dec m 0) as [->|Hne];
    [apply Z.div_0_l; pose proof (Z.pow_pos_nonneg 2 n);
     pose proof (Zdigits2_nonneg 0); lia|].
  destruct (Zdigits2_bounds m) as [Hd [_ Hhi]]; [lia|].
  apply Z.div_small. split; [assumption|].
  assert (2 ^ Zdigits2 m <= 2 ^ n) by (apply Z.pow_le_mono_r; lia). lia.
Qed.

Lemma shr_record_of_loc_m m l : shr_m (shr_record_of_loc m l) = m.
Proof. now destruct l as [|[]]. Qed.

(** One [shr_fexp] step: a mantissa that is at least as fine as the format
    asks for comes out canonical, or zero at the smallest exponent. *)
Lemma shr_fexp_canonical mx ex lx :
  0 <= mx ->
  (0 < mx -> ex <= fexp Double.prec Double.emax (Zdigits2 mx + ex)) ->
  (mx = 0 -> ex <= -1074) ->
  let m' := shr_m (fst (shr_fexp Double.prec Double.emax mx ex lx)) in
  let e' := snd (shr_fexp Double.prec Double.emax mx ex lx) in
  (0 < m' /\ fexp Double.prec Double.emax (Zdigits2 m' + e') = e')
  \/ (m' = 0 /\ e' = -1074).
Proof.
  intros Hm Hpos Hzero. cbv zeta. unfold shr_fexp.
  rewrite (fexp_spec (Zdigits2 mx + ex)) in Hpos |- *.
  remember (Z.max (Zdigits2 mx + ex - 53) (-1074) - ex) as n eqn:En.
  destruct (shr_m_spec (shr_record_of_loc mx lx) ex n) as [Hpair Hshift].
  { now rewrite shr_record_of_loc_m. }
  rewrite Hpair. cbn [fst snd]. rewrite Hshift, shr_record_of_loc_m.
  rewrite fexp_spec.
  destruct (Z.eq_dec mx 0) as [->|Hne].
  - specialize (Hzero eq_refl). change (Zdigits2 0) with 0 in *.
    right. destruct (Z.ltb_spec 0 n).
    + split; [apply Z.div_0_l; apply Z.pow_nonzero; lia | lia].
    + split; [reflexivity | lia].
  - assert (Hmx : 0 < mx) by lia. specialize (Hpos Hmx).
    destruct (Zdigits2_bounds mx Hmx) as [Hd _].
    destruct (Z.ltb_spec 0 n) as [Hn|Hn].
    + destruct (Z.lt_ge_cases n (Zdigits2 mx)) as [Hlt|Hge].
      * destruct (Zdigits2_shift mx n) as [Hq Hdq]; [assumption | lia |].
        left. split; [assumption|]. rewrite Hdq. lia.
      * right. rewrite Zdigits2_shift_out by lia. split; [reflexivity | lia].
    + left. split; [assumption | lia].
Qed.

Lemma round_nearest_even_cases m l :
  round_nearest_even m l = m \/ round_nearest_even m l = m + 1.
Proof. destruct l as [|[]]; cbn; auto. destruct (Z.even m); auto. Qed.

(** The rounding of [binary_round_aux] always lands on a valid double. *)
Lemma binary_round_aux_valid s mx ex lx :
  0 <= mx ->
  (0 < mx -> ex <= fexp Double.prec Double.emax (Zdigits2 mx + ex)) ->
  (mx = 0 -> ex <= -1074) ->
  Double.valid (binary_round_aux Double.prec Double.emax s mx ex lx) = true.
Proof.
  intros Hm Hpos Hzero. unfold binary_round_aux.
  pose proof (shr_fexp_canonical mx ex lx Hm Hpos Hzero) as H1. cbv zeta in H1.
  destruct (shr_fexp Double.prec Double.emax mx ex lx) as [mrs' e'].
  cbn [fst snd] in H1.
  set (m1 := round_nearest_even (shr_m mrs') (loc_of_shr_record mrs')).
  assert (Hm1 : m1 = shr_m mrs' \/ m1 = shr_m mrs' + 1)
    by apply round_nearest_even_cases.
  assert (H2 : (0 < shr_m (fst (shr_fexp Double.prec Double.emax m1 e' loc_Exact))
                /\ fexp Double.prec Double.emax
                     (Zdigits2 (shr_m (fst (shr_fexp Double.prec Double.emax m1 e' loc_Exact)))
                      + snd (shr_fexp Double.prec Double.emax m1 e' loc_Exact))
                   = snd (shr_fexp Double.prec Double.emax m1 e' loc_Exact))
               \/ (shr_m (fst (shr_fexp Double.prec Double.emax m1 e' loc_Exact)) = 0
                   /\ snd (shr_fexp Double.prec Double.emax m1 e' loc_Exact) = -1074)).
  { apply shr_fexp_canonical.
    - lia.
    - intros Hpos1. rewrite fexp_spec.
      destruct H1 as [[Hp Hc]|[Hz He]].
      + rewrite fexp_spec in Hc.
        assert (Zdigits2 (shr_m mrs') <= Zdigits2 m1) by (apply Zdigits2_le; lia).
        lia.
      + lia.
    - intros Hz1. destruct H1 as [[Hp Hc]|[Hz He]]; lia. }
  destruct (shr_fexp Double.prec Double.emax m1 e' loc_Exact) as [mrs'' e''].
  cbn [fst snd] in H2.
  destruct (shr_m mrs'') as [|m''|m''] eqn:Em; [reflexivity| |reflexivity].
  destruct (e'' <=? Double.emax - Double.prec) eqn:Eb; [|reflexivity].
  unfold Double.valid, valid_binary, bounded, canonical_mantissa.
  rewrite Eb, andb_true_r. apply Z.eqb_eq.
  destruct H2 as [[_ Hc]|[Hz _]]; [exact Hc | discriminate].
Qed.


(** *** The four operations *)

Lemma valid_finite s m e :
  Double.valid (S754_finite s m e) = true <->
  fexp Double.prec Double.emax (Z.pos (digits2_pos m) + e) = e /\ e <= 971.
Proof.
  unfold Double.valid, valid_binary, bounded, canonical_mantissa.
  rewrite andb_true_iff, Z.eqb_eq, Z.leb_le. reflexivity.
Qed.

Lemma Zdigits2_mul_lower a b :
  0 < a -> 0 < b -> Zdigits2 a + Zdigits2 b - 1 <= Zdigits2 (a * b).
Proof.
  intros Ha Hb.
  destruct (Zdigits2_bounds a Ha) as [Hda [Hla _]].
  destruct (Zdigits2_bounds b Hb) as [Hdb [Hlb _]].
  destruct (Zdigits2_bounds (a * b)) as [Hdab [_ Hhab]]; [nia|].
  assert (Hp : 2 ^ (Zdigits2 a - 1 + (Zdigits2 b - 1)) <= a * b).
  { rewrite Z.pow_add_r by lia.
    apply Z.mul_le_mono_nonneg; try assumption; apply Z.pow_nonneg; lia. }
  destruct (Z.le_gt_cases (Zdigits2 a + Zdigits2 b - 1) (Zdigits2 (a * b)))
    as [|Hgt]; [assumption|].
  assert (2 ^ Zdigits2 (a * b) <= 2 ^ (Zdigits2 a - 1 + (Zdigits2 b - 1)))
    by (apply Z.pow_le_mono_r; lia).
  lia.
Qed.

Lemma mul_valid x y :
  Double.valid x = true -> Double.valid y = true ->
  Double.valid (Double.mul x y) = true.
Proof.
  destruct x as [sx|sx| |sx mx ex], y as [sy|sy| |sy my ey]; try reflexivity.
  intros Hx Hy. apply valid_finite in Hx, Hy. rewrite fexp_spec in Hx, Hy.
  unfold Double.mul. cbn [SFmul]. apply binary_round_aux_valid; [lia| |lia].
  intros _. rewrite fexp_spec, Pos2Z.inj_mul.
  pose proof (Zdigits2_mul_lower (Z.pos mx) (Z.pos my) ltac:(lia) ltac:(lia)) as H.
  change (Zdigits2 (Z.pos mx)) with (Z.pos (digits2_pos mx)) in H.
  change (Zdigits2 (Z.pos my)) with (Z.pos (digits2_pos my)) in H. lia.
Qed.

Lemma Zdigits2_mul_pow2 m k :
  0 < m -> 0 <= k -> Zdigits2 (m * 2 ^ k) = Zdigits2 m + k.
Proof.
  intros Hm Hk. destruct (Zdigits2_bounds m Hm) as [Hd [Hlo Hhi]].
  assert (0 < 2 ^ k) by (apply Z.pow_pos_nonneg; lia).
  apply Zdigits2_unique; [lia|].
  replace (Zdigits2 m + k - 1) with (Zdigits2 m - 1 + k) by lia.
  rewrite !Z.pow_add_r by lia. nia.
Qed.

Lemma div_digits a b :
  0 < a -> 0 < b ->
  (0 < a / b -> Zdigits2 a - Zdigits2 b <= Zdigits2 (a / b)) /\
  (a / b = 0 -> Zdigits2 a <= Zdigits2 b).
Proof.
  intros Ha Hb. split.
  - intros Hq.
    destruct (Zdigits2_bounds a Ha) as [Hda [Hla _]].
    destruct (Zdigits2_bounds b Hb) as [Hdb [_ Hhb]].
    destruct (Zdigits2_bounds (a / b) Hq) as [Hdq [_ Hhq]].
    destruct (Z.le_gt_cases (Zdigits2 a - Zdigits2 b) (Zdigits2 (a / b)))
      as [|Hgt]; [assumption|].
    pose proof (Z.div_mod a b ltac:(lia)) as Hdiv.
    pose proof (Z.mod_pos_bound a b Hb) as Hmod.
    assert (Hpow : 2 ^ (Zdigits2 b + Zdigits2 (a / b)) <= 2 ^ (Zdigits2 a - 1))
      by (apply Z.pow_le_mono_r; lia).
    rewrite Z.pow_add_r in Hpow by lia. nia.
  - intros Hq. apply Z.div_small_iff in Hq; [|lia].
    apply Zdigits2_le. lia.
Qed.

Lemma div_valid x y : Double.valid (Double.div x y) = true.
Proof.
  destruct x as [sx|sx| |sx mx ex], y as [sy|sy| |sy my ey]; try reflexivity.
  unfold Double.div. cbn [SFdiv]. unfold SFdiv_core_binary.
  cbn [Zdigits2]. rewrite fexp_spec.
  set (d1 := Z.pos (digits2_pos mx)). set (d2 := Z.pos (digits2_pos my)).
  set (e' := Z.min (Z.max (d1 + ex - (d2 + ey) - 53) (-1074)) (ex - ey)).
  set (s := ex - ey - e').
  assert (Hs : 0 <= s) by (subst s e'; lia).
  assert (Hm' : match s with
                | 0 => Z.pos mx
                | Z.pos _ => Z.shiftl (Z.pos mx) s
                | Z.neg _ => 0
                end = Z.pos mx * 2 ^ s).
  { destruct s as [|p|p]; [cbn; lia | apply Z.shiftl_mul_pow2; lia | lia]. }
  rewrite Hm'. clear Hm'.
  pose proof (Z_div_mod (Z.pos mx * 2 ^ s) (Z.pos my) ltac:(lia)) as Hde.
  unfold Z.div in *.
  assert (Hq : fst (Z.div_eucl (Z.pos mx * 2 ^ s) (Z.pos my))
               = (Z.pos mx * 2 ^ s) / Z.pos my) by reflexivity.
  destruct (Z.div_eucl (Z.pos mx * 2 ^ s) (Z.pos my)) as [q r].
  cbn [fst] in Hq. subst q.
  assert (Hp2 : 0 < 2 ^ s) by (apply Z.pow_pos_nonneg; lia).
  assert (Ha : 0 < Z.pos mx * 2 ^ s) by lia.
  destruct (div_digits (Z.pos mx * 2 ^ s) (Z.pos my) Ha ltac:(lia)) as [Hpos Hzero].
  rewrite Zdigits2_mul_pow2 in Hpos, Hzero by lia.
  cbn [Zdigits2] in Hpos, Hzero. fold d1 d2 in Hpos, Hzero.
  apply binary_round_aux_valid.
  - apply Z.div_pos; lia.
  - intros H. specialize (Hpos H). rewrite fexp_spec. subst s e'. lia.
  - intros H. specialize (Hzero H). subst s e'. lia.
Qed.

Lemma pos_iter_xO m d : Z.pos (Pos.iter xO m d) = Z.pos m * 2 ^ Z.pos d.
Proof.
  induction d as [|d IH] using Pos.peano_ind.
  - cbn [Pos.iter]. lia.
  - rewrite Pos.iter_succ, Pos2Z.inj_xO, IH, Pos2Z.inj_succ, Z.pow_succ_r by lia.
    lia.
Qed.

Lemma binary_round_valid s m e :
  Double.valid (binary_round Double.prec Double.emax s m e) = true.
Proof.
  unfold binary_round, shl_align. rewrite fexp_spec.
  set (d := Z.pos (digits2_pos m)).
  destruct (Z.max (d + e - 53) (-1074) - e) as [|p|p] eqn:E.
  - apply binary_round_aux_valid; [lia| |lia].
    intros _. rewrite fexp_spec. cbn [Zdigits2]. fold d. lia.
  - apply binary_round_aux_valid; [lia| |lia].
    intros _. rewrite fexp_spec. cbn [Zdigits2]. fold d. lia.
  - apply binary_round_aux_valid; [lia| |lia].
    intros _. rewrite fexp_spec, pos_iter_xO.
    rewrite Zdigits2_mul_pow2 by lia. cbn [Zdigits2]. fold d. lia.
Qed.

Lemma binary_normalize_valid m e sz :
  Double.valid (binary_normalize Double.prec Double.emax m e sz) = true.
Proof. destruct m; [reflexivity | apply binary_round_valid..]. Qed.

Lemma add_valid x y :
  Double.valid x = true -> Double.valid y = true ->
  Double.valid (Double.add x y) = true.
Proof.
  destruct x as [[]|[]| |sx mx ex], y as [[]|[]| |sy my ey];
    try reflexivity; try (intros; assumption).
  intros _ _. apply binary_normalize_valid.
Qed.

Lemma sub_valid x y :
  Double.valid x = true -> Double.valid y = true ->
  Double.valid (Double.sub x y) = true.
Proof.
  destruct x as [[]|[]| |sx mx ex], y as [[]|[]| |sy my ey];
    try reflexivity; try (intros; assumption).
  intros _ _. apply binary_normalize_valid.
Qed.

End Rounding.

(** ** Parsed expressions hold valid doubles *)

Section ValidValues.
Import Lexer Parser.

Lemma opp_valid x : Double.valid x = true -> Double.valid (Double.opp x) = true.
Proof. now destruct x. Qed.

Lemma calc_evaluate e :
  Forall (fun v => Double.valid v = true) (leaves e) ->
  Double.valid (calc e) = true /\ calc e = evaluate e.
Proof.
  induction e as [l IHl r IHr|l IHl r IHr|l IHl r IHr|l IHl r IHr|c IH|v|c IH];
    cbn [leaves calc evaluate]; intros H;
    try (apply Forall_app in H; destruct H as [Hl Hr];
         destruct (IHl Hl) as [Vl <-]; destruct (IHr Hr) as [Vr <-];
         split; [|reflexivity]).
  - now apply add_valid.
  - now apply sub_valid.
  - now apply mul_valid.
  - apply div_valid.
  - auto.
  - split; [now inversion H | reflexivity].
  - destruct (IH H) as [V <-]. rewrite mul_minus_one_opp by assumption.
    split; [now apply opp_valid | reflexivity].
Qed.

Lemma strtod_valid number : Double.valid (fst (strtod number)) = true.
Proof.
  unfold strtod. destruct (span_digits number) as [int_part rest].
  destruct (match rest with
            | [] => ([], 0)
            | c :: rest' =>
                if Ascii.eqb c "." then (fst (span_digits rest'), 1) else ([], 0)
            end) as [frac_part dot].
  assert (H : forall m k, Double.valid (decimal_to_double m k) = true).
  { intros m k. unfold decimal_to_double. destruct m; try reflexivity.
    apply div_valid. }
  destruct int_part, frac_part; cbn [fst]; auto.
Qed.

Lemma parse_number_valid number start v :
  parse_number number start = Ok v -> Double.valid v = true.
Proof.
  rewrite parse_number_spec. destruct (_ && _); [|discriminate].
  intros [= <-]. apply strtod_valid.
Qed.

Lemma symbol_token_valid c i tokens tokens' :
  Forall (fun t => Double.valid (_value t) = true) tokens ->
  symbol_token c i tokens = Ok tokens' ->
  Forall (fun t => Double.valid (_value t) = true) tokens'.
Proof.
  intros H. unfold symbol_token.
  repeat (match goal with |- context [if ?b then _ else _] => destruct b end;
          [intros [= <-];
           first [ exact H
                 | apply Forall_app; split; [exact H | now constructor] ]|]).
  discriminate.
Qed.

Lemma tokenize_from_valid formula : forall i tokens nt ns tokens',
  Forall (fun t => Double.valid (_value t) = true) tokens ->
  tokenize_from formula i tokens nt ns = Ok tokens' ->
  Forall (fun t => Double.valid (_value t) = true) tokens'.
Proof.
  induction formula as [|c rest IH]; intros i tokens nt ns tokens' Hv H;
    cbn [tokenize_from] in H.
  - now injection H as <-.
  - destruct (is_numeric c).
    + destruct rest as [|c' rest]; [|eauto].
      apply bind_Ok in H. destruct H as (v & Hn & H).
      cbn [tokenize_from] in H. injection H as <-.
      apply Forall_app. split; [exact Hv|]. constructor; [|constructor].
      cbn [_value]. eapply parse_number_valid, Hn.
    + destruct nt as [|n nt].
      * apply bind_Ok in H. destruct H as (tokens1 & Hs & H).
        eapply IH; [|exact H]. eapply symbol_token_valid; eauto.
      * apply bind_Ok in H. destruct H as (v & Hn & H).
        apply bind_Ok in H. destruct H as (tokens1 & Hs & H).
        eapply IH; [|exact H]. eapply symbol_token_valid; [|exact Hs].
        apply Forall_app. split; [exact Hv|]. constructor; [|constructor].
        cbn [_value]. eapply parse_number_valid, Hn.
Qed.

Lemma leaves_in_yield e v :
  In v (leaves e) -> In (token_type.number, Some v) (yield e).
Proof.
  induction e; cbn [leaves yield]; rewrite ?in_app_iff; cbn [In];
    rewrite ?in_app_iff; cbn [In]; intuition (subst; auto).
Qed.

Lemma parse_leaves_valid formula e :
  parse formula = Ok e ->
  Forall (fun v => Double.valid v = true) (leaves e).
Proof.
  unfold parse. intros H. apply bind_Ok in H. destruct H as (tokens & Ht & H).
  apply (tokenize_from_valid _ 0 [] [] 0) in Ht; [|constructor].
  apply parse_tokens_spells in H. destruct H as [_ H].
  apply Forall_forall. intros v Hv. apply leaves_in_yield in Hv.
  rewrite <- H in Hv. apply in_map_iff in Hv. destruct Hv as (t & Het & Hin).
  rewrite Forall_forall in Ht. specialize (Ht t Hin).
  unfold erase in Het. injection Het as Hty Hval. rewrite Hty in Hval.
  now injection Hval as <-.
Qed.

Lemma parse_calc_evaluate formula e :
  parse formula = Ok e ->
  Double.valid (calc e) = true /\ calc e = evaluate e.
Proof. intros H. apply calc_evaluate. eapply parse_leaves_valid, H. Qed.

End ValidValues.

(** ** The test suite of the repository (test.cpp) *)

Section RepositoryTests.

Example success_tests :
  map calculate
    [ "5"; "-5"; "2 + 3"; "2 - 3"; "2 * 3"; "5 / 2"; "2 * 3 + 4"; "2 + 3 * 4";
      "(7)"; "(-2)"; "(3 * 2)"; "(3 + 2) * 2"; "2 * (3 + 2)"; "(((5)))";
      "((3 + 2) * (1 + 1))"; "2 * (3 * ((3 + 1) + 1) + 2)";
      "2 * (3 + ((3 + 1) + 1) * 2)";
      "7 + (((5 * 2) + 5) / (2 + 3) + 1) / 2 - 1" ]%string
  = [ Ok (Double.of_Z 5); Ok (Double.of_Z (-5)); Ok (Double.of_Z 5);
      Ok (Double.of_Z (-1)); Ok (Double.of_Z 6); Ok (Double.of_ratio 5 2);
      Ok (Double.of_Z 10); Ok (Double.of_Z 14); Ok (Double.of_Z 7);
      Ok (Double.of_Z (-2)); Ok (Double.of_Z 6); Ok (Double.of_Z 10);
      Ok (Double.of_Z 10); Ok (Double.of_Z 5); Ok (Double.of_Z 10);
      Ok (Double.of_Z 34); Ok (Double.of_Z 26); Ok (Double.of_Z 8) ].
Proof. vm_compute. reflexivity. Qed.

Example parse_error_tests :
  map calculate
    [ ""; "-"; "*"; "a"; "3a"; "3 + + 2"; "3 2"; "(-5)(4)"; "(5"; "5)";
      ") * 5)"; "(5))"; "((5) - 1"; "(-)"; "(*)"; "()";
      string_of_list_ascii (repeat "3"%char 500); "3.3.3" ]%string
  = [ ParseError 0 "Empty input"; ParseError 0 "Orphan minus";
      ParseError 0 "Unexpected token"; ParseError 0 "Unexpected symbol";
      ParseError 1 "Unexpected symbol"; ParseError 4 "Unexpected token";
      ParseError 2 "Unexpected token: operator needed";
      ParseError 4 "Unexpected token: operator needed";
      ParseError 0 "Unclosed parenthesis";
      ParseError 1 "Unexpected token: operator needed";
      ParseError 0 "Unexpected token";
      ParseError 3 "Unexpected token: operator needed";
      ParseError 0 "Unclosed parenthesis"; ParseError 1 "Orphan minus";
      ParseError 1 "Unexpected token"; ParseError 0 "Empty parentheses";
      ParseError 0 "Number too long"; ParseError 0 "Number too long" ].
Proof. vm_compute. reflexivity. Qed.

(** An operator at the very end of the formula makes [parse_operand] read
    [tokens[tokens.size()]]. *)
Example trailing_operator_reads_past_the_vector :
  calculate "3 +" = OutOfRange /\ calculate "(3 +)" = ParseError 4 "Unexpected token".
Proof. split; reflexivity. Qed.

End RepositoryTests.

(** ** What the parser never does *)

Section ParserSafety.
Import Lexer Parser.
Variable tokens : list token.

Lemma bind_not_broken {A B : Type} (r : outcome A) (k : A -> outcome B) m :
  (forall m', r <> BrokenParser m') ->
  (forall a, r = Ok a -> k a <> BrokenParser m) ->
  bind r k <> BrokenParser m.
Proof.
  destruct r; cbn; intros H1 H2; auto; try discriminate.
  exfalso. eapply H1. reflexivity.
Qed.

Lemma tokens_at_not_broken i m : tokens_at tokens i <> BrokenParser m.
Proof.
  unfold tokens_at. destruct (_ <? 0); [discriminate|].
  destruct (nth_error _ _); discriminate.
Qed.

Lemma find_closing_from_not_broken steps : forall i d m,
  0 <= d -> find_closing_from tokens steps i d <> BrokenParser m.
Proof.
  induction steps as [|steps IH]; intros i d m Hd; cbn [find_closing_from];
    [discriminate|].
  apply bind_not_broken; [intros; apply tokens_at_not_broken|].
  intros t _. destruct (type t); try (apply IH; lia).
  destruct (Z.eqb_spec d 0); [discriminate|].
  destruct (Z.gtb_spec d 0); [apply IH; lia | lia].
Qed.

(** No [broken_parser_exception] is ever thrown. *)
Lemma parse_not_broken (fuel : nat) :
  (forall s e p m, parse_range_fuel tokens fuel s e p <> BrokenParser m) /\
  (forall s e p a r c m,
     parse_range_loop_fuel tokens fuel s e p a r c <> BrokenParser m) /\
  (forall s e m, parse_operand_fuel tokens fuel s e <> BrokenParser m) /\
  (forall s e m, parse_parentheses_fuel tokens fuel s e <> BrokenParser m).
Proof.
  induction fuel as [|fuel (IHr & IHl & IHo & IHp)].
  - split; [|split; [|split]]; intros; discriminate.
  - split; [|split; [|split]].
    + intros s e p m. cbn [parse_range_fuel].
      apply bind_not_broken; auto.
    + intros s e p a r c m. cbn [parse_range_loop_fuel].
      destruct (a >? c); [|discriminate].
      apply bind_not_broken; [intros; apply tokens_at_not_broken|]. intros t _.
      apply bind_not_broken.
      { intros m'. unfold parse_operator. destruct (type t); discriminate. }
      intros op _. destruct (priority.leb _ _); [discriminate|].
      apply bind_not_broken; auto.
    + intros s e m. cbn [parse_operand_fuel].
      apply bind_not_broken; [intros; apply tokens_at_not_broken|]. intros t _.
      destruct (type t) eqn:Hty; try discriminate; auto.
      * unfold value. rewrite Hty. discriminate.
      * destruct (s =? e); [discriminate|].
        apply bind_not_broken; [auto | discriminate].
    + intros s e m. cbn [parse_parentheses_fuel].
      apply bind_not_broken.
      { intros m'. apply find_closing_from_not_broken. lia. }
      intros i _.
      destruct (i =? -1);
        [apply bind_not_broken;
         [intros; apply tokens_at_not_broken | discriminate]|].
      destruct (i =? s + 1);
        [apply bind_not_broken;
         [intros; apply tokens_at_not_broken | discriminate]|].
      apply bind_not_broken; [auto | discriminate].
Qed.

Lemma bind_in_range {A B : Type} (r : outcome A) (k : A -> outcome B) :
  r <> OutOfRange ->
  (forall a, r = Ok a -> k a <> OutOfRange) ->
  bind r k <> OutOfRange.
Proof. destruct r; cbn; intros H1 H2; auto; try discriminate. Qed.

Lemma tokens_at_inside i :
  0 <= i < size tokens -> tokens_at tokens i <> OutOfRange.
Proof.
  intros H. destruct (tokens_at_in_range tokens i H) as [t ->]. discriminate.
Qed.

Lemma find_closing_from_inside steps : forall i d,
  0 <= i -> i + Z.of_nat steps <= size tokens ->
  find_closing_from tokens steps i d <> OutOfRange.
Proof.
  induction steps as [|steps IH]; intros i d Hi Hs; cbn [find_closing_from];
    [discriminate|].
  apply bind_in_range; [apply tokens_at_inside; lia|].
  intros t _. destruct (type t); try (apply IH; lia).
  destruct (d =? 0); [discriminate|].
  destruct (d >? 0); [apply IH; lia | discriminate].
Qed.

Lemma find_closing_parenthesis_inside s e :
  0 <= s -> e < size tokens ->
  find_closing_parenthesis tokens s e <> OutOfRange.
Proof.
  intros Hs He. unfold find_closing_parenthesis.
  destruct (Z.le_gt_cases (e - s + 1) 0).
  - replace (Z.to_nat (e - s + 1)) with O by lia. discriminate.
  - apply find_closing_from_inside; lia.
Qed.

Lemma parse_operator_is_operator t op :
  parse_operator t = Ok op -> is_operator (type t) = true.
Proof. unfold parse_operator. now destruct (type t). Qed.

(** Inside the vector, in a delimited range that does not end the vector
    with an operator, no token is read out of range. *)
Lemma parse_in_range (fuel : nat) :
  (forall s e p,
     in_vector tokens s e -> delimited tokens e -> operand_follows tokens e ->
     parse_range_fuel tokens fuel s e p <> OutOfRange) /\
  (forall s e p r,
     0 <= s -> e < size tokens -> delimited tokens e ->
     operand_follows tokens e ->
     parse_range_loop_fuel tokens fuel s e p (e - s + 1) r (consumed_tokens r)
     <> OutOfRange) /\
  (forall s e,
     in_vector tokens s e -> delimited tokens e ->
     parse_operand_fuel tokens fuel s e <> OutOfRange) /\
  (forall s e,
     0 <= s < size tokens -> e < size tokens ->
     parse_parentheses_fuel tokens fuel s e <> OutOfRange).
Proof.
  induction fuel as [|fuel (IHr & IHl & IHo & IHp)].
  - split; [|split; [|split]]; intros; discriminate.
  - split; [|split; [|split]].
    + intros s e p Hin Hd Hop. cbn [parse_range_fuel].
      apply bind_in_range; [now apply IHo|].
      intros r _. destruct Hin as (Hs & _ & He). apply IHl; auto; lia.
    + intros s e p r Hs He Hd Hop. cbn [parse_range_loop_fuel].
      pose proof (consumed_tokens_pos r) as Hc.
      destruct (Z.gtb_spec (e - s + 1) (consumed_tokens r)) as [Hgt|];
        [|discriminate].
      apply bind_in_range; [apply tokens_at_inside; lia|]. intros t Ht.
      apply bind_in_range.
      { unfold parse_operator. destruct (type t); discriminate. }
      intros op Hopr. destruct (priority.leb _ _); [discriminate|].
      apply bind_in_range.
      * apply IHr; [|assumption|assumption].
        split; [|split; [lia | assumption]].
        destruct (Z.eq_dec (s + consumed_tokens r) e) as [Heq|Hne]; [|lia].
        destruct Hop as [Hop|Hop]; [lia|].
        rewrite Heq in Ht. apply Hop in Ht.
        apply parse_operator_is_operator in Hopr. congruence.
      * intros r' _. apply IHl; assumption.
    + intros s e (Hs & Hse & He) Hd. cbn [parse_operand_fuel].
      apply bind_in_range; [now apply tokens_at_inside|]. intros t Ht.
      destruct (type t) eqn:Hty; try discriminate.
      * unfold value. rewrite Hty. discriminate.
      * now apply IHp.
      * destruct (Z.eqb_spec s e); [discriminate|].
        apply bind_in_range; [|discriminate].
        apply IHo; [|assumption].
        assert (s <> e + 1).
        { intros ->. apply Hd in Ht. congruence. }
        repeat split; lia.
    + intros s e Hs He. cbn [parse_parentheses_fuel].
      apply bind_in_range; [apply find_closing_parenthesis_inside; lia|].
      intros i Hi. apply find_closing_parenthesis_found in Hi.
      destruct (Z.eqb_spec i (-1));
        [apply bind_in_range; [now apply tokens_at_inside | discriminate]|].
      destruct (Z.eqb_spec i (s + 1));
        [apply bind_in_range; [now apply tokens_at_inside | discriminate]|].
      destruct Hi as [?|[Hrange (t & Ht & Hty)]]; [contradiction|].
      apply bind_in_range; [|discriminate].
      apply IHr.
      * repeat split; lia.
      * intros t' Ht'. replace (i - 1 + 1) with i in Ht' by lia. congruence.
      * left. lia.
Qed.

Lemma ends_with_operator_last :
  ends_with_operator tokens = false ->
  operand_follows tokens (size tokens - 1).
Proof.
  intros H. right. intros t Ht. apply tokens_at_Ok in Ht. destruct Ht as [Hr Ht].
  unfold ends_with_operator in H. unfold size in *.
  destruct (rev tokens) as [|t' l] eqn:E.
  { apply (f_equal (@length _)) in E. rewrite length_rev in E. cbn in E. lia. }
  assert (Hrev : tokens = rev l ++ [t']).
  { rewrite <- (rev_involutive tokens), E. reflexivity. }
  assert (Hlen : Z.to_nat (Z.of_nat (length tokens) - 1) = length (rev l)).
  { rewrite Hrev at 1. rewrite length_app. cbn [length]. lia. }
  rewrite Hlen, Hrev, nth_error_app2, Nat.sub_diag in Ht by lia.
  cbn in Ht. now injection Ht as <-.
Qed.

Lemma parse_tokens_in_range :
  ends_with_operator tokens = false -> parse_tokens tokens <> OutOfRange.
Proof.
  intros H. unfold parse_tokens. destruct tokens as [|t l] eqn:E; [discriminate|].
  rewrite <- E in *. unfold parse_range. apply parse_in_range.
  - unfold in_vector, size. rewrite E. cbn [length]. lia.
  - apply delimited_last.
  - now apply ends_with_operator_last.
Qed.

(** The messages of the parser's errors. *)
Lemma parse_messages (fuel : nat) :
  (forall s e p position message,
     parse_range_fuel tokens fuel s e p = ParseError position message ->
     In message messages) /\
  (forall s e p a r c position message,
     parse_range_loop_fuel tokens fuel s e p a r c = ParseError position message ->
     In message messages) /\
  (forall s e position message,
     parse_operand_fuel tokens fuel s e = ParseError position message ->
     In message messages) /\
  (forall s e position message,
     parse_parentheses_fuel tokens fuel s e = ParseError position message ->
     In message messages).
Proof.
  induction fuel as [|fuel (IHr & IHl & IHo & IHp)].
  - split; [|split; [|split]]; intros; discriminate.
  - split; [|split; [|split]].
    + intros s e p position message H. cbn [parse_range_fuel] in H.
      destruct (parse_operand_fuel tokens fuel s e) eqn:E; cbn [bind] in H;
        try discriminate; [eauto|].
      injection H as <- <-. eauto.
    + intros s e p a r c position message H. cbn [parse_range_loop_fuel] in H.
      destruct (a >? c); [|discriminate].
      destruct (tokens_at tokens (s + consumed_tokens r)) as [t| | | |] eqn:Et;
        cbn [bind] in H; try discriminate.
      2:{ unfold tokens_at in Et. destruct (_ <? 0); [discriminate|].
          destruct (nth_error _ _); discriminate. }
      unfold parse_operator in H.
      destruct (type t); cbn [bind] in H;
        try (injection H as <- <-; cbn; tauto);
        (destruct (priority.leb _ _); [discriminate|];
         match type of H with
         | bind ?x _ = _ => destruct x eqn:E; cbn [bind] in H; try discriminate;
                            [eauto | injection H as <- <-; eauto]
         end).
    + intros s e position message H. cbn [parse_operand_fuel] in H.
      destruct (tokens_at tokens s) as [t| | | |] eqn:Et;
        cbn [bind] in H; try discriminate.
      2:{ unfold tokens_at in Et. destruct (_ <? 0); [discriminate|].
          destruct (nth_error _ _); discriminate. }
      destruct (type t) eqn:Hty;
        try (injection H as <- <-; cbn; tauto).
      * unfold value in H. rewrite Hty in H. discriminate.
      * eauto.
      * destruct (s =? e); [injection H as <- <-; cbn; tauto|].
        destruct (parse_operand_fuel tokens fuel (s + 1) e) eqn:E;
          cbn [bind] in H; try discriminate. injection H as <- <-. eauto.
    + intros s e position message H. cbn [parse_parentheses_fuel] in H.
      destruct (find_closing_parenthesis tokens (s + 1) e) as [i| | | |] eqn:Ei;
        cbn [bind] in H; try discriminate.
      2:{ exfalso. eapply find_closing_from_no_error. exact Ei. }
      assert (Hat : forall m, In m messages ->
                (t <- tokens_at tokens s ;; ParseError (start_position t) m)
                = (ParseError position message : outcome expression) ->
                In message messages).
      { intros m Hm Heq. destruct (tokens_at tokens s) as [t| | | |] eqn:Et;
          cbn [bind] in Heq; try discriminate.
        - now injection Heq as <- <-.
        - unfold tokens_at in Et. destruct (_ <? 0); [discriminate|].
          destruct (nth_error _ _); discriminate. }
      destruct (i =? -1); [eapply Hat; [|exact H]; cbn; tauto|].
      destruct (i =? s + 1); [eapply Hat; [|exact H]; cbn; tauto|].
      destruct (parse_range_fuel tokens fuel (s + 1) (i - 1) priority.lowest)
        eqn:E; cbn [bind] in H; try discriminate. injection H as <- <-. eauto.
Qed.

End ParserSafety.

(** ** Parsed expressions are well nested *)

Section WellNested.
Import Lexer Parser.
Variable tokens : list token.

Lemma level_create l op r :
  level (create_two_operand_expression l op r) = priority.rank (get_priority op).
Proof. now destruct op. Qed.

Lemma rank_bounds p : 0 <= priority.rank p <= 2.
Proof. destruct p; cbn; lia. Qed.

Lemma level_bounds e : 1 <= level e <= 3.
Proof. destruct e; cbn; lia. Qed.

Lemma well_nested_create l op r :
  well_nested l = true -> well_nested r = true ->
  priority.rank (get_priority op) <= level l ->
  priority.rank (get_priority op) < level r ->
  well_nested (create_two_operand_expression l op r) = true.
Proof.
  intros Hl Hr Hll Hlr.
  destruct op; cbn [create_two_operand_expression well_nested level get_priority
                      priority.rank] in *;
    rewrite Hl, Hr; cbn [andb];
    (apply andb_true_iff; split; [apply Z.leb_le | apply Z.ltb_lt]; assumption).
Qed.

Lemma priority_leb_false a b :
  priority.leb a b = false -> priority.rank b < priority.rank a.
Proof. unfold priority.leb. intros H. apply Z.leb_gt in H. exact H. Qed.

Lemma priority_leb_true a b :
  priority.leb a b = true -> priority.rank a <= priority.rank b.
Proof. unfold priority.leb. intros H. now apply Z.leb_le in H. Qed.

(** What [parse_range] returns is well nested, binds tighter than the
    parent priority, and stops where the parent takes over. *)
Lemma parse_well_nested (fuel : nat) :
  (forall s e p r,
     parse_range_fuel tokens fuel s e p = Ok r ->
     well_nested r = true /\ priority.rank p < level r /\
     stops_at tokens s e (priority.rank p) r) /\
  (forall s e p r0 r,
     well_nested r0 = true -> priority.rank p < level r0 ->
     (level r0 = 3 \/ stops_at tokens s e (level r0) r0) ->
     parse_range_loop_fuel tokens fuel s e p (e - s + 1) r0 (consumed_tokens r0)
       = Ok r ->
     well_nested r = true /\ priority.rank p < level r /\
     stops_at tokens s e (priority.rank p) r) /\
  (forall s e r,
     parse_operand_fuel tokens fuel s e = Ok r ->
     well_nested r = true /\ level r = 3) /\
  (forall s e r,
     parse_parentheses_fuel tokens fuel s e = Ok r ->
     well_nested r = true /\ level r = 3).
Proof.
  induction fuel as [|fuel (IHr & IHl & IHo & IHp)].
  - split; [|split; [|split]]; intros; discriminate.
  - split; [|split; [|split]].
    + intros s e p r H. cbn [parse_range_fuel] in H.
      apply bind_Ok in H. destruct H as (r0 & H0 & H).
      apply IHo in H0. destruct H0 as [Hw Hlv].
      eapply IHl; [exact Hw | | left; exact Hlv | exact H].
      pose proof (rank_bounds p). lia.
    + intros s e p r0 r Hw Hp Hstop H. cbn [parse_range_loop_fuel] in H.
      destruct (Z.gtb_spec (e - s + 1) (consumed_tokens r0)) as [Hgt|Hle].
      2:{ injection H as <-. repeat split; try assumption. left. lia. }
      apply bind_Ok in H. destruct H as (t & Ht & H).
      apply bind_Ok in H. destruct H as (op & Hop & H).
      destruct (priority.leb (get_priority op) p) eqn:Hleb.
      { injection H as <-. repeat split; try assumption. right.
        exists t, op. repeat split; try assumption.
        now apply priority_leb_true. }
      apply priority_leb_false in Hleb.
      apply bind_Ok in H. destruct H as (r' & Hr' & H).
      apply IHr in Hr'. destruct Hr' as (Hw' & Hlv' & Hstop').
      eapply IHl; [| | |exact H].
      * apply well_nested_create; try assumption.
        destruct Hstop as [H3|[Hend|(t0 & op0 & Ht0 & Hop0 & Hrk)]].
        -- pose proof (rank_bounds (get_priority op)). lia.
        -- lia.
        -- rewrite Ht in Ht0. injection Ht0 as <-.
           rewrite Hop in Hop0. injection Hop0 as <-. exact Hrk.
      * now rewrite level_create.
      * right. unfold stops_at. rewrite level_create, consumed_tokens_create.
        destruct Hstop' as [Hend|(t0 & op0 & Ht0 & Hop0 & Hrk)].
        -- left. lia.
        -- right. exists t0, op0. repeat split; try assumption.
           now replace (s + (consumed_tokens r0 + consumed_tokens r' + 1))
             with (s + (consumed_tokens r0 + 1) + consumed_tokens r') by lia.
    + intros s e r H. cbn [parse_operand_fuel] in H.
      apply bind_Ok in H. destruct H as (t & Ht & H).
      destruct (type t) eqn:Hty; try discriminate.
      * apply bind_Ok in H. destruct H as (v & _ & H). injection H as <-.
        now split.
      * eauto.
      * destruct (s =? e); [discriminate|].
        apply bind_Ok in H. destruct H as (c & Hc & H). injection H as <-.
        apply IHo in Hc. destruct Hc as [Hw Hlv].
        split; [|reflexivity]. cbn [well_nested]. rewrite Hw, Hlv. reflexivity.
    + intros s e r H. cbn [parse_parentheses_fuel] in H.
      apply bind_Ok in H. destruct H as (i & Hi & H).
      destruct (i =? -1); [destruct (tokens_at tokens s); discriminate|].
      destruct (i =? s + 1); [destruct (tokens_at tokens s); discriminate|].
      apply bind_Ok in H. destruct H as (c & Hc & H). injection H as <-.
      apply IHr in Hc. destruct Hc as (Hw & _). now split.
Qed.

Lemma parse_tokens_well_nested r :
  parse_tokens tokens = Ok r -> well_nested r = true.
Proof.
  unfold parse_tokens. destruct tokens eqn:E; [discriminate|]. rewrite <- E.
  unfold parse_range. intros H. now apply (proj1 (parse_well_nested _)) in H.
Qed.

End WellNested.

(** ** Every well-nested expression is parsed back from its tokens *)

Section Completeness.
Import Lexer Parser.
Variable tokens : list token.

Lemma app_inj_length {A : Type} (l1 l1' l2 l2' : list A) :
  l1 ++ l2 = l1' ++ l2' -> length l1 = length l1' -> l1 = l1' /\ l2 = l2'.
Proof.
  revert l1'. induction l1 as [|x l1 IH]; intros [|y l1'] H Hlen;
    try discriminate; [now split|].
  cbn [app] in H. injection H as -> H. cbn [length] in Hlen.
  destruct (IH l1' H) as [-> ->]; [lia | now split].
Qed.

Lemma slice_length s n : (length (slice tokens s n) <= Z.to_nat n)%nat.
Proof. unfold slice. rewrite length_firstn. lia. Qed.

Lemma spelled_split s a b la lb :
  0 <= s -> 0 <= a -> 0 <= b ->
  Z.of_nat (length la) = a -> Z.of_nat (length lb) = b ->
  map erase (slice tokens s (a + b)) = la ++ lb ->
  map erase (slice tokens s a) = la /\ map erase (slice tokens (s + a) b) = lb.
Proof.
  intros Hs Ha Hb Hla Hlb H. rewrite slice_split, map_app in H by assumption.
  apply app_inj_length; [exact H|].
  apply (f_equal (@length _)) in H. rewrite !length_app, !length_map in H.
  rewrite length_map.
  pose proof (slice_length s a). pose proof (slice_length (s + a) b). lia.
Qed.

Lemma spelled_one s k :
  0 <= s -> map erase (slice tokens s 1) = [k] ->
  exists t, tokens_at tokens s = Ok t /\ erase t = k.
Proof.
  intros Hs H. unfold slice in H. change (Z.to_nat 1) with 1%nat in H.
  destruct (skipn (Z.to_nat s) tokens) as [|t l] eqn:E; [discriminate|].
  apply tokens_at_skipn in E; [|assumption]. destruct E as [Ht _].
  exists t. split; [exact Ht|]. cbn in H. now injection H.
Qed.

Lemma erase_symbol t ty :
  erase t = symbol ty -> type t = ty.
Proof. unfold erase, symbol. now intros [= ->]. Qed.

Lemma spells_number_inv s v :
  spells tokens s (number v) ->
  exists t, tokens_at tokens s = Ok t /\ type t = token_type.number /\ _value t = v.
Proof.
  intros [Hs H]. cbn [consumed_tokens yield] in H.
  apply spelled_one in H; [|assumption]. destruct H as (t & Ht & He).
  exists t. split; [exact Ht|]. unfold erase in He. injection He as Hty Hv.
  rewrite Hty in Hv. split; [assumption | now injection Hv].
Qed.

Lemma spelled_cons s ty l n :
  0 <= s -> 0 <= n -> Z.of_nat (length l) = n ->
  map erase (slice tokens s (1 + n)) = symbol ty :: l ->
  (exists t, tokens_at tokens s = Ok t /\ type t = ty) /\
  map erase (slice tokens (s + 1) n) = l.
Proof.
  intros Hs Hn Hl H.
  apply (spelled_split s 1 n [symbol ty] l) in H; try assumption; try lia;
    [|reflexivity].
  destruct H as [H1 H2]. split; [|exact H2].
  apply spelled_one in H1; [|assumption]. destruct H1 as (t & Ht & He).
  exists t. split; [exact Ht | now apply erase_symbol].
Qed.

Lemma spells_negative_inv s c :
  spells tokens s (negative c) ->
  (exists t, tokens_at tokens s = Ok t /\ type t = token_type.minus) /\
  spells tokens (s + 1) c.
Proof.
  intros [Hs H]. cbn [consumed_tokens yield] in H.
  pose proof (consumed_tokens_pos c).
  replace (consumed_tokens c + 1) with (1 + consumed_tokens c) in H by lia.
  apply spelled_cons in H; try lia; [|apply yield_length].
  destruct H as [H1 H2]. split; [exact H1|]. split; [lia | exact H2].
Qed.

Lemma spells_parentheses_inv s c :
  spells tokens s (parentheses c) ->
  (exists t, tokens_at tokens s = Ok t /\
             type t = token_type.opening_parenthesis) /\
  spells tokens (s + 1) c /\
  (exists t, tokens_at tokens (s + 1 + consumed_tokens c) = Ok t /\
             type t = token_type.closing_parenthesis).
Proof.
  intros [Hs H]. cbn [consumed_tokens yield] in H.
  pose proof (consumed_tokens_pos c).
  replace (consumed_tokens c + 2) with (1 + (consumed_tokens c + 1)) in H by lia.
  apply spelled_cons in H; try lia.
  2:{ rewrite length_app, Nat2Z.inj_add, yield_length. reflexivity. }
  destruct H as [H1 H2]. split; [exact H1|].
  apply spelled_split in H2; try lia; [|apply yield_length | reflexivity].
  destruct H2 as [H2 H3]. split; [split; [lia | exact H2]|].
  apply spelled_one in H3; [|lia]. destruct H3 as (t & Ht & He).
  exists t. split; [exact Ht | now apply erase_symbol].
Qed.

Lemma yield_create l op r :
  yield (create_two_operand_expression l op r)
  = yield l ++ symbol (operator_token_type op) :: yield r.
Proof. now destruct op. Qed.

Lemma spells_binary_inv s l op r :
  spells tokens s (create_two_operand_expression l op r) ->
  spells tokens s l /\
  (exists t, tokens_at tokens (s + consumed_tokens l) = Ok t /\
             parse_operator t = Ok op) /\
  spells tokens (s + (consumed_tokens l + 1)) r.
Proof.
  intros [Hs H]. rewrite consumed_tokens_create, yield_create in H.
  pose proof (consumed_tokens_pos l) as Hcl.
  pose proof (consumed_tokens_pos r) as Hcr.
  replace (consumed_tokens l + consumed_tokens r + 1)
    with (consumed_tokens l + (1 + consumed_tokens r)) in H by lia.
  apply spelled_split in H; try lia; [|apply yield_length|].
  2:{ cbn [length]. rewrite Nat2Z.inj_succ, yield_length. lia. }
  destruct H as [H1 H2]. split; [split; assumption|].
  apply spelled_cons in H2; try lia; [|apply yield_length].
  destruct H2 as [(t & Ht & Hty) H3]. split.
  - exists t. split; [exact Ht|]. unfold parse_operator. rewrite Hty.
    now destruct op.
  - split; [lia|]. now replace (s + (consumed_tokens l + 1))
      with (s + consumed_tokens l + 1) by lia.
Qed.


(** *** Scanning for a closing parenthesis skips whole expressions *)

Lemma find_closing_from_step k i d t :
  tokens_at tokens i = Ok t ->
  type t <> token_type.opening_parenthesis ->
  type t <> token_type.closing_parenthesis ->
  find_closing_from tokens (S k) i d = find_closing_from tokens k (i + 1) d.
Proof.
  intros Ht H1 H2. cbn [find_closing_from]. rewrite Ht. cbn [bind].
  destruct (type t); congruence.
Qed.

Lemma find_closing_from_skips e : forall k i d,
  0 <= d -> spells tokens i e ->
  find_closing_from tokens (Z.to_nat (consumed_tokens e) + k) i d
  = find_closing_from tokens k (i + consumed_tokens e) d.
Proof.
  assert (Hbin : forall l op r,
    (forall k i d, 0 <= d -> spells tokens i l ->
       find_closing_from tokens (Z.to_nat (consumed_tokens l) + k) i d
       = find_closing_from tokens k (i + consumed_tokens l) d) ->
    (forall k i d, 0 <= d -> spells tokens i r ->
       find_closing_from tokens (Z.to_nat (consumed_tokens r) + k) i d
       = find_closing_from tokens k (i + consumed_tokens r) d) ->
    forall k i d, 0 <= d ->
      spells tokens i (create_two_operand_expression l op r) ->
      find_closing_from tokens
        (Z.to_nat (consumed_tokens (create_two_operand_expression l op r)) + k) i d
      = find_closing_from tokens k
          (i + consumed_tokens (create_two_operand_expression l op r)) d).
  { intros l op r IHl IHr k i d Hd H. apply spells_binary_inv in H.
    destruct H as (Hl & (t & Ht & Hop) & Hr). rewrite consumed_tokens_create.
    pose proof (consumed_tokens_pos l). pose proof (consumed_tokens_pos r).
    replace (Z.to_nat (consumed_tokens l + consumed_tokens r + 1) + k)%nat
      with (Z.to_nat (consumed_tokens l)
            + S (Z.to_nat (consumed_tokens r) + k))%nat by lia.
    rewrite IHl by assumption.
    rewrite (find_closing_from_step _ _ _ t Ht).
    - replace (i + consumed_tokens l + 1) with (i + (consumed_tokens l + 1)) by lia.
      rewrite IHr by assumption. f_equal. lia.
    - unfold parse_operator in Hop. destruct (type t); discriminate.
    - unfold parse_operator in Hop. destruct (type t); discriminate. }
  induction e as [l IHl r IHr|l IHl r IHr|l IHl r IHr|l IHl r IHr|c IH|v|c IH].
  - exact (Hbin l _operator.plus r IHl IHr).
  - exact (Hbin l _operator.minus r IHl IHr).
  - exact (Hbin l _operator.multiply r IHl IHr).
  - exact (Hbin l _operator.divide r IHl IHr).
  - intros k i d Hd H. apply spells_parentheses_inv in H.
    destruct H as ((t & Ht & Hty) & Hc & (t' & Ht' & Hty')).
    pose proof (consumed_tokens_pos c). cbn [consumed_tokens].
    replace (Z.to_nat (consumed_tokens c + 2) + k)%nat
      with (S (Z.to_nat (consumed_tokens c) + S k)) by lia.
    cbn [find_closing_from]. rewrite Ht. cbn [bind]. rewrite Hty.
    rewrite IH by (assumption || lia).
    cbn [find_closing_from]. rewrite Ht'. cbn [bind]. rewrite Hty'.
    destruct (Z.eqb_spec (d + 1) 0); [lia|].
    destruct (Z.gtb_spec (d + 1) 0); [|lia]. f_equal; lia.
  - intros k i d Hd H. apply spells_number_inv in H.
    destruct H as (t & Ht & Hty & _). cbn [consumed_tokens].
    change (Z.to_nat 1 + k)%nat with (S k).
    apply (find_closing_from_step _ _ _ t Ht); rewrite Hty; discriminate.
  - intros k i d Hd H. apply spells_negative_inv in H.
    destruct H as ((t & Ht & Hty) & Hc).
    pose proof (consumed_tokens_pos c). cbn [consumed_tokens].
    replace (Z.to_nat (consumed_tokens c + 1) + k)%nat
      with (S (Z.to_nat (consumed_tokens c) + k)) by lia.
    rewrite (find_closing_from_step _ _ _ t Ht) by (rewrite Hty; discriminate).
    rewrite IH by assumption. f_equal. lia.
Qed.

Lemma find_closing_parenthesis_matches s e c :
  spells tokens (s + 1) c ->
  (exists t, tokens_at tokens (s + 1 + consumed_tokens c) = Ok t /\
             type t = token_type.closing_parenthesis) ->
  s + 1 + consumed_tokens c <= e ->
  find_closing_parenthesis tokens (s + 1) e = Ok (s + 1 + consumed_tokens c).
Proof.
  intros Hc (t & Ht & Hty) He. unfold find_closing_parenthesis.
  pose proof (consumed_tokens_pos c).
  replace (Z.to_nat (e - (s + 1) + 1))
    with (Z.to_nat (consumed_tokens c)
          + S (Z.to_nat (e - s - consumed_tokens c - 1)))%nat by lia.
  rewrite find_closing_from_skips by (assumption || lia).
  cbn [find_closing_from]. rewrite Ht. cbn [bind]. now rewrite Hty.
Qed.


(** *** The descent rebuilds a well-nested expression *)

Lemma well_nested_create_inv l op r :
  well_nested (create_two_operand_expression l op r) = true ->
  well_nested l = true /\ well_nested r = true /\
  priority.rank (get_priority op) <= level l /\
  priority.rank (get_priority op) < level r.
Proof.
  destruct op; cbn [create_two_operand_expression well_nested level get_priority
                      priority.rank];
    intros H; repeat (apply andb_true_iff in H; destruct H as [H ?]);
    repeat split; try assumption;
    solve [now apply Z.leb_le | now apply Z.ltb_lt].
Qed.

Lemma range_rebuilt e s end_ p :
  loop_reached tokens e ->
  well_nested e = true -> priority.rank p < level e -> spells tokens s e ->
  s + consumed_tokens e <= end_ + 1 ->
  stops_at tokens s end_ (priority.rank p) e ->
  parse_range tokens s end_ p = Ok e.
Proof.
  intros Hreach Hw Hp Hs Hfit Hstop. rewrite Hreach; try assumption.
  - rewrite parse_range_loop_eq.
    destruct (Z.gtb_spec (end_ - s + 1) (consumed_tokens e)); [|reflexivity].
    destruct Hstop as [Hend|(t & op & Ht & Hop & Hrk)]; [lia|].
    rewrite Ht. cbn [bind]. rewrite Hop. cbn [bind].
    unfold priority.leb. destruct (Z.leb_spec (priority.rank (get_priority op))
                                     (priority.rank p)); [reflexivity | lia].
  - right. destruct Hstop as [Hend|(t & op & Ht & Hop & Hrk)]; [now left|].
    right. exists t, op. repeat split; try assumption. lia.
Qed.

Lemma loop_reached_operand e :
  operand_rebuilt tokens e -> level e = 3 -> loop_reached tokens e.
Proof.
  intros Hop Hlv s end_ p Hw Hp Hs Hfit _.
  rewrite parse_range_eq, (Hop s end_) by assumption. reflexivity.
Qed.

Lemma loop_reached_binary l op r :
  loop_reached tokens l -> loop_reached tokens r ->
  loop_reached tokens (create_two_operand_expression l op r).
Proof.
  intros IHl IHr s end_ p Hw Hp Hs Hfit Hfollow.
  apply well_nested_create_inv in Hw. destruct Hw as (Hwl & Hwr & Hll & Hlr).
  apply spells_binary_inv in Hs. destruct Hs as (Hsl & (t & Ht & Hop) & Hsr).
  rewrite level_create in *. rewrite consumed_tokens_create in *.
  pose proof (consumed_tokens_pos l) as Hcl.
  pose proof (consumed_tokens_pos r) as Hcr.
  rewrite IHl; try assumption; try lia.
  2:{ right. right. exists t, op. now repeat split. }
  rewrite parse_range_loop_eq.
  destruct (Z.gtb_spec (end_ - s + 1) (consumed_tokens l)); [|lia].
  rewrite Ht. cbn [bind]. rewrite Hop. cbn [bind].
  unfold priority.leb at 1.
  destruct (Z.leb_spec (priority.rank (get_priority op)) (priority.rank p));
    [lia|].
  rewrite (range_rebuilt r); try assumption; try lia.
  - cbn [bind]. now rewrite consumed_tokens_create.
  - pose proof (rank_bounds (get_priority op)) as Hrb.
    unfold stops_at in Hfollow.
    rewrite ?level_create, ?consumed_tokens_create in Hfollow.
    destruct Hfollow as [H3|[Hend|(t' & op' & Ht' & Hop' & Hrk)]]; [lia| |].
    + left. lia.
    + right. exists t', op'. repeat split; try assumption.
      now replace (s + (consumed_tokens l + 1) + consumed_tokens r)
        with (s + (consumed_tokens l + consumed_tokens r + 1)) by lia.
Qed.

Lemma expression_rebuilt e : operand_rebuilt tokens e /\ loop_reached tokens e.
Proof.
  induction e as [l [_ IHl] r [_ IHr]|l [_ IHl] r [_ IHr]|l [_ IHl] r [_ IHr]
                 |l [_ IHl] r [_ IHr]|c [_ IHc]|v|c [IHc _]].
  - split; [intros s end_ _ H; discriminate H|].
    exact (loop_reached_binary l _operator.plus r IHl IHr).
  - split; [intros s end_ _ H; discriminate H|].
    exact (loop_reached_binary l _operator.minus r IHl IHr).
  - split; [intros s end_ _ H; discriminate H|].
    exact (loop_reached_binary l _operator.multiply r IHl IHr).
  - split; [intros s end_ _ H; discriminate H|].
    exact (loop_reached_binary l _operator.divide r IHl IHr).
  - assert (Hop : operand_rebuilt tokens (parentheses c)).
    { intros s end_ Hw _ Hs Hfit. cbn [well_nested consumed_tokens] in *.
      apply spells_parentheses_inv in Hs.
      destruct Hs as ((t & Ht & Hty) & Hc & Hclose).
      pose proof (consumed_tokens_pos c).
      rewrite parse_operand_eq, Ht. cbn [bind]. rewrite Hty.
      rewrite parse_parentheses_eq.
      rewrite (find_closing_parenthesis_matches s end_ c) by (assumption || lia).
      cbn [bind].
      destruct (Z.eqb_spec (s + 1 + consumed_tokens c) (-1));
        [apply tokens_at_Ok in Ht; lia|].
      destruct (Z.eqb_spec (s + 1 + consumed_tokens c) (s + 1)); [lia|].
      rewrite (range_rebuilt c); try assumption; try reflexivity.
      - pose proof (level_bounds c). cbn. lia.
      - lia.
      - left. lia. }
    split; [exact Hop | now apply loop_reached_operand].
  - assert (Hop : operand_rebuilt tokens (number v)).
    { intros s end_ _ _ Hs _. apply spells_number_inv in Hs.
      destruct Hs as (t & Ht & Hty & <-). now apply parse_operand_number. }
    split; [exact Hop | now apply loop_reached_operand].
  - assert (Hop : operand_rebuilt tokens (negative c)).
    { intros s end_ Hw _ Hs Hfit. cbn [well_nested consumed_tokens] in *.
      apply andb_true_iff in Hw. destruct Hw as [Hw Hlv].
      apply Z.eqb_eq in Hlv.
      apply spells_negative_inv in Hs. destruct Hs as ((t & Ht & Hty) & Hc).
      pose proof (consumed_tokens_pos c).
      rewrite parse_operand_eq, Ht. cbn [bind]. rewrite Hty.
      destruct (Z.eqb_spec s end_); [lia|].
      rewrite (IHc (s + 1) end_) by (assumption || lia). reflexivity. }
    split; [exact Hop | now apply loop_reached_operand].
Qed.

Lemma parse_tokens_rebuilt e :
  well_nested e = true -> map erase tokens = yield e ->
  parse_tokens tokens = Ok e.
Proof.
  intros Hw Hy.
  assert (Hlen : size tokens = consumed_tokens e).
  { unfold size. rewrite <- yield_length, <- Hy, length_map. reflexivity. }
  pose proof (consumed_tokens_pos e).
  unfold parse_tokens. destruct tokens as [|t0 l0] eqn:E;
    [unfold size in Hlen; cbn in Hlen; lia|].
  rewrite <- E in *.
  apply range_rebuilt; try assumption.
  - apply expression_rebuilt.
  - pose proof (level_bounds e). cbn. lia.
  - split; [lia|]. rewrite <- Hlen, slice_all. exact Hy.
  - lia.
  - left. lia.
Qed.

End Completeness.

(** ** The tokenizer works piece by piece *)

Section Pieces.
Import Lexer Parser.

Lemma shift_zero t : shift_token 0 t = t.
Proof. destruct t as [ty p v]. unfold shift_token. cbn. f_equal. lia. Qed.

Lemma map_shift_zero tokens : map (shift_token 0) tokens = tokens.
Proof.
  induction tokens as [|t l IH]; [reflexivity|].
  cbn [map]. now rewrite shift_zero, IH.
Qed.

Lemma erase_shift d t : erase (shift_token d t) = erase t.
Proof. reflexivity. Qed.

Lemma map_erase_shift d tokens :
  map erase (map (shift_token d) tokens) = map erase tokens.
Proof. rewrite map_map. apply map_ext. intros t. apply erase_shift. Qed.

Lemma shift_snoc d before tokens ty p v :
  (before ++ map (shift_token d) tokens) ++ [mk_token ty (p + d) v]
  = before ++ map (shift_token d) (tokens ++ [mk_token ty p v]).
Proof. now rewrite map_app, app_assoc. Qed.

Lemma symbol_token_shift c i d before tokens :
  symbol_token c (i + d) (before ++ map (shift_token d) tokens)
  = shift_outcome d before (symbol_token c i tokens).
Proof.
  unfold symbol_token, mk_symbol.
  repeat (destruct (Ascii.eqb c _);
          [cbn [shift_outcome]; rewrite ?shift_snoc; reflexivity|]).
  reflexivity.
Qed.

Lemma parse_number_shift number start d :
  parse_number number (start + d)
  = match parse_number number start with
    | ParseError position message => ParseError (position + d) message
    | r => r
    end.
Proof. rewrite !parse_number_spec. now destruct (_ && _). Qed.

(** Tokenizing from a later index moves the tokens and the errors. *)
Lemma tokenize_from_shift formula d before : forall i tokens nt ns,
  tokenize_from formula (i + d) (before ++ map (shift_token d) tokens) nt (ns + d)
  = shift_outcome d before (tokenize_from formula i tokens nt ns).
Proof.
  induction formula as [|c rest IH]; intros i tokens nt ns; [reflexivity|].
  cbn [tokenize_from]. destruct (is_numeric c).
  - set (start := match nt with [] => i | _ => ns end).
    replace (match nt with [] => i + d | _ => ns + d end) with (start + d)
      by (subst start; now destruct nt).
    replace (i + d + 1) with (i + 1 + d) by lia.
    destruct rest as [|c' rest']; [|apply IH].
    rewrite parse_number_shift.
    destruct (parse_number (nt ++ [c]) start); cbn [bind tokenize_from shift_outcome];
      try reflexivity.
    now rewrite shift_snoc.
  - replace (i + d + 1) with (i + 1 + d) by lia.
    destruct nt as [|n nt'].
    + rewrite symbol_token_shift.
      destruct (symbol_token c i tokens); cbn [bind shift_outcome];
        try reflexivity.
      apply IH.
    + rewrite parse_number_shift.
      destruct (parse_number (n :: nt') ns); cbn [bind shift_outcome];
        try reflexivity.
      rewrite shift_snoc, symbol_token_shift.
      destruct (symbol_token c i _); cbn [bind shift_outcome]; try reflexivity.
      apply IH.
Qed.

Lemma tokenize_from_moved formula i tokens ns :
  tokenize_from formula i tokens [] ns
  = shift_outcome i tokens (tokenize_from formula 0 [] [] 0).
Proof.
  rewrite <- tokenize_from_shift. cbn [map]. rewrite app_nil_r.
  rewrite Z.add_0_l. apply tokenize_from_number_start.
Qed.

(** The loop of [tokenize] up to and including a character that belongs to
    no number. *)
Lemma tokenize_from_symbol a c b : forall i tokens nt ns ns',
  is_numeric c = false ->
  (a = [] -> nt = []) ->
  tokenize_from (a ++ c :: b) i tokens nt ns
  = (tokens <- tokenize_from a i tokens nt ns ;;
     tokens <- symbol_token c (i + Z.of_nat (length a)) tokens ;;
     tokenize_from b (i + Z.of_nat (length a) + 1) tokens [] ns').
Proof.
  induction a as [|x a IH]; intros i tokens nt ns ns' Hc Hnt.
  - rewrite (Hnt eq_refl). cbn [app length tokenize_from bind]. rewrite Hc.
    replace (i + Z.of_nat 0) with i by lia.
    apply bind_ext. intros tokens'. apply tokenize_from_number_start.
  - replace (i + Z.of_nat (length (x :: a))) with (i + 1 + Z.of_nat (length a))
      by (cbn [length]; lia).
    cbn [app tokenize_from]. destruct (is_numeric x).
    + destruct a as [|y a'].
      * cbn [app length tokenize_from]. rewrite Hc.
        replace (i + 1 + Z.of_nat 0) with (i + 1) by lia.
        destruct (nt ++ [x]) as [|n l] eqn:E;
          [now destruct nt|].
        rewrite bind_assoc. apply bind_ext. intros v. cbn [bind].
        apply bind_ext. intros tokens'. apply tokenize_from_number_start.
      * apply IH; [exact Hc | discriminate].
    + destruct nt as [|n nt'].
      * rewrite bind_assoc. apply bind_ext. intros tokens'.
        apply IH; [exact Hc | reflexivity].
      * rewrite !bind_assoc. apply bind_ext. intros v.
        rewrite bind_assoc. apply bind_ext. intros tokens'.
        apply IH; [exact Hc | reflexivity].
Qed.

(** [tokenize] splits at every character that belongs to no number. *)
Lemma tokenize_split a c b :
  is_numeric c = false ->
  tokenize_characters (a ++ c :: b)
  = (tokens <- tokenize_characters a ;;
     tokens <- symbol_token c (Z.of_nat (length a)) tokens ;;
     shift_outcome (Z.of_nat (length a) + 1) tokens (tokenize_characters b)).
Proof.
  intros Hc. unfold tokenize_characters, tokenize.
  rewrite !list_ascii_of_string_of_list.
  rewrite (tokenize_from_symbol a c b 0 [] [] 0 0) by auto.
  apply bind_ext. intros ta. rewrite Z.add_0_l.
  apply bind_ext. intros tc. apply tokenize_from_moved.
Qed.

End Pieces.

(** ** Formulas built from formulas *)

Section Formulas.
Import Lexer Parser.

Lemma symbol_token_accepts c i tokens :
  is_symbol c = true ->
  exists tokens', symbol_token c i tokens = Ok tokens' /\
    map erase tokens' = map erase tokens ++ symbol_kind c.
Proof.
  unfold is_symbol, symbol_kind, symbol_token, mk_symbol.
  repeat (destruct (Ascii.eqb c _);
          [intros _; eexists; split; [reflexivity|];
           rewrite ?map_app, ?app_nil_r; reflexivity|]).
  discriminate.
Qed.

Lemma symbol_token_rejects c i tokens :
  is_symbol c = false ->
  symbol_token c i tokens = ParseError i "Unexpected symbol".
Proof.
  unfold is_symbol, symbol_token.
  repeat (destruct (Ascii.eqb c _); [discriminate|]). reflexivity.
Qed.

Lemma kinds_split a c b :
  is_numeric c = false ->
  kinds (a ++ c :: b)
  = match kinds a, is_symbol c, kinds b with
    | Some ka, true, Some kb => Some (ka ++ symbol_kind c ++ kb)
    | _, _, _ => None
    end.
Proof.
  intros Hc. unfold kinds. rewrite tokenize_split by exact Hc.
  destruct (tokenize_characters a) as [ta| | | |]; cbn [bind]; try reflexivity.
  destruct (is_symbol c) eqn:Es.
  - destruct (symbol_token_accepts c (Z.of_nat (length a)) ta Es)
      as (tc & -> & Hk). cbn [bind].
    destruct (tokenize_characters b); cbn [shift_outcome]; try reflexivity.
    now rewrite map_app, map_erase_shift, Hk, app_assoc.
  - now rewrite symbol_token_rejects.
Qed.

Lemma kinds_nil : kinds [] = Some [].
Proof. reflexivity. Qed.

Lemma parse_tokens_erased tokens tokens' e :
  map erase tokens = map erase tokens' ->
  parse_tokens tokens = Ok e -> parse_tokens tokens' = Ok e.
Proof.
  intros Hk H. apply parse_tokens_rebuilt.
  - eapply parse_tokens_well_nested, H.
  - rewrite <- Hk. now apply parse_tokens_spells.
Qed.

Lemma tokenize_characters_string formula :
  tokenize_characters (list_ascii_of_string formula) = tokenize formula.
Proof.
  unfold tokenize_characters. now rewrite string_of_list_ascii_of_string.
Qed.

Lemma parse_kinds formula e :
  parse formula = Ok e <->
  kinds (list_ascii_of_string formula) = Some (yield e) /\ well_nested e = true.
Proof.
  unfold parse, kinds. rewrite tokenize_characters_string. split.
  - intros H. apply bind_Ok in H. destruct H as (tokens & -> & H). split.
    + f_equal. now apply parse_tokens_spells.
    + eapply parse_tokens_well_nested, H.
  - intros [Hk Hw]. destruct (tokenize formula) as [tokens| | | |];
      try discriminate.
    injection Hk as Hk. cbn [bind]. now apply parse_tokens_rebuilt.
Qed.

Lemma calculate_kinds formula v :
  calculate formula = Ok v <->
  exists e, kinds (list_ascii_of_string formula) = Some (yield e) /\
            well_nested e = true /\ calc e = v.
Proof.
  unfold calculate. split.
  - intros H. apply bind_Ok in H. destruct H as (e & He & H).
    injection H as <-. exists e. apply parse_kinds in He. tauto.
  - intros (e & Hk & Hw & <-).
    assert (He : parse formula = Ok e) by (apply parse_kinds; tauto).
    now rewrite He.
Qed.

Lemma list_ascii_of_string_app s s' :
  list_ascii_of_string (s ++ s')
  = list_ascii_of_string s ++ list_ascii_of_string s'.
Proof. induction s as [|c s IH]; cbn; [reflexivity | now rewrite IH]. Qed.

End Formulas.

(** ** Where the tokenizer fails, and where its tokens come from *)

Section TokenizerPlaces.
Import Lexer Parser.

Lemma symbol_token_outcome c i tokens :
  (is_symbol c = false /\
   symbol_token c i tokens = ParseError i "Unexpected symbol") \/
  (is_symbol c = true /\
   (symbol_token c i tokens = Ok tokens \/
    exists ty, symbol_token c i tokens = Ok (tokens ++ [mk_symbol ty i]) /\
               begins c ty = true)).
Proof.
  unfold is_symbol, symbol_token.
  destruct (Ascii.eqb c " "); [right; split; [reflexivity|now left]|].
  repeat (match goal with
          | |- context [Ascii.eqb c ?x] => destruct (Ascii.eqb c x) eqn:?E
          end;
          [right; split; [reflexivity|]; right; eexists;
           split; [reflexivity|]; cbn [begins]; assumption|]).
  left. split; reflexivity.
Qed.

Lemma failure_explained_later c rest i nt nt' ns ns' r :
  failure_explained rest (i + 1) nt' ns' r ->
  (nt' <> [] ->
   (nt <> [] /\ ns' = ns) \/ (ns' = i /\ is_numeric c = true)) ->
  failure_explained (c :: rest) i nt ns r.
Proof.
  destruct r as [ts|p m| | |]; cbn [failure_explained]; try tauto.
  intros [[Hm Hp]|[Hm [Hi (x & Hx & Hnum)]]] Hnt.
  - left. split; [exact Hm|].
    destruct Hp as [[Hne ->]|[Hi (x & Hx & Hnum)]].
    + destruct (Hnt Hne) as [[Hne' ->]|[-> Hc]]; [left; now split|].
      right. split; [lia|]. exists c. replace (i - i) with 0 by lia.
      split; [reflexivity | exact Hc].
    + right. split; [lia|]. exists x. split; [|exact Hnum].
      replace (Z.to_nat (p - i)) with (S (Z.to_nat (p - (i + 1)))) by lia.
      exact Hx.
  - right. split; [exact Hm|]. split; [lia|]. exists x. split; [|exact Hnum].
    replace (Z.to_nat (p - i)) with (S (Z.to_nat (p - (i + 1)))) by lia.
    exact Hx.
Qed.

Lemma tokenize_from_failure formula : forall i tokens nt ns,
  failure_explained formula i nt ns (tokenize_from formula i tokens nt ns).
Proof.
  induction formula as [|c rest IH]; intros i tokens nt ns; [exact I|].
  cbn [tokenize_from]. destruct (is_numeric c) eqn:Ec.
  - set (start := match nt with [] => i | _ => ns end).
    assert (Hstart : (nt <> [] /\ start = ns) \/ (start = i /\ true = true)).
    { subst start. destruct nt; [right; now split | left; now split]. }
    destruct rest as [|c' rest'].
    + destruct (parse_number_outcome (nt ++ [c]) start) as [[v ->]| ->];
        [exact I|].
      cbn [bind failure_explained]. left. split; [reflexivity|].
      destruct Hstart as [[Hne ->]|[-> _]]; [left; now split|].
      right. split; [lia|]. exists c. replace (i - i) with 0 by lia.
      now split.
    + eapply failure_explained_later; [apply IH|]. intros _.
      rewrite Ec. exact Hstart.
  - destruct nt as [|n nt'].
    + destruct (symbol_token_outcome c i tokens)
        as [[Hs ->]|[Hs [->|(ty & -> & _)]]]; cbn [bind].
      * right. split; [reflexivity|]. split; [lia|]. exists c.
        replace (i - i) with 0 by lia. now split.
      * eapply failure_explained_later; [apply IH|]. now intros [].
      * eapply failure_explained_later; [apply IH|]. now intros [].
    + destruct (parse_number_outcome (n :: nt') ns) as [[v ->]| ->];
        cbn [bind].
      * destruct (symbol_token_outcome c i
                    (tokens ++ [mk_token token_type.number ns v]))
          as [[Hs ->]|[Hs [->|(ty & -> & _)]]]; cbn [bind].
        -- right. split; [reflexivity|]. split; [lia|]. exists c.
           replace (i - i) with 0 by lia. now split.
        -- eapply failure_explained_later; [apply IH|]. now intros [].
        -- eapply failure_explained_later; [apply IH|]. now intros [].
      * left. split; [reflexivity|]. left. split; [discriminate|reflexivity].
Qed.

(** *** Tokens in place and in order *)

Lemma ascending_snoc tokens : forall b t,
  ascending b tokens ->
  Forall (fun t' => start_position t' < start_position t) tokens ->
  b < start_position t ->
  ascending b (tokens ++ [t]).
Proof.
  induction tokens as [|x l IH]; intros b t Ha Hl Hb; cbn [app ascending].
  - now split.
  - destruct Ha as [Hx Ha]. inversion Hl; subst. split; [exact Hx|].
    apply IH; assumption.
Qed.

Lemma placed_snoc full b b' tokens t :
  placed full b tokens -> in_place full t ->
  b <= start_position t < b' ->
  placed full b' (tokens ++ [t]).
Proof.
  intros (Hp & Ha & Hb) Ht Hlt. split; [|split].
  - apply Forall_app. split; [exact Hp | now constructor].
  - apply ascending_snoc; [exact Ha | | destruct Ht; lia].
    eapply Forall_impl; [|exact Hb]. cbn. intros; lia.
  - apply Forall_app. split.
    + eapply Forall_impl; [|exact Hb]. cbn. intros; lia.
    + constructor; [lia | constructor].
Qed.

Lemma placed_weaken full b b' tokens :
  placed full b tokens -> b <= b' -> placed full b' tokens.
Proof.
  intros (Hp & Ha & Hb) Hle. split; [exact Hp|]. split; [exact Ha|].
  eapply Forall_impl; [|exact Hb]. cbn. intros; lia.
Qed.

Lemma nth_error_middle (pre : list ascii) c rest :
  nth_error (pre ++ c :: rest) (Z.to_nat (Z.of_nat (length pre))) = Some c.
Proof.
  rewrite Nat2Z.id, nth_error_app2 by lia. now rewrite Nat.sub_diag.
Qed.

Lemma tokenize_from_placed formula : forall pre tokens nt ns result,
  let full := pre ++ formula in
  let i := Z.of_nat (length pre) in
  placed full (match nt with [] => i | _ => ns end) tokens ->
  (nt <> [] ->
   0 <= ns < i /\
   exists c, nth_error full (Z.to_nat ns) = Some c /\ is_numeric c = true) ->
  tokenize_from formula i tokens nt ns = Ok result ->
  placed full (i + Z.of_nat (length formula)) result.
Proof.
  induction formula as [|c rest IH]; intros pre tokens nt ns result full i Hp Hnt H.
  - cbn [tokenize_from] in H. injection H as <-.
    eapply placed_weaken; [exact Hp|]. cbn [length].
    destruct nt; [lia|]. destruct Hnt as [Hns _]; [discriminate | lia].
  - assert (Hfull : full = (pre ++ [c]) ++ rest)
      by (subst full; now rewrite <- app_assoc).
    assert (Hi : i + 1 = Z.of_nat (length (pre ++ [c])))
      by (subst i; rewrite length_app; cbn [length]; lia).
    replace (i + Z.of_nat (length (c :: rest)))
      with (i + 1 + Z.of_nat (length rest)) by (cbn [length]; lia).
    assert (Hc : nth_error full (Z.to_nat i) = Some c)
      by apply nth_error_middle.
    cbn [tokenize_from] in H. destruct (is_numeric c) eqn:Ec.
    + set (start := match nt with [] => i | _ => ns end) in *.
      assert (Hstart : 0 <= start < i + 1 /\
                exists x, nth_error full (Z.to_nat start) = Some x /\
                          is_numeric x = true).
      { subst start. destruct nt as [|n nt'].
        - split; [lia|]. exists c. now split.
        - destruct Hnt as [Hns Hx]; [discriminate|]. split; [lia | exact Hx]. }
      destruct rest as [|c' rest'].
      * apply bind_Ok in H. destruct H as (v & _ & H).
        cbn [tokenize_from] in H. injection H as <-.
        eapply placed_snoc; [exact Hp| |cbn [start_position length]; lia].
        split; [cbn; lia|]. exact (proj2 Hstart).
      * rewrite Hi, Hfull. rewrite Hi in H.
        apply (IH (pre ++ [c]) tokens (nt ++ [c]) start); try exact H.
        -- rewrite <- Hfull. destruct (nt ++ [c]) eqn:E; [now destruct nt|].
           exact Hp.
        -- intros _. rewrite <- Hfull, <- Hi. exact Hstart.
    + assert (Hsym : forall tokens0 tokens1 b,
                placed full b tokens0 -> b <= i ->
                symbol_token c i tokens0 = Ok tokens1 ->
                placed full (i + 1) tokens1).
      { intros tokens0 tokens1 b Hp0 Hb Hs.
        destruct (symbol_token_outcome c i tokens0)
          as [[_ E]|[_ [E|(ty & E & Hty)]]]; rewrite E in Hs; try discriminate;
          injection Hs as <-.
        - eapply placed_weaken; [exact Hp0 | lia].
        - eapply placed_snoc; [exact Hp0| |cbn [start_position mk_symbol]; lia].
          split; [cbn; lia|]. exists c. split; [exact Hc | exact Hty]. }
      destruct nt as [|n nt'].
      * apply bind_Ok in H. destruct H as (tokens1 & Hs & H).
        rewrite Hi, Hfull. rewrite Hi in H.
        apply (IH (pre ++ [c]) tokens1 [] ns); try exact H.
        -- rewrite <- Hfull, <- Hi. eapply Hsym; [exact Hp| |exact Hs]. lia.
        -- now intros [].
      * destruct Hnt as [Hns Hx]; [discriminate|].
        apply bind_Ok in H. destruct H as (v & _ & H).
        apply bind_Ok in H. destruct H as (tokens1 & Hs & H).
        rewrite Hi, Hfull. rewrite Hi in H.
        apply (IH (pre ++ [c]) tokens1 [] ns); try exact H.
        -- rewrite <- Hfull, <- Hi.
           eapply (Hsym _ _ (ns + 1)); [|lia|exact Hs].
           eapply placed_snoc; [exact Hp| |cbn [start_position]; lia].
           split; [cbn; lia|]. exact Hx.
        -- now intros [].
Qed.

End TokenizerPlaces.

(** ** Where the parser fails after a complete expression *)

Section Localisation.
Import Lexer Parser.
Variable tokens : list token.

Lemma bind_stuck {A : Type} (F : outcome A) (k : A -> outcome A) :
  (forall r, F <> Ok r) -> bind F k = F.
Proof. destruct F; intros H; try reflexivity. now destruct (H a). Qed.

Lemma parse_operator_rejects t :
  is_operator (type t) = false ->
  parse_operator t
  = ParseError (start_position t) "Unexpected token: operator needed".
Proof. unfold parse_operator. now destruct (type t). Qed.

Lemma leb_rank a b :
  priority.leb a b = false <-> priority.rank b < priority.rank a.
Proof. unfold priority.leb. destruct (Z.leb_spec (priority.rank a) (priority.rank b)); split; (lia || discriminate || reflexivity). Qed.

(** After a complete expression, a token that is no operator is rejected. *)
Lemma operator_needed e : forall s end_ p t,
  well_nested e = true -> priority.rank p < level e -> spells tokens s e ->
  s + consumed_tokens e <= end_ ->
  tokens_at tokens (s + consumed_tokens e) = Ok t ->
  is_operator (type t) = false ->
  parse_range tokens s end_ p
  = ParseError (start_position t) "Unexpected token: operator needed".
Proof.
  assert (Hoperand : forall e, level e = 3 -> forall s end_ p t,
    well_nested e = true -> priority.rank p < level e -> spells tokens s e ->
    s + consumed_tokens e <= end_ ->
    tokens_at tokens (s + consumed_tokens e) = Ok t ->
    is_operator (type t) = false ->
    parse_range tokens s end_ p
    = ParseError (start_position t) "Unexpected token: operator needed").
  { intros e0 Hlv s end_ p t Hw Hp Hs Hfit Ht Hno.
    rewrite (proj2 (expression_rebuilt tokens e0)); try assumption;
      [|lia|now left].
    rewrite parse_range_loop_eq.
    destruct (Z.gtb_spec (end_ - s + 1) (consumed_tokens e0)); [|lia].
    rewrite Ht. cbn [bind]. now rewrite parse_operator_rejects. }
  assert (Hbin : forall l op r,
    (forall s end_ p t,
       well_nested r = true -> priority.rank p < level r -> spells tokens s r ->
       s + consumed_tokens r <= end_ ->
       tokens_at tokens (s + consumed_tokens r) = Ok t ->
       is_operator (type t) = false ->
       parse_range tokens s end_ p
       = ParseError (start_position t) "Unexpected token: operator needed") ->
    forall s end_ p t,
      well_nested (create_two_operand_expression l op r) = true ->
      priority.rank p < level (create_two_operand_expression l op r) ->
      spells tokens s (create_two_operand_expression l op r) ->
      s + consumed_tokens (create_two_operand_expression l op r) <= end_ ->
      tokens_at tokens
        (s + consumed_tokens (create_two_operand_expression l op r)) = Ok t ->
      is_operator (type t) = false ->
      parse_range tokens s end_ p
      = ParseError (start_position t) "Unexpected token: operator needed").
  { intros l op r IHr s end_ p t Hw Hp Hs Hfit Ht Hno.
    apply well_nested_create_inv in Hw. destruct Hw as (Hwl & Hwr & Hll & Hlr).
    apply spells_binary_inv in Hs. destruct Hs as (Hsl & (t1 & Ht1 & Hop) & Hsr).
    rewrite level_create in Hp. rewrite consumed_tokens_create in *.
    pose proof (consumed_tokens_pos l) as Hcl.
    pose proof (consumed_tokens_pos r) as Hcr.
    rewrite (proj2 (expression_rebuilt tokens l)); try assumption; try lia.
    2:{ right. right. exists t1, op. now repeat split. }
    rewrite parse_range_loop_eq.
    destruct (Z.gtb_spec (end_ - s + 1) (consumed_tokens l)); [|lia].
    rewrite Ht1. cbn [bind]. rewrite Hop. cbn [bind].
    rewrite (proj2 (leb_rank _ _)) by lia.
    rewrite (IHr _ end_ _ t); try assumption; try lia; [reflexivity|].
    now replace (s + (consumed_tokens l + 1) + consumed_tokens r)
      with (s + (consumed_tokens l + consumed_tokens r + 1)) by lia. }
  induction e as [l IHl r IHr|l IHl r IHr|l IHl r IHr|l IHl r IHr|c IH|v|c IH].
  - exact (Hbin l _operator.plus r IHr).
  - exact (Hbin l _operator.minus r IHr).
  - exact (Hbin l _operator.multiply r IHr).
  - exact (Hbin l _operator.divide r IHr).
  - now apply Hoperand.
  - now apply Hoperand.
  - now apply Hoperand.
Qed.

(** After a complete expression and an operator, the failure of the next
    operand is the failure of the range, unless the operator is left to the
    caller. *)
Lemma operand_failed e : forall s end_ p t op F,
  well_nested e = true -> priority.rank p < level e -> spells tokens s e ->
  s + consumed_tokens e <= end_ ->
  tokens_at tokens (s + consumed_tokens e) = Ok t ->
  parse_operator t = Ok op ->
  parse_operand tokens (s + (consumed_tokens e + 1)) end_ = F ->
  (forall r, F <> Ok r) ->
  parse_range tokens s end_ p
  = if priority.leb (get_priority op) p then Ok e else F.
Proof.
  assert (Hloop : forall e0 s end_ p t op F,
    s + consumed_tokens e0 <= end_ ->
    tokens_at tokens (s + consumed_tokens e0) = Ok t ->
    parse_operator t = Ok op ->
    parse_operand tokens (s + (consumed_tokens e0 + 1)) end_ = F ->
    (forall r, F <> Ok r) ->
    parse_range_loop tokens s end_ p (end_ - s + 1) e0 (consumed_tokens e0)
    = if priority.leb (get_priority op) p then Ok e0 else F).
  { intros e0 s end_ p t op F Hfit Ht Hop HF Hstuck.
    rewrite parse_range_loop_eq.
    destruct (Z.gtb_spec (end_ - s + 1) (consumed_tokens e0)); [|lia].
    rewrite Ht. cbn [bind]. rewrite Hop. cbn [bind].
    destruct (priority.leb (get_priority op) p); [reflexivity|].
    rewrite parse_range_eq, HF, (bind_stuck F) by exact Hstuck.
    now apply bind_stuck. }
  assert (Hoperand : forall e, level e = 3 -> forall s end_ p t op F,
    well_nested e = true -> priority.rank p < level e -> spells tokens s e ->
    s + consumed_tokens e <= end_ ->
    tokens_at tokens (s + consumed_tokens e) = Ok t ->
    parse_operator t = Ok op ->
    parse_operand tokens (s + (consumed_tokens e + 1)) end_ = F ->
    (forall r, F <> Ok r) ->
    parse_range tokens s end_ p
    = if priority.leb (get_priority op) p then Ok e else F).
  { intros e0 Hlv s end_ p t op F Hw Hp Hs Hfit Ht Hop HF Hstuck.
    rewrite (proj2 (expression_rebuilt tokens e0)); try assumption;
      [|lia|now left].
    now apply (Hloop e0 s end_ p t). }
  assert (Hbin : forall l op1 r,
    (forall s end_ p t op F,
       well_nested r = true -> priority.rank p < level r -> spells tokens s r ->
       s + consumed_tokens r <= end_ ->
       tokens_at tokens (s + consumed_tokens r) = Ok t ->
       parse_operator t = Ok op ->
       parse_operand tokens (s + (consumed_tokens r + 1)) end_ = F ->
       (forall r0, F <> Ok r0) ->
       parse_range tokens s end_ p
       = if priority.leb (get_priority op) p then Ok r else F) ->
    forall s end_ p t op F,
      well_nested (create_two_operand_expression l op1 r) = true ->
      priority.rank p < level (create_two_operand_expression l op1 r) ->
      spells tokens s (create_two_operand_expression l op1 r) ->
      s + consumed_tokens (create_two_operand_expression l op1 r) <= end_ ->
      tokens_at tokens
        (s + consumed_tokens (create_two_operand_expression l op1 r)) = Ok t ->
      parse_operator t = Ok op ->
      parse_operand tokens
        (s + (consumed_tokens (create_two_operand_expression l op1 r) + 1)) end_
      = F ->
      (forall r0, F <> Ok r0) ->
      parse_range tokens s end_ p
      = if priority.leb (get_priority op) p
        then Ok (create_two_operand_expression l op1 r) else F).
  { intros l op1 r IHr s end_ p t op F Hw Hp Hs Hfit Ht Hop HF Hstuck.
    apply well_nested_create_inv in Hw. destruct Hw as (Hwl & Hwr & Hll & Hlr).
    apply spells_binary_inv in Hs. destruct Hs as (Hsl & (t1 & Ht1 & Hop1) & Hsr).
    rewrite level_create in Hp.
    pose proof (consumed_tokens_create l op1 r) as Hcc.
    pose proof (consumed_tokens_pos l) as Hcl.
    pose proof (consumed_tokens_pos r) as Hcr.
    rewrite (proj2 (expression_rebuilt tokens l)); try assumption; try lia.
    2:{ right. right. exists t1, op1. now repeat split. }
    rewrite parse_range_loop_eq.
    destruct (Z.gtb_spec (end_ - s + 1) (consumed_tokens l)); [|lia].
    rewrite Ht1. cbn [bind]. rewrite Hop1. cbn [bind].
    rewrite (proj2 (leb_rank _ _)) by lia.
    rewrite (IHr _ end_ _ t op F); try assumption; try lia.
    - destruct (priority.leb (get_priority op) (get_priority op1)) eqn:El.
      + cbn [bind]. now apply (Hloop _ s end_ p t).
      + rewrite bind_stuck by exact Hstuck.
        apply leb_rank in El. rewrite (proj2 (leb_rank _ _)) by lia.
        reflexivity.
    - rewrite <- Ht. f_equal. lia.
    - rewrite <- HF. f_equal. lia. }
  induction e as [l IHl r IHr|l IHl r IHr|l IHl r IHr|l IHl r IHr|c IH|v|c IH].
  - exact (Hbin l _operator.plus r IHr).
  - exact (Hbin l _operator.minus r IHr).
  - exact (Hbin l _operator.multiply r IHr).
  - exact (Hbin l _operator.divide r IHr).
  - now apply Hoperand.
  - now apply Hoperand.
  - now apply Hoperand.
Qed.

End Localisation.

(** ** The ends of an accepted formula *)

Section Ends.
Import Lexer Parser.

Lemma yield_last e :
  exists l k, yield e = l ++ [k] /\ is_operator (fst k) = false.
Proof.
  induction e as [l _ r (l' & k & E & H)|l _ r (l' & k & E & H)
                 |l _ r (l' & k & E & H)|l _ r (l' & k & E & H)|c _|v|c (l' & k & E & H)];
    cbn [yield].
  - exists (yield l ++ symbol token_type.plus :: l'), k.
    rewrite E, <- app_assoc. now split.
  - exists (yield l ++ symbol token_type.minus :: l'), k.
    rewrite E, <- app_assoc. now split.
  - exists (yield l ++ symbol token_type.multiply :: l'), k.
    rewrite E, <- app_assoc. now split.
  - exists (yield l ++ symbol token_type.divide :: l'), k.
    rewrite E, <- app_assoc. now split.
  - exists (symbol token_type.opening_parenthesis :: yield c),
      (symbol token_type.closing_parenthesis). now split.
  - exists [], (token_type.number, Some v). now split.
  - exists (symbol token_type.minus :: l'), k. rewrite E. now split.
Qed.

Lemma yield_first e :
  exists k l, yield e = k :: l /\ begins_operand (fst k) = true.
Proof.
  induction e as [l (k & l' & E & H) r _|l (k & l' & E & H) r _
                 |l (k & l' & E & H) r _|l (k & l' & E & H) r _|c _|v|c _];
    cbn [yield]; try (rewrite E; cbn [app]); eexists; eexists;
    (split; [reflexivity|]); solve [exact H | reflexivity].
Qed.

Lemma spelled_not_trailing tokens e :
  map erase tokens = yield e -> ends_with_operator tokens = false.
Proof.
  intros Hy. destruct (yield_last e) as (l & k & E & Hk).
  unfold ends_with_operator.
  assert (Hrev : map erase (rev tokens) = k :: rev l).
  { rewrite map_rev, Hy, E, rev_app_distr. reflexivity. }
  destruct (rev tokens) as [|t ts]; [reflexivity|].
  cbn [map] in Hrev. injection Hrev as Ht _. rewrite <- Ht in Hk. exact Hk.
Qed.

Lemma ascending_length tokens : forall b n,
  ascending b tokens -> Forall (fun t => start_position t < n) tokens ->
  b < n -> b + Z.of_nat (length tokens) < n.
Proof.
  induction tokens as [|t l IH]; intros b n Ha Hb Hlt; cbn [length]; [lia|].
  destruct Ha as [Ht Ha]. inversion Hb as [|x l' Hx Hl]; subst.
  pose proof (IH (start_position t) n Ha Hl Hx). lia.
Qed.

Lemma is_symbol_spec c :
  is_symbol c = true <->
  In c [" "; "("; ")"; "+"; "-"; "*"; "/"]%char.
Proof.
  unfold is_symbol, symbol_token. split.
  - repeat (match goal with
            | |- context [Ascii.eqb c ?x] =>
                destruct (Ascii.eqb_spec c x) as [->|?]
            end; [intros _; cbn; tauto|]).
    discriminate.
  - intros H. cbn [In] in H.
    repeat (destruct H as [<-|H]; [reflexivity|]). contradiction.
Qed.

Lemma tokenize_outcome formula :
  (exists tokens, tokenize formula = Ok tokens) \/
  (exists position message, tokenize formula = ParseError position message).
Proof.
  pose proof (tokenize_from_failure (list_ascii_of_string formula) 0 [] [] 0) as H.
  unfold tokenize. destruct (tokenize_from _ _ _ _ _); cbn in H;
    try contradiction; eauto.
Qed.

Lemma parse_tokens_outcome tokens :
  (exists e, parse_tokens tokens = Ok e) \/
  (exists position message, parse_tokens tokens = ParseError position message) \/
  parse_tokens tokens = OutOfRange.
Proof.
  unfold parse_tokens. destruct tokens as [|t l] eqn:E; [right; left; eauto|].
  rewrite <- E.
  pose proof (parse_range_defined tokens 0 (size tokens - 1) priority.lowest) as Hd.
  pose proof (proj1 (parse_not_broken tokens (enough tokens)) 0 (size tokens - 1)
                priority.lowest) as Hb.
  fold (parse_range tokens 0 (size tokens - 1) priority.lowest) in Hb.
  destruct (parse_range tokens 0 (size tokens - 1) priority.lowest) as [e|p m|m| |];
    eauto.
  - now destruct (Hb m).
  - now destruct Hd.
Qed.

Lemma calculate_outcome formula :
  (exists v, calculate formula = Ok v) \/
  (exists position message, calculate formula = ParseError position message) \/
  calculate formula = OutOfRange.
Proof.
  unfold calculate, parse.
  destruct (tokenize_outcome formula) as [[tokens ->]|(p & m & ->)];
    cbn [bind]; [|right; left; exists p, m; reflexivity].
  destruct (parse_tokens_outcome tokens) as [[e ->]|[(p & m & ->)| ->]];
    cbn [bind];
    [left; exists (calc e) | right; left; exists p, m | right; right];
    reflexivity.
Qed.

Lemma parse_tokens_messages tokens position message :
  parse_tokens tokens = ParseError position message -> In message messages.
Proof.
  unfold parse_tokens. destruct tokens as [|t l] eqn:E.
  - intros [= _ <-]. cbn. tauto.
  - rewrite <- E. apply (proj1 (parse_messages tokens (enough tokens))).
Qed.

Lemma tokenize_messages formula position message :
  tokenize formula = ParseError position message ->
  message = "Number too long"%string \/ message = "Unexpected symbol"%string.
Proof.
  pose proof (tokenize_from_failure (list_ascii_of_string formula) 0 [] [] 0) as H.
  unfold tokenize. intros E. rewrite E in H. cbn in H. tauto.
Qed.

End Ends.

(** ** A complete expression followed by more tokens *)

Section Prefixes.
Import Lexer Parser.

Lemma size_app (l l' : list token) : size (l ++ l') = size l + size l'.
Proof. unfold size. rewrite length_app. lia. Qed.

Lemma spells_prefix body rest e :
  map erase body = yield e ->
  spells (body ++ rest) 0 e /\ consumed_tokens e = size body.
Proof.
  intros Hy.
  assert (Hc : consumed_tokens e = size body).
  { unfold size. rewrite <- yield_length, <- Hy, length_map. reflexivity. }
  split; [|exact Hc]. split; [lia|].
  unfold slice. cbn [Z.to_nat skipn]. rewrite Hc. unfold size.
  rewrite Nat2Z.id, firstn_app, Nat.sub_diag, firstn_all. cbn [firstn].
  now rewrite app_nil_r.
Qed.

Lemma tokens_at_app body t rest :
  tokens_at (body ++ t :: rest) (size body) = Ok t.
Proof.
  unfold tokens_at, size. destruct (Z.ltb_spec (Z.of_nat (length body)) 0); [lia|].
  now rewrite Nat2Z.id, nth_error_app2, Nat.sub_diag by lia.
Qed.

Lemma tokens_at_app_next body t t' rest :
  tokens_at (body ++ t :: t' :: rest) (size body + 1) = Ok t'.
Proof.
  replace (body ++ t :: t' :: rest) with ((body ++ [t]) ++ t' :: rest)
    by now rewrite <- app_assoc.
  replace (size body + 1) with (size (body ++ [t]))
    by (rewrite size_app; reflexivity).
  apply tokens_at_app.
Qed.

Lemma tokens_at_beyond tokens i :
  size tokens <= i -> tokens_at tokens i = OutOfRange.
Proof.
  intros H. unfold tokens_at, size in *. destruct (Z.ltb_spec i 0); [reflexivity|].
  destruct (nth_error tokens (Z.to_nat i)) eqn:E; [|reflexivity].
  assert (Z.to_nat i < length tokens)%nat by (apply nth_error_Some; congruence).
  lia.
Qed.

Lemma parse_tokens_nonempty tokens :
  tokens <> [] ->
  parse_tokens tokens = parse_range tokens 0 (size tokens - 1) priority.lowest.
Proof. unfold parse_tokens. now destruct tokens. Qed.

Lemma operator_needed_after body t rest e :
  well_nested e = true -> map erase body = yield e ->
  is_operator (type t) = false ->
  parse_tokens (body ++ t :: rest)
  = ParseError (start_position t) "Unexpected token: operator needed".
Proof.
  intros Hw Hy Hno.
  destruct (spells_prefix body (t :: rest) e Hy) as [Hs Hc].
  rewrite parse_tokens_nonempty by now destruct body.
  apply (operator_needed _ e); try assumption.
  - pose proof (level_bounds e). cbn. lia.
  - rewrite size_app. unfold size at 2. cbn [length]. lia.
  - cbn [Z.add]. rewrite Hc. apply tokens_at_app.
Qed.

Lemma operand_failed_after body t rest e F :
  well_nested e = true -> map erase body = yield e ->
  is_operator (type t) = true ->
  parse_operand (body ++ t :: rest) (size body + 1)
    (size (body ++ t :: rest) - 1) = F ->
  (forall r, F <> Ok r) ->
  parse_tokens (body ++ t :: rest) = F.
Proof.
  intros Hw Hy Hop HF Hstuck.
  destruct (spells_prefix body (t :: rest) e Hy) as [Hs Hc].
  assert (Hop' : exists op, parse_operator t = Ok op).
  { unfold parse_operator. destruct (type t); try discriminate; eauto. }
  destruct Hop' as [op Hop'].
  rewrite parse_tokens_nonempty by now destruct body.
  rewrite (operand_failed _ e 0 _ priority.lowest t op F); try assumption.
  - rewrite (proj2 (leb_rank _ _)); [reflexivity|].
    destruct op; cbn; lia.
  - pose proof (level_bounds e). cbn. lia.
  - rewrite size_app. unfold size at 2. cbn [length]. lia.
  - cbn [Z.add]. rewrite Hc. apply tokens_at_app.
  - cbn [Z.add]. rewrite Hc. exact HF.
Qed.

Lemma parse_operand_unexpected tokens s end_ t :
  tokens_at tokens s = Ok t -> begins_operand (type t) = false ->
  parse_operand tokens s end_ = ParseError (start_position t) "Unexpected token".
Proof.
  intros Ht Hb. rewrite parse_operand_eq, Ht. cbn [bind].
  now destruct (type t).
Qed.

End Prefixes.

(** ** Formulas put together *)

Section Composition.
Import Lexer Parser.

Lemma operator_symbol_kind op :
  is_numeric (operator_symbol op) = false /\
  is_symbol (operator_symbol op) = true /\
  symbol_kind (operator_symbol op) = [symbol (operator_token_type op)].
Proof. destruct op; repeat split. Qed.

Lemma kinds_joined a c b ka kb :
  is_numeric c = false -> is_symbol c = true ->
  kinds a = Some ka -> kinds b = Some kb ->
  kinds (a ++ c :: b) = Some (ka ++ symbol_kind c ++ kb).
Proof. intros Hc Hs Ha Hb. now rewrite kinds_split, Ha, Hs, Hb. Qed.

Lemma kinds_wrapped l k :
  kinds l = Some k ->
  kinds ("("%char :: l ++ [")"%char])
  = Some (symbol token_type.opening_parenthesis :: k
            ++ [symbol token_type.closing_parenthesis]).
Proof.
  intros Hl.
  assert (H : kinds (l ++ [")"%char])
              = Some (k ++ [symbol token_type.closing_parenthesis])).
  { now rewrite (kinds_joined l ")" [] k []). }
  change ("("%char :: l ++ [")"%char]) with ([] ++ "("%char :: (l ++ [")"%char])).
  now rewrite (kinds_joined [] "(" _ [] _ eq_refl eq_refl eq_refl H).
Qed.

Lemma kinds_minus l k :
  kinds l = Some k ->
  kinds ("-"%char :: l) = Some (symbol token_type.minus :: k).
Proof.
  intros Hl. change ("-"%char :: l) with ([] ++ "-"%char :: l).
  now rewrite (kinds_joined [] "-" _ [] _ eq_refl eq_refl eq_refl Hl).
Qed.

Lemma calculate_tree formula e :
  kinds (list_ascii_of_string formula) = Some (yield e) ->
  well_nested e = true ->
  calculate formula = Ok (calc e).
Proof. intros Hk Hw. apply calculate_kinds. now exists e. Qed.

Lemma calculate_tree_inv formula v :
  calculate formula = Ok v ->
  exists e, kinds (list_ascii_of_string formula) = Some (yield e) /\
            well_nested e = true /\ calc e = v /\ Double.valid v = true.
Proof.
  intros H. apply calculate_kinds in H. destruct H as (e & Hk & Hw & Hv).
  exists e. repeat split; try assumption.
  assert (Hp : parse formula = Ok e) by (apply parse_kinds; now split).
  rewrite <- Hv. now apply parse_calc_evaluate in Hp.
Qed.

Lemma wrapped_string f :
  list_ascii_of_string ("(" ++ f ++ ")")
  = "("%char :: list_ascii_of_string f ++ [")"%char].
Proof. now rewrite !list_ascii_of_string_app. Qed.

Lemma calculate_wrapped f e :
  kinds (list_ascii_of_string f) = Some (yield e) -> well_nested e = true ->
  kinds (list_ascii_of_string ("(" ++ f ++ ")")) = Some (yield (parentheses e))
  /\ well_nested (parentheses e) = true.
Proof.
  intros Hk Hw. split; [|exact Hw]. rewrite wrapped_string.
  now apply kinds_wrapped.
Qed.

Lemma calculate_combined f g ef eg op :
  kinds (list_ascii_of_string f) = Some (yield ef) -> well_nested ef = true ->
  kinds (list_ascii_of_string g) = Some (yield eg) -> well_nested eg = true ->
  calculate (("(" ++ f ++ ")") ++ String (operator_symbol op) ("(" ++ g ++ ")"))
  = Ok (calc (create_two_operand_expression (parentheses ef) op (parentheses eg))).
Proof.
  intros Hf Hwf Hg Hwg.
  destruct (calculate_wrapped f ef Hf Hwf) as [Hkf Hwf'].
  destruct (calculate_wrapped g eg Hg Hwg) as [Hkg Hwg'].
  destruct (operator_symbol_kind op) as (Hn & Hs & Hk).
  apply calculate_tree.
  - rewrite list_ascii_of_string_app. cbn [list_ascii_of_string].
    fold (list_ascii_of_string ("(" ++ g ++ ")")).
    rewrite (kinds_joined _ _ _ _ _ Hn Hs Hkf Hkg), Hk, yield_create.
    reflexivity.
  - apply well_nested_create; try assumption.
    + pose proof (rank_bounds (get_priority op)). cbn [level]. lia.
    + pose proof (rank_bounds (get_priority op)). cbn [level]. lia.
Qed.

(** A space next to a character that is neither a digit nor a dot, or at
    either end of the text, changes no token. *)
Lemma kinds_space a b :
  is_numeric (last a " "%char) = false \/ is_numeric (hd " "%char b) = false ->
  kinds (a ++ " "%char :: b) = kinds (a ++ b).
Proof.
  intros H. rewrite kinds_split by reflexivity.
  change (is_symbol " ") with true. change (symbol_kind " ") with (@nil (token_type.t * option double)).
  destruct H as [H|H].
  - induction a as [|c a' _] using rev_ind.
    + cbn [app]. change (kinds []) with (Some (@nil (token_type.t * option double))).
      now destruct (kinds b).
    + rewrite last_last in H. rewrite <- !app_assoc. cbn [app].
      rewrite !kinds_split by exact H.
      change (kinds []) with (Some (@nil (token_type.t * option double))).
      destruct (kinds a') as [ka|]; [|reflexivity].
      destruct (is_symbol c); [|reflexivity].
      destruct (kinds b) as [kb|]; [|reflexivity].
      cbn [app]. now rewrite !app_nil_r, <- !app_assoc.
  - destruct b as [|c b'].
    + rewrite app_nil_r.
      change (kinds []) with (Some (@nil (token_type.t * option double))).
      destruct (kinds a); [|reflexivity]. cbn [app]. now rewrite app_nil_r.
    + cbn [hd] in H. rewrite kinds_split by exact H.
      change (c :: b') with ([] ++ c :: b') at 1.
      rewrite (kinds_split [] c b') by exact H.
      change (kinds []) with (Some (@nil (token_type.t * option double))).
      destruct (kinds a) as [ka|]; [|reflexivity].
      cbn [app].
      destruct (is_symbol c); [|reflexivity].
      destruct (kinds b') as [kb|]; reflexivity.
Qed.

End Composition.

(** * The claims *)

Import Lexer Parser.

(** C1.  A formula made of well-formed numeric literals joined by the binary
    operators [+ - * /] (with any number of spaces around them) parses to its
    reading by precedence: runs of [*] and [/] are folded from the left into
    terms first, then the terms are folded from the left with [+] and [-];
    [calculate] returns the value of that tree.  The three formulas of the
    specification evaluate to 14, 10 and 8. *)
Theorem precedence_and_associativity :
  (forall lead first rest trail,
     well_formed_literal first = true ->
     forallb (fun j => well_formed_literal (literal j)) rest = true ->
     let reading :=
       by_precedence (literal_value first) (map joined_value rest) in
     parse (flat_formula lead first rest trail) = Ok reading /\
     calculate (flat_formula lead first rest trail) = Ok (calc reading)) /\
  (forall a b c,
     by_precedence a [(_operator.plus, b); (_operator.multiply, c)]
       = add (number a) (multiply (number b) (number c)) /\
     by_precedence a [(_operator.multiply, b); (_operator.plus, c)]
       = add (multiply (number a) (number b)) (number c) /\
     by_precedence a [(_operator.minus, b); (_operator.divide, c)]
       = subtract (number a) (divide (number b) (number c)) /\
     by_precedence a [(_operator.minus, b); (_operator.plus, c)]
       = add (subtract (number a) (number b)) (number c) /\
     by_precedence a [(_operator.minus, b); (_operator.minus, c)]
       = subtract (subtract (number a) (number b)) (number c) /\
     by_precedence a [(_operator.divide, b); (_operator.multiply, c)]
       = multiply (divide (number a) (number b)) (number c) /\
     by_precedence a [(_operator.divide, b); (_operator.divide, c)]
       = divide (divide (number a) (number b)) (number c)) /\
  calculate "2 + 3 * 4" = Ok (Double.of_Z 14) /\
  calculate "2 * 3 + 4" = Ok (Double.of_Z 10) /\
  calculate "7 + (((5*2)+5)/(2+3)+1)/2 - 1" = Ok (Double.of_Z 8).
Proof.
  split; [|split; [|repeat split]].
  - intros lead first rest trail Hfirst Hrest reading.
    destruct (tokenize_flat_formula lead first rest trail Hfirst Hrest)
      as (tokens & Htok & Herase).
    assert (Hparse : parse (flat_formula lead first rest trail) = Ok reading).
    { unfold parse. rewrite Htok. cbn [bind]. now apply parse_tokens_flat. }
    split; [exact Hparse|]. unfold calculate. now rewrite Hparse.
  - intros a b c. repeat split.
Qed.

Lemma precedence_and_associativity_witness :
  calculate "2 - 3  *4/ 5 " =
  Ok (calc (subtract (number (Double.of_Z 2))
              (divide (multiply (number (Double.of_Z 3)) (number (Double.of_Z 4)))
                 (number (Double.of_Z 5))))).
Proof.
  exact (proj2 (proj1 precedence_and_associativity 0%nat ["2"%char]
     [mk_joined 1 _operator.minus 1 ["3"%char];
      mk_joined 2 _operator.multiply 0 ["4"%char];
      mk_joined 0 _operator.divide 1 ["5"%char]] 1%nat eq_refl eq_refl)).
Defined.

(** C2.  When [tokenize] closes a literal buffer (a maximal run [c :: buf] of
    digits and dots that follows a successfully scanned prefix [pre]), the
    scan goes on with a number token exactly when [strtod] consumed the whole
    buffer and the value is a normal double; otherwise [tokenize] fails with
    a [ParseError] at the buffer's start offset.  Not normal means zero,
    subnormal, infinite or NaN.  In particular ["0"], ["3.3.3"], a subnormal
    literal and 500 repetitions of any digit are rejected at offset 0. *)
Theorem numeric_literal_validation :
  (forall pre c buf rest tokens,
     tokenize (string_of_list_ascii pre) = Ok tokens ->
     is_numeric (last pre " "%char) = false ->
     forallb is_numeric (c :: buf) = true ->
     is_numeric (hd " "%char rest) = false ->
     tokenize (string_of_list_ascii (pre ++ (c :: buf) ++ rest)) =
     if (snd (strtod (c :: buf)) =? Z.of_nat (length (c :: buf)))
        && Double.isnormal (fst (strtod (c :: buf)))
     then
       tokenize_from rest (Z.of_nat (length pre) + Z.of_nat (length (c :: buf)))
         (tokens ++ [mk_token token_type.number (Z.of_nat (length pre))
                       (fst (strtod (c :: buf)))]) [] 0
     else ParseError (Z.of_nat (length pre)) "Number too long") /\
  (forall v, Double.isnormal v = false <->
     Double.is_zero v || Double.is_subnormal v || Double.is_infinite v
       || Double.is_nan v = true) /\
  tokenize "0" = ParseError 0 "Number too long" /\
  tokenize "3.3.3" = ParseError 0 "Number too long" /\
  (Double.is_subnormal (fst (strtod tiny_literal)) = true /\
   tokenize (string_of_list_ascii tiny_literal) = ParseError 0 "Number too long") /\
  (forall d, is_digit d = true ->
     tokenize (string_of_list_ascii (repeat d 500)) = ParseError 0 "Number too long" /\
     calculate (string_of_list_ascii (repeat d 500)) = ParseError 0 "Number too long").
Proof.
  split; [|split; [|split; [|split; [|split]]]].
  - intros pre c buf rest tokens Hpre Hlast Hall Hrest.
    rewrite (tokenize_closes_buffer pre c buf rest tokens) by assumption.
    rewrite parse_number_spec.
    destruct (_ && _); reflexivity.
  - apply isnormal_false_iff.
  - reflexivity.
  - reflexivity.
  - split; vm_compute; reflexivity.
  - intros d Hd. apply digit_cases in Hd.
    repeat (destruct Hd as [<- | Hd]; [split; vm_compute; reflexivity|]).
    destruct Hd.
Qed.

Lemma numeric_literal_validation_witness :
  tokenize "1+0" = ParseError 2 "Number too long".
Proof.
  exact (proj1 numeric_literal_validation ["1"; "+"]%char "0"%char [] []
           [mk_token token_type.number 0 (fst (strtod ["1"%char]));
            mk_symbol token_type.plus 1]
           eq_refl eq_refl eq_refl eq_refl).
Defined.

(** C10.  [parse_number] either returns the value of a fully consumed, normal
    literal or fails at the given offset with the one message
    ["Number too long"], whatever made the literal invalid: a partial parse
    (["3.3.3"]), the literal ["0"], a subnormal value or an overflow. *)
Theorem invalid_literal_message :
  (forall number number_start,
     match parse_number number number_start with
     | Ok v => strtod number = (v, Z.of_nat (length number)) /\ Double.isnormal v = true
     | ParseError position message =>
         position = number_start /\ message = "Number too long"%string
     | _ => False
     end) /\
  parse_number (list_ascii_of_string "3.3.3") 0 = ParseError 0 "Number too long" /\
  parse_number (list_ascii_of_string "0") 0 = ParseError 0 "Number too long" /\
  parse_number tiny_literal 0 = ParseError 0 "Number too long" /\
  parse_number (repeat "9"%char 400) 0 = ParseError 0 "Number too long" /\
  calculate "3.3.3" = ParseError 0 "Number too long" /\
  calculate "0" = ParseError 0 "Number too long" /\
  calculate (string_of_list_ascii tiny_literal) = ParseError 0 "Number too long" /\
  calculate (string_of_list_ascii (repeat "9"%char 400)) = ParseError 0 "Number too long".
Proof.
  split.
  - intros number number_start. unfold parse_number.
    destruct (strtod number) as [v n].
    destruct (Z.eqb_spec n (Z.of_nat (length number))) as [->|]; cbn [negb orb];
      [|now split].
    destruct (Double.isnormal v) eqn:E; cbn [negb]; now split.
  - repeat split; vm_compute; reflexivity.
Qed.

(** C4.  The empty string tokenizes to the empty token sequence, parsing the
    empty token sequence fails at offset 0 with ["Empty input"], and so does
    [calculate ""]. *)
Theorem empty_input_rejected :
  tokenize "" = Ok [] /\
  parse_tokens [] = ParseError 0 "Empty input" /\
  calculate "" = ParseError 0 "Empty input".
Proof. repeat split. Qed.

(** C9.  A formula made of space characters only tokenizes to the empty
    sequence, so [calculate] fails at offset 0 with ["Empty input"]. *)
Theorem blank_input_rejected formula :
  forallb (Ascii.eqb " ") (list_ascii_of_string formula) = true ->
  tokenize formula = Ok [] /\
  calculate formula = ParseError 0 "Empty input".
Proof.
  intros H. assert (Ht : tokenize formula = Ok [])
    by (now apply tokenize_from_spaces).
  split; [exact Ht|]. unfold calculate, parse. now rewrite Ht.
Qed.

Lemma blank_input_rejected_witness :
  tokenize " " = Ok [] /\ calculate " " = ParseError 0 "Empty input".
Proof. apply (blank_input_rejected " "). reflexivity. Defined.
(** C6.  A token range [start..end_] (inside the vector) that begins with an
    opening parenthesis: when no index of the range is the matching closing
    parenthesis, parsing fails at the opening token's offset with
    ["Unclosed parenthesis"]; when the matching one is the very next token,
    it fails there with ["Empty parentheses"]; otherwise the tokens strictly
    between the two are parsed at the lowest priority and wrapped in a
    [parentheses] node, whose value is the value of its content. *)
Theorem parenthesized_operand :
  (forall tokens start end_ t,
     tokens_at tokens start = Ok t ->
     type t = token_type.opening_parenthesis ->
     end_ < size tokens ->
     ((forall j, start + 1 <= j <= end_ -> ~ matching_close tokens (start + 1) j) ->
      parse_operand tokens start end_
        = ParseError (start_position t) "Unclosed parenthesis" /\
      forall p, parse_range tokens start end_ p
        = ParseError (start_position t) "Unclosed parenthesis") /\
     (start + 1 <= end_ -> matching_close tokens (start + 1) (start + 1) ->
      parse_operand tokens start end_
        = ParseError (start_position t) "Empty parentheses" /\
      forall p, parse_range tokens start end_ p
        = ParseError (start_position t) "Empty parentheses") /\
     (forall i, start + 1 < i <= end_ -> matching_close tokens (start + 1) i ->
      parse_operand tokens start end_
        = (content <- parse_range tokens (start + 1) (i - 1) priority.lowest ;;
           Ok (parentheses content)) /\
      forall content, calc (parentheses content) = calc content)) /\
  calculate "(5" = ParseError 0 "Unclosed parenthesis" /\
  calculate "((5) - 1" = ParseError 0 "Unclosed parenthesis" /\
  calculate "2 * ()" = ParseError 4 "Empty parentheses" /\
  calculate "2 * (3 * ((3 + 1) + 1) + 2)" = Ok (Double.of_Z 34).
Proof.
  split; [|repeat split].
  intros tokens start end_ t Ht Hty He.
  exact (parse_operand_parenthesis tokens start end_ t Ht Hty He).
Qed.

Lemma parenthesized_operand_witness :
  parse_operand paren_example 0 1 = ParseError 0 "Empty parentheses".
Proof.
  refine (proj1 (proj1 (proj2 (proj1 parenthesized_operand paren_example 0 1
            (mk_symbol token_type.opening_parenthesis 0) eq_refl eq_refl _)) _ _)).
  - reflexivity.
  - cbn. lia.
  - unfold matching_close. cbn. repeat split; try lia.
    exists (mk_symbol token_type.closing_parenthesis 1). split; reflexivity.
Defined.

(** C7.  A token range whose first token is a minus: when the minus is the
    last token of the range, parsing fails at its offset with
    ["Orphan minus"]; otherwise the operand that starts at the next index is
    parsed by [parse_operand] itself and wrapped in one [negative] node.
    Hence ["--5"] is a negation of a negation, and [calculate "-5"] is -5. *)
Theorem unary_minus_operand :
  (forall tokens start end_ t,
     tokens_at tokens start = Ok t ->
     type t = token_type.minus ->
     (start = end_ ->
      parse_operand tokens start end_
        = ParseError (start_position t) "Orphan minus" /\
      forall p, parse_range tokens start end_ p
        = ParseError (start_position t) "Orphan minus") /\
     (start <> end_ ->
      parse_operand tokens start end_
        = (content <- parse_operand tokens (start + 1) end_ ;;
           Ok (negative content)))) /\
  parse "--5" = Ok (negative (negative (number (Double.of_Z 5)))) /\
  calculate "-5" = Ok (Double.of_Z (-5)).
Proof.
  split; [|split; reflexivity].
  intros tokens start end_ t Ht Hty.
  assert (Hop : parse_operand tokens start end_ =
                if start =? end_
                then ParseError (start_position t) "Orphan minus"
                else content <- parse_operand tokens (start + 1) end_ ;;
                     Ok (negative content)).
  { rewrite parse_operand_eq, Ht. cbn [bind]. now rewrite Hty. }
  split.
  - intros ->. rewrite Z.eqb_refl in Hop. split; [exact Hop|].
    intros p. rewrite parse_range_eq, Hop. reflexivity.
  - intros Hne. rewrite Hop. now destruct (Z.eqb_spec start end_).
Qed.

Lemma unary_minus_operand_witness :
  parse_operand [mk_symbol token_type.minus 0] 0 0 = ParseError 0 "Orphan minus".
Proof.
  exact (proj1 (proj1 (proj1 unary_minus_operand [mk_symbol token_type.minus 0] 0 0
                  (mk_symbol token_type.minus 0) eq_refl eq_refl) eq_refl)).
Defined.

(** C5.  [consumed_tokens] is 1 on a number, the operand's count plus 1 on a
    negation, left plus right plus 1 on the four binary nodes and the content's
    count plus 2 on a parenthesized node; and it is exact: an expression
    returned by [parse_range] or [parse_operand] from index [start] was built
    from exactly the [consumed_tokens] tokens that begin at [start], which
    spell it ([yield]) and lie inside the vector; in a delimited range the
    count never exceeds the range, and a whole parse consumes every token. *)
Theorem consumed_tokens_exact :
  (forall v, consumed_tokens (number v) = 1) /\
  (forall c, consumed_tokens (negative c) = consumed_tokens c + 1) /\
  (forall l r,
     consumed_tokens (add l r) = consumed_tokens l + consumed_tokens r + 1 /\
     consumed_tokens (subtract l r) = consumed_tokens l + consumed_tokens r + 1 /\
     consumed_tokens (multiply l r) = consumed_tokens l + consumed_tokens r + 1 /\
     consumed_tokens (divide l r) = consumed_tokens l + consumed_tokens r + 1) /\
  (forall c, consumed_tokens (parentheses c) = consumed_tokens c + 2) /\
  (forall e, Z.of_nat (length (yield e)) = consumed_tokens e) /\
  (forall tokens start end_ p e,
     parse_range tokens start end_ p = Ok e ->
     map erase (slice tokens start (consumed_tokens e)) = yield e /\
     0 <= start /\ start + consumed_tokens e <= size tokens /\
     (start <= end_ + 1 -> delimited tokens end_ ->
      consumed_tokens e <= end_ - start + 1)) /\
  (forall tokens start end_ e,
     parse_operand tokens start end_ = Ok e ->
     map erase (slice tokens start (consumed_tokens e)) = yield e /\
     0 <= start /\ start + consumed_tokens e <= size tokens /\
     (start <= end_ + 1 -> delimited tokens end_ ->
      consumed_tokens e <= end_ - start + 1)) /\
  (forall tokens e,
     parse_tokens tokens = Ok e ->
     consumed_tokens e = size tokens /\ map erase tokens = yield e).
Proof.
  split; [reflexivity|]. split; [reflexivity|].
  split; [intros l r; repeat split|]. split; [reflexivity|].
  split; [apply yield_length|].
  split; [|split].
  - intros tokens start end_ p e H. unfold parse_range in H.
    pose proof (proj1 (parse_spells tokens _) _ _ _ _ H) as Hs.
    pose proof (spells_in_range tokens _ _ Hs) as [H0 H1].
    destruct Hs as [_ Hs]. repeat split; try assumption.
    intros Hle Hd. exact (proj1 (consumed_within_range tokens _) _ _ _ _ Hle Hd H).
  - intros tokens start end_ e H. unfold parse_operand in H.
    pose proof (proj1 (proj2 (proj2 (parse_spells tokens _))) _ _ _ H) as Hs.
    pose proof (spells_in_range tokens _ _ Hs) as [H0 H1].
    destruct Hs as [_ Hs]. repeat split; try assumption.
    intros Hle Hd.
    exact (proj1 (proj2 (proj2 (consumed_within_range tokens _))) _ _ _ Hle Hd H).
  - apply parse_tokens_spells.
Qed.

Lemma consumed_tokens_exact_witness :
  consumed_tokens (parentheses (number (Double.of_Z 5))) = size wrapped_five /\
  map erase wrapped_five = yield (parentheses (number (Double.of_Z 5))).
Proof.
  apply (proj2 (proj2 (proj2 (proj2 (proj2 (proj2 (proj2
           consumed_tokens_exact))))))).
  reflexivity.
Defined.
(** C8.  Evaluation cannot fail: [calc] is a total structural fold, and
    [calculate] returns [Ok (calc e)] for every parsed tree [e], any failure
    of [calculate] being the failure of [parse].  On every parsed tree [calc]
    agrees with [evaluate], the fold in which a number yields its value, a
    negation the IEEE negation of its operand (the source computes it as
    [-1 * operand]) and the binary nodes the IEEE sum, difference, product
    and quotient.  Dividing by a zero gives an infinity or NaN, not an
    error. *)
Theorem evaluation_never_fails :
  (forall formula e,
     parse formula = Ok e ->
     calculate formula = Ok (calc e) /\
     calc e = evaluate e /\
     Double.valid (calc e) = true) /\
  (forall formula position message,
     calculate formula = ParseError position message ->
     parse formula = ParseError position message) /\
  (forall v, calc (number v) = v /\ evaluate (number v) = v) /\
  (forall c,
     calc (negative c) = SFmul 53 1024 (Double.of_Z (-1)) (calc c) /\
     evaluate (negative c) = SFopp (evaluate c) /\
     (Double.valid (calc c) = true -> calc (negative c) = SFopp (calc c))) /\
  (forall l r,
     calc (add l r) = SFadd 53 1024 (calc l) (calc r) /\
     calc (subtract l r) = SFsub 53 1024 (calc l) (calc r) /\
     calc (multiply l r) = SFmul 53 1024 (calc l) (calc r) /\
     calc (divide l r) = SFdiv 53 1024 (calc l) (calc r)) /\
  (forall c, calc (parentheses c) = calc c) /\
  (forall l r, Double.is_zero (calc r) = true ->
     Double.is_infinite (calc (divide l r)) || Double.is_nan (calc (divide l r))
     = true) /\
  calculate "1/(1-1)" = Ok (S754_infinity false) /\
  calculate "-1/(1-1)" = Ok (S754_infinity true) /\
  calculate "(1-1)/(1-1)" = Ok S754_nan.
Proof.
  split; [|split].
  - intros formula e H. split; [unfold calculate; now rewrite H|].
    destruct (parse_calc_evaluate formula e H). now split.
  - intros formula position message. unfold calculate.
    destruct (parse formula); cbn [bind]; congruence.
  - repeat split.
    + intros H. cbn [calc]. now apply mul_minus_one_opp.
    + intros l r H. cbn [calc]. now apply div_by_zero.
Qed.

Lemma evaluation_never_fails_witness :
  calculate "-(2+3)" = Ok (calc (negative (parentheses
      (add (number (Double.of_Z 2)) (number (Double.of_Z 3)))))) /\
  calc (negative (number (Double.of_Z 5))) = SFopp (Double.of_Z 5).
Proof.
  split.
  - apply (proj1 evaluation_never_fails "-(2+3)"%string). reflexivity.
  - apply (proj2 (proj2 (proj1 (proj2 (proj2 (proj2 evaluation_never_fails)))
             (number (Double.of_Z 5))))).
    reflexivity.
Defined.

(** C3, as stated, fails: for ["3a"] the error offset is 1, and no line
    written by [main] is one space followed by a caret (the caret line has
    two spaces). *)
Lemma caret_line_counterexample :
  calculate "3a" = ParseError 1 "Unexpected symbol" /\
  ~ In (CLI.spaces 1 ++ "^")%string (CLI.stderr (CLI.main "3a")).
Proof.
  split; [reflexivity|]. cbn. intros [H|[H|[H|[H|[]]]]]; discriminate H.
Qed.

(** C3, amended.  When [calculate] fails at offset [position], [main] writes
    to standard error the line ["Invalid input:"], the input between double
    quotes, a line of [position + 1] spaces followed by a caret, and the
    message, and returns [EXIT_FAILURE].  The offset is not negative; the
    caret stands in column [position + 1], which in the quoted line above it
    is the column of the input character at [position] (there is one unless
    the input is empty). *)
Theorem caret_under_offending_character formula position message :
  calculate formula = ParseError position message ->
  CLI.main formula
  = CLI.mk_run []
      [ "Invalid input:"%string;
        (CLI.quote ++ formula ++ CLI.quote)%string;
        (CLI.spaces (position + 1) ++ "^")%string;
        message ]
      CLI.EXIT_FAILURE /\
  0 <= position /\
  String.length (CLI.spaces (position + 1)) = (Z.to_nat position + 1)%nat /\
  String.get (Z.to_nat position + 1) (CLI.spaces (position + 1) ++ "^")%string
  = Some "^"%char /\
  (formula <> EmptyString ->
   exists c,
     String.get (Z.to_nat position) formula = Some c /\
     String.get (Z.to_nat position + 1) (CLI.quote ++ formula ++ CLI.quote)%string
     = Some c).
Proof.
  intros H. pose proof (calculate_error_offset _ _ _ H) as [Hpos Hin].
  split; [unfold CLI.main; now rewrite H|]. split; [exact Hpos|].
  replace (Z.to_nat position + 1)%nat with (Z.to_nat (position + 1)) by lia.
  split; [apply length_spaces|]. split; [apply get_caret|].
  intros Hne. destruct Hin as [Hin|]; [|contradiction].
  destruct (get_in_range formula (Z.to_nat position)) as [c Hc]; [lia|].
  exists c. split; [exact Hc|].
  replace (Z.to_nat (position + 1)) with (Z.to_nat position + 1)%nat by lia.
  rewrite get_quoted by lia. exact Hc.
Qed.

Lemma caret_under_offending_character_witness :
  CLI.main "3 + + 2"
  = CLI.mk_run []
      [ "Invalid input:"%string;
        (CLI.quote ++ "3 + + 2" ++ CLI.quote)%string;
        "     ^"%string;
        "Unexpected token"%string ]
      CLI.EXIT_FAILURE.
Proof.
  exact (proj1 (caret_under_offending_character "3 + + 2" 4 "Unexpected token"
                  eq_refl)).
Defined.


(** * Further properties of the tokenizer, the parser and the driver *)

(** ** The tokenizer *)

(** X1.  [tokenize] works piece by piece.  At a character [c] that is neither
    a digit nor a dot, the outcome on [a ++ c :: b] is made of the outcome on
    [a], of the token of [c] at offset [length a] (none for a space, the
    error ["Unexpected symbol"] at that offset for a character outside the
    alphabet), and of the outcome on [b] alone, whose tokens and whose error
    offset are moved by [length a + 1] characters. *)
Theorem tokenize_piece_by_piece a c b :
  is_numeric c = false ->
  tokenize_characters (a ++ c :: b)
  = (tokens <- tokenize_characters a ;;
     tokens <- symbol_token c (Z.of_nat (length a)) tokens ;;
     shift_outcome (Z.of_nat (length a) + 1) tokens (tokenize_characters b)).
Proof. apply tokenize_split. Qed.

Lemma tokenize_piece_by_piece_witness :
  tokenize_characters (list_ascii_of_string "12" ++ "*"%char :: list_ascii_of_string "3a")
  = (tokens <- tokenize_characters (list_ascii_of_string "12") ;;
     tokens <- symbol_token "*" 2 tokens ;;
     shift_outcome 3 tokens (tokenize_characters (list_ascii_of_string "3a"))).
Proof.
  exact (tokenize_piece_by_piece (list_ascii_of_string "12") "*"
           (list_ascii_of_string "3a") eq_refl).
Defined.

(** X2.  A character that is not a digit, a dot, a space, a parenthesis or
    one of [+ - * /] makes [calculate] fail with ["Unexpected symbol"] at the
    offset of that character, whatever follows it, as soon as the text before
    it tokenizes. *)
Theorem unexpected_symbol_reported a c b tokens :
  tokenize_characters a = Ok tokens ->
  is_numeric c = false ->
  ~ In c [" "; "("; ")"; "+"; "-"; "*"; "/"]%char ->
  calculate (string_of_list_ascii (a ++ c :: b))
  = ParseError (Z.of_nat (length a)) "Unexpected symbol".
Proof.
  intros Ha Hc Hout.
  assert (Hs : is_symbol c = false).
  { destruct (is_symbol c) eqn:E; [|reflexivity].
    now apply is_symbol_spec in E. }
  pose proof (tokenize_split a c b Hc) as H. rewrite Ha in H. cbn [bind] in H.
  rewrite symbol_token_rejects in H by exact Hs. cbn [bind] in H.
  unfold calculate, parse. unfold tokenize_characters in H. now rewrite H.
Qed.

Lemma unexpected_symbol_reported_witness :
  calculate (string_of_list_ascii (list_ascii_of_string "2 * (3" ++ "x"%char :: list_ascii_of_string ") + 0"))
  = ParseError 6 "Unexpected symbol".
Proof.
  apply (unexpected_symbol_reported (list_ascii_of_string "2 * (3") "x"
           (list_ascii_of_string ") + 0")
           [mk_token token_type.number 0 (Double.of_Z 2);
            mk_symbol token_type.multiply 2;
            mk_symbol token_type.opening_parenthesis 4;
            mk_token token_type.number 5 (Double.of_Z 3)]).
  - vm_compute. reflexivity.
  - reflexivity.
  - cbn. intros [H|[H|[H|[H|[H|[H|[H|[]]]]]]]]; discriminate H.
Defined.

(** X3.  When [tokenize] fails, the error offset is the index of a character
    of the formula: for ["Number too long"] a digit or a dot, for
    ["Unexpected symbol"] a character outside the alphabet.  The tokenizer
    has no other message. *)
Theorem tokenize_failure_explained formula position message :
  tokenize_characters formula = ParseError position message ->
  exists c, character_at formula position = Some c /\
    ((message = "Number too long"%string /\ is_numeric c = true) \/
     (message = "Unexpected symbol"%string /\ is_numeric c = false /\
      ~ In c [" "; "("; ")"; "+"; "-"; "*"; "/"]%char)).
Proof.
  unfold tokenize_characters, tokenize. rewrite list_ascii_of_string_of_list.
  intros H. pose proof (tokenize_from_failure formula 0 [] [] 0) as Hf.
  rewrite H in Hf. cbn [failure_explained] in Hf. unfold character_at.
  destruct Hf as [[Hm [[Hne _]|[Hp (c & Hc & Hnum)]]]
                 |[Hm [Hp (c & Hc & Hnum & Hsym)]]].
  - now destruct Hne.
  - exists c. rewrite Z.sub_0_r in Hc.
    destruct (Z.ltb_spec position 0); [lia|]. split; [exact Hc|]. now left.
  - exists c. rewrite Z.sub_0_r in Hc.
    destruct (Z.ltb_spec position 0); [lia|]. split; [exact Hc|]. right.
    split; [exact Hm|]. split; [exact Hnum|]. intros Hin.
    apply is_symbol_spec in Hin. congruence.
Qed.

Lemma tokenize_failure_explained_witness :
  exists c, character_at (list_ascii_of_string "1 + 0.0.1") 4 = Some c /\
    (("Number too long"%string = "Number too long"%string /\ is_numeric c = true) \/
     ("Number too long"%string = "Unexpected symbol"%string /\ is_numeric c = false /\
      ~ In c [" "; "("; ")"; "+"; "-"; "*"; "/"]%char)).
Proof.
  apply (tokenize_failure_explained (list_ascii_of_string "1 + 0.0.1") 4
           "Number too long").
  vm_compute. reflexivity.
Defined.

(** X4.  The tokens that [tokenize] returns are in place and in order: the
    offset of each token is the index of a character of the formula that
    begins a token of its type (a digit or a dot for a number, the symbol
    itself otherwise), the offsets increase strictly, and so there are no
    more tokens than characters. *)
Theorem tokens_in_place_and_order formula tokens :
  tokenize_characters formula = Ok tokens ->
  Forall (in_place formula) tokens /\ ascending (-1) tokens /\
  (length tokens <= length formula)%nat.
Proof.
  unfold tokenize_characters, tokenize. rewrite list_ascii_of_string_of_list.
  intros H.
  apply (tokenize_from_placed formula [] [] [] 0) in H.
  - destruct H as (Hp & Ha & Hb). split; [exact Hp|]. split; [exact Ha|].
    cbn [length Z.of_nat Z.add] in Hb.
    pose proof (ascending_length tokens (-1) _ Ha Hb). lia.
  - split; [constructor|]. split; [exact I | constructor].
  - now intros [].
Qed.

Lemma tokens_in_place_and_order_witness :
  Forall (in_place (list_ascii_of_string "-(1.5 + 2)"))
    [mk_symbol token_type.minus 0;
     mk_symbol token_type.opening_parenthesis 1;
     mk_token token_type.number 2 (Double.of_ratio 3 2);
     mk_symbol token_type.plus 6;
     mk_token token_type.number 8 (Double.of_Z 2);
     mk_symbol token_type.closing_parenthesis 9].
Proof.
  apply (tokens_in_place_and_order (list_ascii_of_string "-(1.5 + 2)")).
  vm_compute. reflexivity.
Defined.

(** ** The parser *)

(** X5.  [parse] is sound and complete for the grammar of well-nested
    trees: a token vector parses to [e] exactly when [e] is well nested
    (the left operand of an operator binds at least as tightly as the
    operator, the right operand strictly tighter, and a unary minus applies
    to a number, a parenthesis or a unary minus) and the tokens, offsets
    aside, are the ones [e] spells.  So the parser undoes the printing of every well-nested tree,
    and the offsets of the tokens play no role in a successful parse. *)
Theorem parse_tokens_characterised tokens e :
  parse_tokens tokens = Ok e <->
  well_nested e = true /\ map erase tokens = yield e.
Proof.
  split.
  - intros H. split.
    + eapply parse_tokens_well_nested, H.
    + now apply parse_tokens_spells.
  - intros [Hw Hy]. now apply parse_tokens_rebuilt.
Qed.

Lemma parse_tokens_characterised_witness :
  parse_tokens wrapped_five = Ok (parentheses (number (Double.of_Z 5))).
Proof.
  apply (proj2 (parse_tokens_characterised wrapped_five
                  (parentheses (number (Double.of_Z 5))))).
  split; reflexivity.
Defined.

(** X6.  [calculate] returns a value or throws a [parse_exception], unless it
    reads past the end of the token vector: on no formula is a
    [broken_parser_exception] thrown ([token::value] is only called on
    numbers, [find_closing_parenthesis] never sees a negative depth), and the
    recursion of the parser ends within the budget of the model. *)
Theorem calculate_returns_or_overruns formula :
  (exists v, calculate formula = Ok v) \/
  (exists position message, calculate formula = ParseError position message) \/
  calculate formula = OutOfRange.
Proof. apply calculate_outcome. Qed.

(** X7.  Unless the last token of the formula is an operator, the parser
    reads no token outside the vector: [calculate] returns a value or throws
    a [parse_exception]. *)
Theorem no_read_past_the_tokens formula tokens :
  tokenize formula = Ok tokens ->
  ends_with_operator tokens = false ->
  (exists v, calculate formula = Ok v) \/
  (exists position message, calculate formula = ParseError position message).
Proof.
  intros Ht Hend.
  destruct (calculate_outcome formula) as [H|[H|H]]; [now left | now right|].
  exfalso. unfold calculate, parse in H. rewrite Ht in H. cbn [bind] in H.
  pose proof (parse_tokens_in_range tokens Hend) as Hr.
  destruct (parse_tokens tokens); try discriminate. now apply Hr.
Qed.

Lemma no_read_past_the_tokens_witness :
  (exists v, calculate "(3 +)" = Ok v) \/
  (exists position message, calculate "(3 +)" = ParseError position message).
Proof.
  apply (no_read_past_the_tokens "(3 +)"
           [mk_symbol token_type.opening_parenthesis 0;
            mk_token token_type.number 1 (Double.of_Z 3);
            mk_symbol token_type.plus 3;
            mk_symbol token_type.closing_parenthesis 4]).
  - vm_compute. reflexivity.
  - reflexivity.
Defined.

(** X8.  A complete expression followed by one operator that ends the
    formula makes [parse_operand] read [tokens[tokens.size()]]: the
    behaviour of [calculate] is undefined. *)
Theorem trailing_operator_overruns body t e :
  well_nested e = true -> map erase body = yield e ->
  is_operator (type t) = true ->
  parse_tokens (body ++ [t]) = OutOfRange.
Proof.
  intros Hw Hy Hop. apply (operand_failed_after body t [] e); try assumption.
  - rewrite parse_operand_eq, tokens_at_beyond; [reflexivity|].
    rewrite size_app. unfold size. cbn [length]. lia.
  - discriminate.
Qed.

Lemma trailing_operator_overruns_witness :
  parse_tokens (wrapped_five ++ [mk_symbol token_type.divide 4]) = OutOfRange.
Proof.
  apply (trailing_operator_overruns wrapped_five (mk_symbol token_type.divide 4)
           (parentheses (number (Double.of_Z 5))));
    reflexivity.
Defined.

(** X9.  After a complete expression, a token that is not an operator (a
    number, an opening or a closing parenthesis) is rejected at its own
    offset with ["Unexpected token: operator needed"], whatever follows. *)
Theorem missing_operator_rejected body t rest e :
  well_nested e = true -> map erase body = yield e ->
  is_operator (type t) = false ->
  parse_tokens (body ++ t :: rest)
  = ParseError (start_position t) "Unexpected token: operator needed".
Proof. apply operator_needed_after. Qed.

Lemma missing_operator_rejected_witness :
  parse_tokens (wrapped_five ++ mk_token token_type.number 4 (Double.of_Z 2)
                               :: [mk_symbol token_type.plus 6])
  = ParseError 4 "Unexpected token: operator needed".
Proof.
  apply (missing_operator_rejected wrapped_five
           (mk_token token_type.number 4 (Double.of_Z 2))
           [mk_symbol token_type.plus 6]
           (parentheses (number (Double.of_Z 5))));
    reflexivity.
Defined.

(** X10.  After a complete expression and an operator, the failure of the
    operand that follows is the failure of the whole formula: whatever
    [parse_operand] throws there, with its offset and message, is what
    [parse] throws. *)
Theorem failing_operand_reported body t rest e failure :
  well_nested e = true -> map erase body = yield e ->
  is_operator (type t) = true ->
  parse_operand (body ++ t :: rest) (size body + 1)
    (size (body ++ t :: rest) - 1) = failure ->
  (forall r, failure <> Ok r) ->
  parse_tokens (body ++ t :: rest) = failure.
Proof. apply operand_failed_after. Qed.

Lemma failing_operand_reported_witness :
  parse_tokens (wrapped_five ++ mk_symbol token_type.multiply 4 :: paren_example)
  = ParseError 0 "Empty parentheses".
Proof.
  apply (failing_operand_reported wrapped_five (mk_symbol token_type.multiply 4)
           paren_example (parentheses (number (Double.of_Z 5))));
    try reflexivity.
  discriminate.
Defined.

(** X11.  A token that cannot begin an operand (a closing parenthesis or one
    of [+ * /]) is rejected at its own offset with ["Unexpected token"] when
    it is the first token of the formula and when it follows a complete
    expression and an operator; a minus that follows a complete expression
    and an operator and ends the formula is rejected there with
    ["Orphan minus"]. *)
Theorem unexpected_token_rejected :
  (forall t rest,
     begins_operand (type t) = false ->
     parse_tokens (t :: rest)
     = ParseError (start_position t) "Unexpected token") /\
  (forall body op t rest e,
     well_nested e = true -> map erase body = yield e ->
     is_operator (type op) = true ->
     begins_operand (type t) = false ->
     parse_tokens (body ++ op :: t :: rest)
     = ParseError (start_position t) "Unexpected token") /\
  (forall body op t e,
     well_nested e = true -> map erase body = yield e ->
     is_operator (type op) = true ->
     type t = token_type.minus ->
     parse_tokens (body ++ [op; t])
     = ParseError (start_position t) "Orphan minus").
Proof.
  split; [|split].
  - intros t rest Hb. rewrite parse_tokens_nonempty by discriminate.
    rewrite parse_range_eq.
    rewrite (parse_operand_unexpected _ 0 _ t); [reflexivity| reflexivity |exact Hb].
  - intros body op t rest e Hw Hy Hop Hb.
    apply (operand_failed_after body op (t :: rest) e); try assumption;
      [|discriminate].
    apply parse_operand_unexpected; [apply tokens_at_app_next | exact Hb].
  - intros body op t e Hw Hy Hop Hty.
    apply (operand_failed_after body op [t] e); try assumption; [|discriminate].
    rewrite parse_operand_eq, tokens_at_app_next. cbn [bind]. rewrite Hty.
    rewrite size_app. unfold size. cbn [length].
    now rewrite (proj2 (Z.eqb_eq _ _)) by lia.
Qed.

Lemma unexpected_token_rejected_witness :
  parse_tokens (wrapped_five ++ mk_symbol token_type.minus 4
                               :: mk_symbol token_type.closing_parenthesis 6 :: [])
  = ParseError 6 "Unexpected token".
Proof.
  apply (proj1 (proj2 unexpected_token_rejected) wrapped_five
           (mk_symbol token_type.minus 4)
           (mk_symbol token_type.closing_parenthesis 6) []
           (parentheses (number (Double.of_Z 5))));
    reflexivity.
Defined.

(** X12.  [find_closing_parenthesis] on a range inside the vector returns,
    without throwing, the index of the first closing parenthesis of the range
    that is met at depth zero, and [-1] when the range has none. *)
Theorem closing_parenthesis_search tokens start end_ :
  0 <= start -> end_ < size tokens ->
  exists r, find_closing_parenthesis tokens start end_ = Ok r /\
    ((r = -1 /\ forall j, start <= j <= end_ -> ~ matching_close tokens start j)
     \/ (start <= r <= end_ /\ matching_close tokens start r)).
Proof. apply find_closing_parenthesis_spec. Qed.

Lemma closing_parenthesis_search_witness :
  exists r, find_closing_parenthesis wrapped_five 1 2 = Ok r /\
    ((r = -1 /\ forall j, 1 <= j <= 2 -> ~ matching_close wrapped_five 1 j)
     \/ (1 <= r <= 2 /\ matching_close wrapped_five 1 r)).
Proof.
  apply (closing_parenthesis_search wrapped_five 1 2); [lia | cbn; lia].
Defined.

(** X13.  Every message of a [parse_exception] that [calculate] throws is one
    of the eight of [messages]; the ["Invalid number: ..."] message of
    [parse_number] is never produced. *)
Theorem error_messages_closed formula position message :
  calculate formula = ParseError position message -> In message messages.
Proof.
  unfold calculate, parse. intros H.
  destruct (tokenize formula) as [tokens|p m| | |] eqn:Et; cbn [bind] in H;
    try discriminate.
  - destruct (parse_tokens tokens) as [e|p m| | |] eqn:Ep; cbn [bind] in H;
      try discriminate.
    injection H as _ <-. eapply parse_tokens_messages, Ep.
  - injection H as _ <-.
    destruct (tokenize_messages _ _ _ Et) as [-> | ->]; cbn; tauto.
Qed.

Lemma error_messages_closed_witness :
  In "Orphan minus"%string messages.
Proof.
  apply (error_messages_closed "2 * -" 4 "Orphan minus"). vm_compute. reflexivity.
Defined.

(** ** Formulas put together *)

(** X14.  Parentheses around a formula that has a value give a formula with
    the same value. *)
Theorem parenthesized_formula_value formula v :
  calculate formula = Ok v ->
  calculate ("(" ++ formula ++ ")") = Ok v.
Proof.
  intros H. apply calculate_tree_inv in H.
  destruct H as (e & Hk & Hw & <- & _).
  destruct (calculate_wrapped formula e Hk Hw) as [Hk' Hw'].
  exact (calculate_tree _ (parentheses e) Hk' Hw').
Qed.

Lemma parenthesized_formula_value_witness :
  calculate ("(" ++ "2 + 3 * 4" ++ ")") = Ok (Double.of_Z 14).
Proof.
  apply (parenthesized_formula_value "2 + 3 * 4" (Double.of_Z 14)).
  vm_compute. reflexivity.
Defined.

(** X15.  A minus in front of a parenthesized formula that has a value gives
    the opposite value: the product by [-1] that [negative::calc] computes
    is exact. *)
Theorem negated_formula_value formula v :
  calculate formula = Ok v ->
  calculate ("-(" ++ formula ++ ")") = Ok (Double.opp v).
Proof.
  intros H. apply calculate_tree_inv in H.
  destruct H as (e & Hk & Hw & <- & Hv).
  destruct (calculate_wrapped formula e Hk Hw) as [Hk' Hw'].
  rewrite <- (mul_minus_one_opp _ Hv).
  apply (calculate_tree _ (negative (parentheses e))).
  - change ("-(" ++ formula ++ ")")%string
      with (String "-" ("(" ++ formula ++ ")")).
    cbn [list_ascii_of_string]. now apply kinds_minus.
  - cbn [well_nested level]. cbn [well_nested] in Hw'. now rewrite Hw'.
Qed.

Lemma negated_formula_value_witness :
  calculate ("-(" ++ "2 - 3 / 4" ++ ")") = Ok (Double.opp (Double.of_ratio 5 4)).
Proof.
  apply (negated_formula_value "2 - 3 / 4" (Double.of_ratio 5 4)).
  vm_compute. reflexivity.
Defined.

(** X16.  Two formulas that have values, each put in parentheses and joined
    by an operator, give the formula whose value is the sum, the difference,
    the product or the quotient of the two values. *)
Theorem combined_formulas_value f g x y :
  calculate f = Ok x -> calculate g = Ok y ->
  calculate (("(" ++ f ++ ")") ++ "+" ++ ("(" ++ g ++ ")")) = Ok (Double.add x y) /\
  calculate (("(" ++ f ++ ")") ++ "-" ++ ("(" ++ g ++ ")")) = Ok (Double.sub x y) /\
  calculate (("(" ++ f ++ ")") ++ "*" ++ ("(" ++ g ++ ")")) = Ok (Double.mul x y) /\
  calculate (("(" ++ f ++ ")") ++ "/" ++ ("(" ++ g ++ ")")) = Ok (Double.div x y).
Proof.
  intros Hf Hg. apply calculate_tree_inv in Hf, Hg.
  destruct Hf as (ef & Hkf & Hwf & <- & _).
  destruct Hg as (eg & Hkg & Hwg & <- & _).
  split; [|split; [|split]].
  - exact (calculate_combined f g ef eg _operator.plus Hkf Hwf Hkg Hwg).
  - exact (calculate_combined f g ef eg _operator.minus Hkf Hwf Hkg Hwg).
  - exact (calculate_combined f g ef eg _operator.multiply Hkf Hwf Hkg Hwg).
  - exact (calculate_combined f g ef eg _operator.divide Hkf Hwf Hkg Hwg).
Qed.

Lemma combined_formulas_value_witness :
  calculate (("(" ++ "1 + 2" ++ ")") ++ "*" ++ ("(" ++ "3 - 5" ++ ")"))
  = Ok (Double.mul (Double.of_Z 3) (Double.of_Z (-2))).
Proof.
  refine (proj1 (proj2 (proj2
            (combined_formulas_value "1 + 2" "3 - 5" (Double.of_Z 3)
               (Double.of_Z (-2)) _ _))));
    vm_compute; reflexivity.
Defined.

(** X17.  A space changes no value when it stands next to a character that
    is neither a digit nor a dot, or at either end of the formula: with and
    without that space [calculate] returns the same values. *)
Theorem space_insignificant a b v :
  is_numeric (last a " "%char) = false \/ is_numeric (hd " "%char b) = false ->
  calculate (string_of_list_ascii (a ++ " "%char :: b)) = Ok v <->
  calculate (string_of_list_ascii (a ++ b)) = Ok v.
Proof.
  intros H. rewrite !calculate_kinds, !list_ascii_of_string_of_list.
  now rewrite (kinds_space a b H).
Qed.

Lemma space_insignificant_witness :
  calculate (string_of_list_ascii
               (list_ascii_of_string "2 *" ++ " "%char :: list_ascii_of_string "(3 + 4)"))
  = Ok (Double.of_Z 14).
Proof.
  apply (proj2 (space_insignificant (list_ascii_of_string "2 *")
                  (list_ascii_of_string "(3 + 4)") (Double.of_Z 14)
                  (or_introl eq_refl))).
  vm_compute. reflexivity.
Defined.

(** ** The driver *)

(** X18.  [main] ends with [EXIT_SUCCESS] or [EXIT_FAILURE] on every line
    whose last token is not an operator: it is left without a status only
    when [calculate] reads past the token vector, and then the formula
    tokenizes and its last token is an operator. *)
Theorem main_terminated_only_by_overrun formula :
  CLI.status (CLI.main formula) = CLI.Terminated ->
  calculate formula = OutOfRange /\
  exists tokens, tokenize formula = Ok tokens /\ ends_with_operator tokens = true.
Proof.
  unfold CLI.main. intros H.
  destruct (calculate_outcome formula) as [[v Hv]|[(p & m & Hp)|Ho]].
  - rewrite Hv in H. discriminate H.
  - rewrite Hp in H. discriminate H.
  - split; [exact Ho|].
    destruct (tokenize_outcome formula) as [[tokens Ht]|(p & m & Ht)].
    + exists tokens. split; [exact Ht|].
      destruct (ends_with_operator tokens) eqn:E; [reflexivity|].
      exfalso. unfold calculate, parse in Ho. rewrite Ht in Ho. cbn [bind] in Ho.
      pose proof (parse_tokens_in_range tokens E) as Hr.
      destruct (parse_tokens tokens); try discriminate. now apply Hr.
    + unfold calculate, parse in Ho. rewrite Ht in Ho. discriminate Ho.
Qed.

Lemma main_terminated_only_by_overrun_witness :
  calculate "2 * (3 + 4) -" = OutOfRange /\
  exists tokens, tokenize "2 * (3 + 4) -" = Ok tokens /\
                 ends_with_operator tokens = true.
Proof.
  apply (main_terminated_only_by_overrun "2 * (3 + 4) -"). vm_compute. reflexivity.
Defined.
